(** * Real spherical harmonics: a model of [e3nn/rsh.py]

    The development follows the Python module function by function.

    Conventions of the model.

    - Every operation of the module acts elementwise on the leading batch
      dimensions of its tensors, so the model follows one batch element: a
      tensor of shape [[...]] is one scalar, a tensor of shape [[..., k]] is a
      list of length [k].
    - A scalar is a real number or the not-a-number value produced by the
      division of zero by zero and by the square root of a negative number
      ([fval]).  Rounding of floating-point arithmetic is not modelled:
      finite values are exact reals.  Where the program differs from that
      by more than its last digits (sums that cancel at high degree, squares
      beyond the range of the format), the section on floating point says
      how the statements are kept to what the program computes.
    - A Python exception is a value [Raise e] of the result type [PyResult].
    - The symbolic stage (sympy) works on exact integer polynomials in [z];
      the normalisation constant is a real number. *)

From Stdlib Require Import Reals ZArith List Lia Lra Bool Arith.
Import ListNotations.

(* ------------------------------------------------------------------ *)
(** ** Scalars: reals extended with NaN *)

Inductive fval : Type :=
| Fin (r : R)
| NaN.

Definition lift1 (f : R -> R) (a : fval) : fval :=
  match a with
  | Fin r => Fin (f r)
  | NaN => NaN
  end.

Definition lift2 (f : R -> R -> R) (a b : fval) : fval :=
  match a, b with
  | Fin x, Fin y => Fin (f x y)
  | _, _ => NaN
  end.

Definition fadd : fval -> fval -> fval := lift2 Rplus.
Definition fsub : fval -> fval -> fval := lift2 Rminus.
Definition fmul : fval -> fval -> fval := lift2 Rmult.

(** [a / b].  The one division of the module divides the components of a
    vector by the vector's own norm; over the reals that norm is zero only
    when every component is zero, so a zero divisor always meets a zero
    dividend and the quotient is NaN. *)
Definition fdiv (a b : fval) : fval :=
  match a, b with
  | Fin x, Fin y => if Req_EM_T y 0 then NaN else Fin (x / y)
  | _, _ => NaN
  end.

(** [a ** n] for a Python int [n >= 0]; [nan ** 0] is [1]. *)
Definition fpow (a : fval) (n : nat) : fval :=
  match n with
  | O => Fin 1
  | S _ => lift1 (fun r => r ^ n)%R a
  end.

(** [torch.sqrt]: NaN below zero. *)
Definition fsqrt (a : fval) : fval :=
  match a with
  | Fin r => if Rlt_dec r 0 then NaN else Fin (sqrt r)
  | NaN => NaN
  end.

(** [torch.relu]: [max(x, 0)], NaN kept. *)
Definition frelu : fval -> fval := lift1 (fun r => Rmax r 0).

Definition fabs : fval -> fval := lift1 Rabs.
Definition fcos : fval -> fval := lift1 cos.
Definition fsin : fval -> fval := lift1 sin.

(** The two-argument arctangent, by quadrant. *)
Definition atan2 (y x : R) : R :=
  if Rlt_dec 0 x then atan (y / x)
  else if Rlt_dec x 0 then
         (if Rle_dec 0 y then atan (y / x) + PI else atan (y / x) - PI)%R
  else if Rlt_dec 0 y then (PI / 2)%R
  else if Rlt_dec y 0 then (- (PI / 2))%R
  else 0%R.

Definition fatan2 : fval -> fval -> fval := lift2 atan2.

(** [torch.zeros_like] and [torch.ones_like] of a scalar. *)
Definition zeros_like (_ : fval) : fval := Fin 0.
Definition ones_like (_ : fval) : fval := Fin 1.

(* ------------------------------------------------------------------ *)
(** ** Python exceptions *)

Inductive PyError : Type :=
| ValueError      (* max() of an empty sequence *)
| IndexError      (* a tensor index out of range *)
| RuntimeError    (* torch: stack/cat of an empty list, shape mismatch;
                     TorchScript: list index out of range *)
| SyntaxError     (* generated source that does not parse *)
| ImportError.    (* the accelerator extension is not installed *)

Inductive PyResult (A : Type) : Type :=
| Ok (a : A)
| Raise (e : PyError).

Arguments Ok {A} a.
Arguments Raise {A} e.

Definition bind {A B} (c : PyResult A) (k : A -> PyResult B) : PyResult B :=
  match c with
  | Ok a => k a
  | Raise e => Raise e
  end.

Notation "x <- c ;; k" := (bind c (fun x => k))
  (at level 61, c at next level, right associativity).

(** [xs[i]] on a list, inside a function compiled by [@torch.jit.script]
    (the module indexes lists nowhere else): there an index out of range
    is a [torch.jit.Error], which is a [RuntimeError], not the [IndexError]
    of the Python interpreter. *)
Definition getitem {A} (xs : list A) (i : nat) : PyResult A :=
  match nth_error xs i with
  | Some a => Ok a
  | None => Raise RuntimeError
  end.

(** [max(ls)]. *)
Definition py_max (ls : list nat) : PyResult nat :=
  match ls with
  | [] => Raise ValueError
  | l :: rest => Ok (fold_left Nat.max rest l)
  end.

(** [torch.stack(p, dim=-1)] of scalars and [torch.cat(ps, dim=-1)] of
    vectors: both refuse an empty list. *)
Definition stack (p : list fval) : PyResult (list fval) :=
  match p with
  | [] => Raise RuntimeError
  | _ => Ok p
  end.

Definition cat (ps : list (list fval)) : PyResult (list fval) :=
  match ps with
  | [] => Raise RuntimeError
  | _ => Ok (concat ps)
  end.

(* ------------------------------------------------------------------ *)
(** ** The symbolic stage: integer polynomials in [z]

    A polynomial is the list of its coefficients, constant term first. *)

Module ZPoly.

Fixpoint padd (p q : list Z) : list Z :=
  match p, q with
  | [], _ => q
  | _, [] => p
  | a :: p', b :: q' => (a + b)%Z :: padd p' q'
  end.

Definition pscale (c : Z) (p : list Z) : list Z := map (Z.mul c) p.

Fixpoint pmul (p q : list Z) : list Z :=
  match p with
  | [] => []
  | c :: p' => padd (pscale c q) (0%Z :: pmul p' q)
  end.

Fixpoint ppow (p : list Z) (n : nat) : list Z :=
  match n with
  | O => [1%Z]
  | S n' => pmul p (ppow p n')
  end.

Fixpoint pderiv_from (k : Z) (p : list Z) : list Z :=
  match p with
  | [] => []
  | c :: p' => (k * c)%Z :: pderiv_from (k + 1) p'
  end.

(** d/dz *)
Definition pderiv (p : list Z) : list Z :=
  match p with
  | [] => []
  | _ :: p' => pderiv_from 1 p'
  end.

(** [diff(p, z, n)] *)
Definition diff (p : list Z) (n : nat) : list Z := Nat.iter n pderiv p.

(** Value at an integer point (Horner). *)
Fixpoint peval (p : list Z) (x : Z) : Z :=
  match p with
  | [] => 0%Z
  | c :: p' => (c + x * peval p' x)%Z
  end.

End ZPoly.

(* ------------------------------------------------------------------ *)
(** ** Coefficient generator *)

(** One monomial [(coef, (nz, ny))]: [coef * z**nz * y**ny]. *)
Definition Term : Type := (R * (nat * nat))%type.

(** The expression built by [sympy_legendre]: [scal * y**ypow * zpoly(z)]. *)
Record Expr : Type := mkExpr {
  scal : R;
  ypow : nat;
  zpoly : list Z
}.

(** [sympy_legendre(l, m)], for a degree [l >= 0] (its only caller passes
    [0 <= m <= l]):
<<
    m = abs(m)
    ex = 1 / (2**l * factorial(l)) * y**m * diff((z**2 - 1)**l, z, l + m)
    ex *= (-1)**l * sqrt((2*l + 1) / (4*pi) * factorial(l - m) / factorial(l + m))
>> *)
Definition sympy_legendre (l : nat) (m : Z) : Expr :=
  let m := Z.abs_nat m in
  {| scal := (1 / (2 ^ l * INR (fact l))
              * ((-1) ^ l
                 * sqrt ((2 * INR l + 1) / (4 * PI)
                         * INR (fact (l - m)) / INR (fact (l + m)))))%R;
     ypow := m;
     zpoly := ZPoly.diff (ZPoly.ppow [(-1)%Z; 0%Z; 1%Z] l) (l + m) |}.

(** [Poly(ex, gens=(z, y)).as_dict().items()]: the monomials with a non-zero
    coefficient, as [(exponents, coefficient)].  The order is the one of
    ascending powers of [z]; summation over the reals does not depend on it. *)
Fixpoint as_dict_from (k : nat) (s : R) (ny : nat) (p : list Z)
  : list ((nat * nat) * R) :=
  match p with
  | [] => []
  | c :: p' =>
      if Z.eqb c 0 then as_dict_from (S k) s ny p'
      else ((k, ny), (s * IZR c)%R) :: as_dict_from (S k) s ny p'
  end.

Definition Poly_as_dict (ex : Expr) : list ((nat * nat) * R) :=
  as_dict_from 0 (scal ex) (ypow ex) (zpoly ex).

(** [poly_legendre(l)] on a Python int [l]:
<<
    ps = []
    for m in range(l + 1):
        p = Poly(sympy_legendre(l, m), domain='R', gens=(z, y))
        ps += [[(float(coef), exp) for exp, coef in p.as_dict().items()]]
    return ps
>>
    The body has no [raise] and [range(l + 1)] is empty below zero, so the
    call always returns.  The persistent memoisation around it does not
    change the value returned. *)
Definition poly_legendre (l : Z) : PyResult (list (list Term)) :=
  Ok (map (fun m : nat =>
             map (fun ec : (nat * nat) * R => (snd ec, fst ec))
                 (Poly_as_dict (sympy_legendre (Z.to_nat l) (Z.of_nat m))))
          (seq 0 (Z.to_nat (l + 1)))).

(* ------------------------------------------------------------------ *)
(** ** Beta / Legendre evaluator *)

(** The inner loop of [_legendre_eval_polys]:
    [val += coef * pwz[nz] * pwy[ny]].  The sum is exact here and a
    floating-point sum in the program; [abs_sum] bounds what the two can
    differ by. *)
Fixpoint eval_terms (poly : list Term) (pwz pwy : list fval) (val : fval)
  : PyResult fval :=
  match poly with
  | [] => Ok val
  | (coef, (nz, ny)) :: rest =>
      zn <- getitem pwz nz ;;
      yn <- getitem pwy ny ;;
      eval_terms rest pwz pwy (fadd val (fmul (fmul (Fin coef) zn) yn))
  end.

(** The outer loop: [p] grows on both sides for [m > 0]. *)
Fixpoint eval_polys_loop (polys : list (list Term)) (m : nat)
         (pwz pwy : list fval) (p : list fval) : PyResult (list fval) :=
  match polys with
  | [] => Ok p
  | poly :: rest =>
      z0 <- getitem pwz 0 ;;
      val <- eval_terms poly pwz pwy (zeros_like z0) ;;
      eval_polys_loop rest (S m) pwz pwy
        (if Nat.eqb m 0 then p ++ [val] else [val] ++ p ++ [val])
  end.

Definition _legendre_eval_polys (polys : list (list Term))
           (pwz pwy : list fval) : PyResult (list fval) :=
  p <- eval_polys_loop polys 0 pwz pwy [] ;;
  stack p.

(** The loop of [legendre] over the requested degrees. *)
Fixpoint legendre_loop (ls : list nat) (zs ys : list fval)
         (ps : list (list fval)) : PyResult (list (list fval)) :=
  match ls with
  | [] => Ok ps
  | l :: rest =>
      polys <- poly_legendre (Z.of_nat l) ;;
      blk <- _legendre_eval_polys polys zs ys ;;
      legendre_loop rest zs ys (ps ++ [blk])
  end.

(** The value of [y] derived from [z] when none is passed:
    [(1 - z**2).relu().sqrt()]. *)
Definition default_y (z : fval) : fval :=
  fsqrt (frelu (fsub (Fin 1) (fpow z 2))).

(** [legendre(ls, z, y=None)] *)
Definition legendre (ls : list nat) (z : fval) (y : option fval)
  : PyResult (list fval) :=
  let y := match y with
           | None => default_y z
           | Some y => y
           end in
  lmax <- py_max ls ;;
  let zs := map (fpow z) (seq 0 (lmax + 1)) in
  let ys := map (fpow y) (seq 0 (lmax + 1)) in
  ps <- legendre_loop ls zs ys [] ;;
  cat ps.

(** The value of one polynomial of a table at [(z, y)]: the sum of
    [coefficient * z^exponent_z * y^exponent_y] over its terms. *)
Definition poly_value (z y : fval) (poly : list Term) : fval :=
  fold_left (fun acc t =>
               fadd acc (fmul (fmul (Fin (fst t)) (fpow z (fst (snd t))))
                              (fpow y (snd (snd t)))))
            poly (Fin 0).

Definition spherical_harmonics_beta (ls : list nat) (cosbeta : fval)
           (abssinbeta : option fval) : PyResult (list fval) :=
  legendre ls cosbeta abssinbeta.

(* ------------------------------------------------------------------ *)
(** ** Alpha (azimuthal) evaluator *)

(** [torch.arange(1, l + 1)] and [torch.arange(l, 0, -1)], as floats. *)
Definition arange_up (l : nat) : list R := map INR (seq 1 l).
Definition arange_down (l : nat) : list R := map INR (rev (seq 1 l)).

(** [spherical_harmonics_alpha(l, alpha)]:
<<
    cos = torch.cos(m * alpha)       # m = [1, 2, ..., l]
    sin = torch.sin(m * alpha)       # m = [l, l-1, ..., 1]
    out = torch.cat([sqrt(2) * sin, ones_like(alpha), sqrt(2) * cos], dim=-1)
>> *)
Definition spherical_harmonics_alpha (l : nat) (alpha : fval) : list fval :=
  let cos := map (fun m => fcos (fmul (Fin m) alpha)) (arange_up l) in
  let sin := map (fun m => fsin (fmul (Fin m) alpha)) (arange_down l) in
  map (fmul (Fin (sqrt 2))) sin
  ++ [ones_like alpha]
  ++ map (fmul (Fin (sqrt 2))) cos.

(* ------------------------------------------------------------------ *)
(** ** Combiner *)

(** A bound of a Python slice on a sequence of length [n]: a negative bound
    counts from the end, and the result is clipped to [0 .. n]. *)
Definition slice_bound (n : nat) (i : Z) : nat :=
  let i' := if (i <? 0)%Z then (i + Z.of_nat n)%Z else i in
  Z.to_nat (Z.min (Z.max i' 0) (Z.of_nat n)).

(** [xs[start:stop]] *)
Definition pyslice {A} (xs : list A) (start stop : Z) : list A :=
  let a := slice_bound (length xs) start in
  let b := slice_bound (length xs) stop in
  firstn (b - a) (skipn a xs).

(** Elementwise product on the last dimension, with torch's broadcasting of
    a dimension of size one. *)
Definition tmul (a b : list fval) : PyResult (list fval) :=
  if Nat.eqb (length a) (length b) then
    Ok (map (fun p => fmul (fst p) (snd p)) (combine a b))
  else
    match a, b with
    | [x], _ => Ok (map (fmul x) b)
    | _, [y] => Ok (map (fun x => fmul x y) a)
    | _, _ => Raise RuntimeError
    end.

(** The loop of [mul_m_lm]:
<<
    out.append(x_lm[..., i: i + 2*l + 1] * x_m[..., lmax - l: lmax + l + 1])
    i += 2 * l + 1
>> *)
Fixpoint mul_m_lm_loop (ls : list nat) (lmax : nat) (x_m x_lm : list fval)
         (i : nat) (out : list (list fval)) : PyResult (list (list fval)) :=
  match ls with
  | [] => Ok out
  | l :: rest =>
      blk <- tmul (pyslice x_lm (Z.of_nat i) (Z.of_nat (i + 2 * l + 1)))
                  (pyslice x_m (Z.of_nat lmax - Z.of_nat l)
                               (Z.of_nat lmax + Z.of_nat l + 1)) ;;
      mul_m_lm_loop rest lmax x_m x_lm (i + 2 * l + 1) (out ++ [blk])
  end.

Definition mul_m_lm (ls : list nat) (x_m x_lm : list fval)
  : PyResult (list fval) :=
  let lmax := length x_m / 2 in
  out <- mul_m_lm_loop ls lmax x_m x_lm 0 [] ;;
  cat out.

(** [spherical_harmonics_alpha_z_y_cpu(ls, alpha, z, y)] *)
Definition spherical_harmonics_alpha_z_y_cpu (ls : list nat)
           (alpha z y : fval) : PyResult (list fval) :=
  lmax <- py_max ls ;;
  let sha := spherical_harmonics_alpha lmax alpha in
  shb <- spherical_harmonics_beta ls z (Some y) ;;
  mul_m_lm ls sha shb.

(* ------------------------------------------------------------------ *)
(** ** Kernel specializer

    [_spherical_harmonics_alpha_z_y_jit] writes the source of a function
    [main(alpha, z, y)] and has it compiled.  The generated source is kept
    here as a syntax tree; [eval_code] gives it its meaning. *)

Module Jit.

(** A variable [l{l}_{m}] of the generated source. *)
Definition Var : Type := (nat * nat)%type.

Definition var_eqb (a b : Var) : bool :=
  Nat.eqb (fst a) (fst b) && Nat.eqb (snd a) (snd b).

(** The right-hand side ["c * z**zn * y**yn + ..."]. *)
Definition Formula : Type := list Term.

(** The literal written by ["{:.25f}".format(c)]: it denotes the coefficient
    (the rounding to 25 decimals of the float is not modelled). *)
Definition format_25f (c : R) : R := c.

Record Source : Type := mkSource {
  ll_m : list (Var * Formula);   (* the assignments, in program order *)
  shb : list Var;                (* the arguments of torch.stack *)
  lmax_lit : nat;                (* the literal put in place of lmax *)
  ls_lit : list nat              (* the literal put in place of ls *)
}.

(** [range(-l, l + 1)] *)
Definition range_sym (l : nat) : list Z :=
  map (fun k => (Z.of_nat k - Z.of_nat l)%Z) (seq 0 (2 * l + 1)).

(** The assignments of one degree: one per entry of [poly_legendre(l)]. *)
Fixpoint gen_assigns (l : nat) (m : nat) (polys : list (list Term))
  : list (Var * Formula) :=
  match polys with
  | [] => []
  | p :: rest =>
      ((l, m), map (fun t : Term => (format_25f (fst t), snd t)) p)
        :: gen_assigns l (S m) rest
  end.

(** The loop over [ls], accumulating the texts [ll_m] and [shb]. *)
Fixpoint gen_loop (ls : list nat) (acc_ll_m : list (Var * Formula))
         (acc_shb : list Var)
  : PyResult (list (Var * Formula) * list Var) :=
  match ls with
  | [] => Ok (acc_ll_m, acc_shb)
  | l :: rest =>
      polys <- poly_legendre (Z.of_nat l) ;;
      gen_loop rest
        (acc_ll_m ++ gen_assigns l 0 polys)
        (acc_shb ++ map (fun m => (l, Z.abs_nat m)) (range_sym l))
  end.

Definition gen_source (ls : list nat) : PyResult Source :=
  parts <- gen_loop ls [] [] ;;
  lmax <- py_max ls ;;
  Ok {| ll_m := fst parts; shb := snd parts;
        lmax_lit := lmax; ls_lit := ls |}.

(** A compiled kernel. *)
Definition Kernel : Type := fval -> fval -> fval -> PyResult (list fval).

Definition eval_monomial (z y : fval) (t : Term) : fval :=
  fmul (fmul (Fin (fst t)) (fpow z (fst (snd t)))) (fpow y (snd (snd t))).

(** [t1 + t2 + ... + tn], associated to the left. *)
Definition eval_formula (z y : fval) (f : Formula) : fval :=
  match f with
  | [] => Fin 0
  | t :: ts =>
      fold_left (fun acc t' => fadd acc (eval_monomial z y t')) ts
                (eval_monomial z y t)
  end.

(** The environment after the assignments; the latest binding comes first. *)
Fixpoint exec_assigns (stmts : list (Var * Formula)) (z y : fval)
         (env : list (Var * fval)) : list (Var * fval) :=
  match stmts with
  | [] => env
  | (v, f) :: rest => exec_assigns rest z y ((v, eval_formula z y f) :: env)
  end.

Fixpoint lookup (env : list (Var * fval)) (v : Var) : PyResult fval :=
  match env with
  | [] => Raise RuntimeError
  | (v', x) :: rest => if var_eqb v v' then Ok x else lookup rest v
  end.

Fixpoint lookup_all (env : list (Var * fval)) (vs : list Var)
  : PyResult (list fval) :=
  match vs with
  | [] => Ok []
  | v :: rest =>
      x <- lookup env v ;;
      xs <- lookup_all env rest ;;
      Ok (x :: xs)
  end.

(** The body of the generated [main]. *)
Definition main (src : Source) : Kernel :=
  fun alpha z y =>
    let env := exec_assigns (ll_m src) z y [] in
    vals <- lookup_all env (shb src) ;;
    shb_t <- stack vals ;;
    let sha := spherical_harmonics_alpha (lmax_lit src) alpha in
    mul_m_lm (ls_lit src) sha shb_t.

Definition empty_formula (s : Var * Formula) : bool :=
  match snd s with
  | [] => true
  | _ => false
  end.

(** [eval_code(code).main]: an assignment with nothing on its right does
    not parse. *)
Definition eval_code (src : Source) : PyResult Kernel :=
  if existsb empty_formula (ll_m src) then Raise SyntaxError
  else Ok (main src).

End Jit.

(** The function under [@lru_cache()], without the cache. *)
Definition _spherical_harmonics_alpha_z_y_jit (ls : list nat)
  : PyResult Jit.Kernel :=
  src <- Jit.gen_source ls ;;
  Jit.eval_code src.

(** [spherical_harmonics_alpha_z_y_jit(ls, alpha, z, y)], memoisation left
    out (see [KernelCache] for the cache itself). *)
Definition spherical_harmonics_alpha_z_y_jit (ls : list nat)
           (alpha z y : fval) : PyResult (list fval) :=
  f <- _spherical_harmonics_alpha_z_y_jit ls ;;
  f alpha z y.

(** The process-wide kernel cache: [functools.lru_cache()] with its default
    bound of 128 entries, most recently used first. *)
Module KernelCache.

Definition t : Type := list (list nat * Jit.Kernel).

Definition maxsize : nat := 128.

Definition key_eqb (a b : list nat) : bool :=
  if list_eq_dec Nat.eq_dec a b then true else false.

Fixpoint find (c : t) (k : list nat) : option Jit.Kernel :=
  match c with
  | [] => None
  | (k', v) :: rest => if key_eqb k k' then Some v else find rest k
  end.

Definition remove (c : t) (k : list nat) : t :=
  filter (fun e => negb (key_eqb k (fst e))) c.

(** One call of the decorated function: a hit returns the stored kernel
    and refreshes its entry; a miss runs the function and stores what it
    returns; an exception stores nothing. *)
Definition call (c : t) (ls : list nat) : PyResult Jit.Kernel * t :=
  match find c ls with
  | Some f => (Ok f, (ls, f) :: remove c ls)
  | None =>
      match _spherical_harmonics_alpha_z_y_jit ls with
      | Ok f => (Ok f, firstn maxsize ((ls, f) :: c))
      | Raise e => (Raise e, c)
      end
  end.

(** [spherical_harmonics_alpha_z_y_jit] with the cache threaded through. *)
Definition spherical_harmonics_alpha_z_y_jit_cached (c : t) (ls : list nat)
           (alpha z y : fval) : PyResult (list fval) * t :=
  let r := call c ls in
  (f <- fst r ;; f alpha z y, snd r).

(** The states the cache can be in: empty at start, then changed by calls
    only. *)
Inductive reachable : t -> Prop :=
| reach_empty : reachable []
| reach_call c ls : reachable c -> reachable (snd (call c ls)).

End KernelCache.

(* ------------------------------------------------------------------ *)
(** ** Cartesian entry points *)

(** One direction [xyz[..., 0], xyz[..., 1], xyz[..., 2]]. *)
Definition Vec3 : Type := (fval * fval * fval)%type.

(** [torch.norm(xyz, 2, dim=-1, keepdim=True)] *)
Definition norm2 (v : Vec3) : fval :=
  let '(x, y, z) := v in
  fsqrt (fadd (fadd (fpow x 2) (fpow y 2)) (fpow z 2)).

(** [xyz / torch.norm(xyz, 2, dim=-1, keepdim=True)], over the reals:
    [normalize_ranged] adds the range of the format. *)
Definition normalize (v : Vec3) : Vec3 :=
  let n := norm2 v in
  let '(x, y, z) := v in
  (fdiv x n, fdiv y n, fdiv z n).

(** [spherical_harmonics_xyz_cpu(ls, xyz)]:
<<
    xyz = xyz / torch.norm(xyz, 2, dim=-1, keepdim=True)
    alpha = torch.atan2(xyz[..., 1], xyz[..., 0])
    beta_cos = xyz[..., 2]
    beta_asin = (xyz[..., 0].pow(2) + xyz[..., 1].pow(2)).sqrt()
    return spherical_harmonics_alpha_z_y_jit(ls, alpha, beta_cos, beta_asin)
>> *)
Definition spherical_harmonics_xyz_cpu (ls : list nat) (xyz : Vec3)
  : PyResult (list fval) :=
  let '(x, y, z) := normalize xyz in
  let alpha := fatan2 y x in
  let beta_cos := z in
  let beta_asin := fsqrt (fadd (fpow x 2) (fpow y 2)) in
  spherical_harmonics_alpha_z_y_jit ls alpha beta_cos beta_asin.

(** The sign vector of [spherical_harmonics_xyz_cuda]:
<<
    norm_coef = [elem for lh in range((lmax + 1) // 2)
                 for elem in [1.] * (4 * lh + 1) + [-1.] * (4 * lh + 3)]
    if lmax % 2 == 0:
        norm_coef.extend([1.] * (2 * lmax + 1))
>> *)
Definition norm_coef (lmax : nat) : list R :=
  flat_map (fun lh => repeat 1%R (4 * lh + 1) ++ repeat (-1)%R (4 * lh + 3))
           (seq 0 ((lmax + 1) / 2))
  ++ (if Nat.eqb (lmax mod 2) 0 then repeat 1%R (2 * lmax + 1) else []).

(** The accelerator extension [cuda_rsh], when it is installed:
    [real_spherical_harmonics(out, xyz)] fills a buffer of [n] rows; the
    function gives the value written in row [i]. *)
Definition Accelerator : Type := option (nat -> Vec3 -> nat -> fval).

Definition list_nat_eqb (a b : list nat) : bool :=
  if list_eq_dec Nat.eq_dec a b then true else false.

(** [spherical_harmonics_xyz_cuda(ls, xyz)] *)
Definition spherical_harmonics_xyz_cuda (cuda_rsh : Accelerator)
           (ls : list nat) (xyz : Vec3) : PyResult (list fval) :=
  match cuda_rsh with
  | None => Raise ImportError
  | Some real_spherical_harmonics =>
      let xyz := normalize xyz in
      lmax <- py_max ls ;;
      let n := (lmax + 1) ^ 2 in
      let out := map (real_spherical_harmonics n xyz) (seq 0 n) in
      let out := map (fun p => fmul (fst p) (Fin (snd p)))
                     (combine out (norm_coef lmax)) in
      if list_nat_eqb ls (seq 0 (lmax + 1)) then Ok out
      else cat (map (fun l => pyslice out (Z.of_nat (l ^ 2))
                                      (Z.of_nat ((l + 1) ^ 2))) ls)
  end.

(** Where a tensor lives, and whether gradients are tracked for it. *)
Inductive Device : Type := cpu | cuda.

Definition is_cuda (d : Device) : bool :=
  match d with
  | cuda => true
  | cpu => false
  end.

(** [spherical_harmonics_xyz(ls, xyz)]: the accelerator when the input is on
    the device, untracked and of degree at most ten; the CPU kernel
    otherwise and when the extension is missing. *)
Definition spherical_harmonics_xyz (cuda_rsh : Accelerator)
           (device : Device) (requires_grad : bool)
           (ls : list nat) (xyz : Vec3) : PyResult (list fval) :=
  if is_cuda device && negb requires_grad then
    lmax <- py_max ls ;;
    if Nat.leb lmax 10 then
      match spherical_harmonics_xyz_cuda cuda_rsh ls xyz with
      | Raise ImportError => spherical_harmonics_xyz_cpu ls xyz
      | r => r
      end
    else spherical_harmonics_xyz_cpu ls xyz
  else spherical_harmonics_xyz_cpu ls xyz.

(** [spherical_harmonics_alpha_beta(ls, alpha, beta)]: the accelerator when
    both angles are on the device and untracked and the degree is at most
    ten, on the direction of the two angles; otherwise, and when the
    extension is missing, the CPU kernel on [cos(beta)] and [|sin(beta)|]. *)
Definition spherical_harmonics_alpha_beta (cuda_rsh : Accelerator)
           (alpha_device beta_device : Device)
           (alpha_requires_grad beta_requires_grad : bool)
           (ls : list nat) (alpha beta : fval) : PyResult (list fval) :=
  let on_cpu :=
    spherical_harmonics_alpha_z_y_jit ls alpha (fcos beta) (fabs (fsin beta))
  in
  if is_cuda alpha_device && is_cuda beta_device
     && negb alpha_requires_grad && negb beta_requires_grad then
    lmax <- py_max ls ;;
    if Nat.leb lmax 10 then
      let xyz := (fmul (fsin beta) (fcos alpha),
                  fmul (fsin beta) (fsin alpha),
                  fcos beta) in
      match spherical_harmonics_xyz_cuda cuda_rsh ls xyz with
      | Raise ImportError => on_cpu
      | r => r
      end
    else on_cpu
  else on_cpu.

(* ------------------------------------------------------------------ *)
(** ** Layout converter *)

(** A tensor of shape [[L, M, K]]. *)
Definition Tensor3 : Type := list (list (list R)).

Definition zeros3 (a b c : nat) : Tensor3 :=
  repeat (repeat (repeat 0%R c) b) a.

Fixpoint mapi_from {A B} (i : nat) (f : nat -> A -> B) (xs : list A)
  : list B :=
  match xs with
  | [] => []
  | x :: rest => f i x :: mapi_from (S i) f rest
  end.

Definition mapi {A B} (f : nat -> A -> B) (xs : list A) : list B :=
  mapi_from 0 f xs.

Definition in_range (lo n i : nat) : bool :=
  Nat.leb lo i && Nat.ltb i (lo + n).

(** [torch.eye(n)[r, c]] *)
Definition eye (r c : nat) : R := if Nat.eqb r c then 1%R else 0%R.

(** [m[j, r0:r0+n, c0:c0+n] = torch.eye(n)].  The assignment needs the two
    slices to have [n] elements each, and [j] to be a row of [m]. *)
Definition assign_eye (m : Tensor3) (j r0 c0 n : nat) : PyResult Tensor3 :=
  match nth_error m j with
  | None => Raise IndexError
  | Some plane =>
      if Nat.leb (r0 + n) (length plane)
         && forallb (fun row => Nat.leb (c0 + n) (length row)) plane
      then
        Ok (mapi (fun j' pl =>
                    if Nat.eqb j' j then
                      mapi (fun a row =>
                              if in_range r0 n a then
                                mapi (fun k x =>
                                        if in_range c0 n k
                                        then eye (a - r0) (k - c0)
                                        else x) row
                              else row) pl
                    else pl) m)
      else Raise RuntimeError
  end.

(** The loop of [spherical_harmonics_expand_matrix]:
<<
    for j, l in enumerate(ls):
        m[j, lmax - l: lmax + l + 1, i:i + 2 * l + 1] = torch.eye(2 * l + 1)
        i += 2 * l + 1
>> *)
Fixpoint expand_loop (ls : list nat) (lmax j i : nat) (m : Tensor3)
  : PyResult Tensor3 :=
  match ls with
  | [] => Ok m
  | l :: rest =>
      m' <- assign_eye m j (lmax - l) i (2 * l + 1) ;;
      expand_loop rest lmax (S j) (i + 2 * l + 1) m'
  end.

(** [sum(2 * l + 1 for l in ls)] *)
Definition flat_width (ls : list nat) : nat :=
  fold_right (fun l acc => 2 * l + 1 + acc) 0 ls.

(** [spherical_harmonics_expand_matrix(ls)] *)
Definition spherical_harmonics_expand_matrix (ls : list nat)
  : PyResult Tensor3 :=
  lmax <- py_max ls ;;
  expand_loop ls lmax 0 0 (zeros3 (length ls) (2 * lmax + 1) (flat_width ls)).

(** The two contractions the layout is used with.  Expanding a flat vector
    [v]: [X[j, a] = sum_k E[j, a, k] * v[k]].  Contracting back:
    [v'[k] = sum_j sum_a E[j, a, k] * X[j, a]]. *)
Definition rsum (xs : list R) : R := fold_right Rplus 0%R xs.

Definition dot (u v : list R) : R :=
  rsum (map (fun p => (fst p * snd p)%R) (combine u v)).

Definition expand_flat (E : Tensor3) (v : list R) : list (list R) :=
  map (map (fun row => dot row v)) E.

Definition contract_flat (E : Tensor3) (X : list (list R)) (K : nat)
  : list R :=
  map (fun k =>
         rsum (map (fun jp =>
                      rsum (map (fun ar => (nth k (fst ar) 0 * snd ar)%R)
                                (combine (fst jp) (snd jp))))
                   (combine E X)))
      (seq 0 K).

(* ------------------------------------------------------------------ *)
(** ** Definitions used by the statements and the proofs *)

(** One block of [2 l + 1] entries [(-1)^l] per degree below [n]. *)
Definition sign_blocks (n : nat) : list R :=
  flat_map (fun l => repeat ((-1) ^ l)%R (2 * l + 1)) (seq 0 n).

(** The table of degree [l >= 0], as [poly_legendre] returns it. *)
Definition legendre_table (l : nat) : list (list Term) :=
  map (fun m : nat =>
         map (fun ec : (nat * nat) * R => (snd ec, fst ec))
             (Poly_as_dict (sympy_legendre l (Z.of_nat m))))
      (seq 0 (l + 1)).

(** The block of one degree: the values of orders [l, ..., 1, 0, 1, ..., l]. *)
Definition block_of (z y : fval) (polys : list (list Term)) : list fval :=
  match polys with
  | [] => []
  | p0 :: rest =>
      rev (map (poly_value z y) rest)
      ++ [poly_value z y p0]
      ++ map (poly_value z y) rest
  end.

(** A term whose exponents are within the power tables [0 .. n]. *)
Definition term_within (n : nat) (t : Term) : Prop :=
  fst (snd t) <= n /\ snd (snd t) <= n.

(** The value the generated source gives to the variable [l{l}_{m}]. *)
Definition order_value (z y : fval) (v : Jit.Var) : fval :=
  poly_value z y (nth (snd v) (legendre_table (fst v)) []).

(** Elementwise product of two rows of the same width. *)
Definition zip_mul (a b : list fval) : list fval :=
  map (fun p => fmul (fst p) (snd p)) (combine a b).

(** What [mul_m_lm] returns on the alpha row [x_m] of degree [lmax] and the
    blocks [B l] of the degrees of [ls]. *)
Definition combined (ls : list nat) (lmax : nat) (x_m : list fval)
           (B : nat -> list fval) : list fval :=
  concat (map (fun l => zip_mul (B l)
                                (firstn (2 * l + 1) (skipn (lmax - l) x_m)))
              ls).

(** Every entry of the cache holds the kernel its key compiles to. *)
Definition cache_sound (c : KernelCache.t) : Prop :=
  Forall (fun e => _spherical_harmonics_alpha_z_y_jit (fst e) = Ok (snd e)) c.

(** Two coefficient lists of the same polynomial: equal coefficient by
    coefficient, trailing zeros apart. *)
Definition peq (p q : list Z) : Prop :=
  forall k : nat, nth k p 0%Z = nth k q 0%Z.

(** Row [r] of [torch.eye(n)] written at columns [off .. off + n - 1] of a
    zero row of width [K]. *)
Definition unit_row (K off n r : nat) : list R :=
  map (fun k => if in_range off n k then eye r (k - off) else 0%R) (seq 0 K).

(** The plane of one degree [l] whose block starts at column [off]. *)
Definition plane_of (lmax K l off : nat) : list (list R) :=
  map (fun a =>
         if in_range (lmax - l) (2 * l + 1) a
         then unit_row K off (2 * l + 1) (a - (lmax - l))
         else repeat 0%R K)
      (seq 0 (2 * lmax + 1)).

(** The planes of the degrees [ls], the first block starting at [off]. *)
Fixpoint planes_from (lmax K : nat) (ls : list nat) (off : nat) : Tensor3 :=
  match ls with
  | [] => []
  | l :: rest =>
      plane_of lmax K l off :: planes_from lmax K rest (off + 2 * l + 1)
  end.

(** ** Auxiliary definitions for the further properties *)

(** A term whose two exponents index the power tables [pwz] and [pwy]. *)
Definition term_fits (pwz pwy : list fval) (t : Term) : Prop :=
  fst (snd t) < length pwz /\ snd (snd t) < length pwy.

(** A flat vector cut into the blocks of the degrees [ls]. *)
Fixpoint split_blocks (ls : list nat) (x : list fval) : list (list fval) :=
  match ls with
  | [] => []
  | l :: rest =>
      firstn (2 * l + 1) x :: split_blocks rest (skipn (2 * l + 1) x)
  end.

(** The block of degree [l] of a buffer [g] in the accelerator's layout
    (rows [l^2 .. (l + 1)^2 - 1]), each row multiplied by [(-1)^l]. *)
Definition signed_block (g : nat -> fval) (l : nat) : list fval :=
  map (fun i => fmul (g (l ^ 2 + i)) (Fin ((-1) ^ l))) (seq 0 (2 * l + 1)).

(** The alpha row at a real angle, as real numbers. *)
Definition alpha_row (l : nat) (a : R) : list R :=
  map (fun m => (sqrt 2 * sin (m * a))%R) (arange_down l)
  ++ [1%R]
  ++ map (fun m => (sqrt 2 * cos (m * a))%R) (arange_up l).

(** The value of a polynomial of a table at a real point, as a real. *)
Definition poly_real (z y : R) (poly : list Term) : R :=
  fold_left (fun acc t =>
               (acc + fst t * z ^ fst (snd t) * y ^ snd (snd t))%R)
            poly 0%R.

(* ------------------------------------------------------------------ *)
(** ** Floating point: the two places where exact reals are not enough

    The model computes with exact reals.  The program computes with the
    floating-point numbers of the tensor's format, and in two places the
    difference is more than a rounding in the last digits.

    - The polynomials are sums with cancellation: the terms are larger than
      the sum, by a factor that grows with the degree.  [abs_sum] measures
      it; the properties that give the value of such a sum in closed form
      are stated for degrees up to ten, the bound of the module's own
      accelerated path ([max(ls) <= 10]).
    - [torch.norm] squares the components: beyond the largest finite number
      of the format the squares are [inf], and below its smallest normal
      number they lose their digits.  [spherical_harmonics_xyz_cpu_ranged]
      follows the normalisation with that range. *)

(** The sum of the absolute values of the coefficients of a polynomial.  At
    [|z| <= 1] and [|y| <= 1] the floating-point sum of its [n] terms is
    within about [n] roundings of this quantity of the exact sum. *)
Definition abs_sum (poly : list Term) : R :=
  rsum (map (fun t => Rabs (fst t)) poly).

(** The same for an integer polynomial. *)
Definition zabs_sum (p : list Z) : Z :=
  fold_right (fun c acc => (Z.abs c + acc)%Z) 0%Z p.

(** The range of a floating-point format. *)
Record Format : Type := mkFormat {
  huge : R;   (* the largest finite number *)
  tiny : R    (* the smallest positive normal number *)
}.

(** [torch.float32], the default, and [torch.float64]. *)
Definition binary32 : Format :=
  {| huge := IZR (2 ^ 128 - 2 ^ 104); tiny := (/ IZR (2 ^ 126))%R |}.


(** What [torch.norm(xyz, 2, dim=-1, keepdim=True)] returns. *)
Inductive Norm : Type :=
| NormValue (n : fval)  (* the norm of the vector, or NaN *)
| NormOverflow          (* [inf]: the sum of the squares exceeds the format *)
| NormUnderflow.        (* the squares have lost their digits: what is
                           computed is not the norm, and is not modelled *)

Definition norm2_ranged (fmt : Format) (v : Vec3) : Norm :=
  match v with
  | (Fin x, Fin y, Fin z) =>
      let s := (x ^ 2 + y ^ 2 + z ^ 2)%R in
      if Rlt_dec (huge fmt) s then NormOverflow
      else if Rlt_dec 0 s then
             if Rlt_dec s (tiny fmt) then NormUnderflow
             else NormValue (norm2 v)
           else NormValue (norm2 v)
  | _ => NormValue (norm2 v)
  end.

(** [xyz / torch.norm(xyz, 2, dim=-1, keepdim=True)] with that norm: a finite
    component divided by [inf] is zero (the norm overflows only when the
    three components are finite).  [None]: not modelled. *)
Definition normalize_ranged (fmt : Format) (v : Vec3) : option Vec3 :=
  match norm2_ranged fmt v with
  | NormValue _ => Some (normalize v)
  | NormOverflow => Some (Fin 0, Fin 0, Fin 0)
  | NormUnderflow => None
  end.

(** [spherical_harmonics_xyz_cpu(ls, xyz)] on a tensor of format [fmt]:
<<
    xyz = xyz / torch.norm(xyz, 2, dim=-1, keepdim=True)
    alpha = torch.atan2(xyz[..., 1], xyz[..., 0])
    beta_cos = xyz[..., 2]
    beta_asin = (xyz[..., 0].pow(2) + xyz[..., 1].pow(2)).sqrt()
    return spherical_harmonics_alpha_z_y_jit(ls, alpha, beta_cos, beta_asin)
>>
    After the first line the components are at most one in absolute value
    and nothing overflows any more. *)
Definition spherical_harmonics_xyz_cpu_ranged (fmt : Format) (ls : list nat)
           (xyz : Vec3) : option (PyResult (list fval)) :=
  match normalize_ranged fmt xyz with
  | None => None
  | Some (x, y, z) =>
      let alpha := fatan2 y x in
      let beta_cos := z in
      let beta_asin := fsqrt (fadd (fpow x 2) (fpow y 2)) in
      Some (spherical_harmonics_alpha_z_y_jit ls alpha beta_cos beta_asin)
  end.

(* ================================================================== *)
(** * Properties *)

(** ** Scalars *)

Lemma fadd_zero_l (a : fval) : fadd (Fin 0) a = a.
Proof. destruct a; simpl; [f_equal; lra | reflexivity]. Qed.

Lemma fpow_Fin (r : R) (n : nat) : fpow (Fin r) n = Fin (r ^ n).
Proof. destruct n; reflexivity. Qed.

(** ** Power tables *)

Lemma getitem_map_seq {A} (f : nat -> A) (n i : nat) :
  i < n -> getitem (map f (seq 0 n)) i = Ok (f i).
Proof.
  intros H. unfold getitem.
  rewrite nth_error_map, nth_error_seq.
  destruct (Nat.ltb_spec i n); [reflexivity | lia].
Qed.

(* ------------------------------------------------------------------ *)
(** ** Negative degrees *)

(** C4, as the code has it: below zero the coefficient generator raises
    nothing; [range(l + 1)] is empty and the table returned has no entry. *)
Theorem poly_legendre_negative (l : Z) :
  (l < 0)%Z ->
  poly_legendre l = Ok []
  /\ forall e : PyError, poly_legendre l <> Raise e.
Proof.
  intros Hl. unfold poly_legendre.
  replace (Z.to_nat (l + 1)) with 0%nat by lia.
  split; [reflexivity | intros e H; discriminate H].
Qed.

Lemma poly_legendre_negative_witness :
  (-3 < 0)%Z
  /\ poly_legendre (-3) = Ok []
  /\ forall e : PyError, poly_legendre (-3) <> Raise e.
Proof.
  split; [lia | apply (poly_legendre_negative (-3)); lia].
Defined.

(** C4 as stated fails at [l = -1]: the call returns, and what it returns is
    not an exception. *)
Lemma poly_legendre_minus_one_returns :
  poly_legendre (-1) = Ok []
  /\ (forall e : PyError, poly_legendre (-1) <> Raise e).
Proof.
  split; [reflexivity | intros e H; discriminate H].
Qed.

(* ------------------------------------------------------------------ *)
(** ** The derived [y] *)

Lemma default_y_Fin (z : R) :
  default_y (Fin z) = Fin (sqrt (Rmax (1 - z ^ 2) 0)).
Proof.
  unfold default_y. rewrite fpow_Fin. cbn [fsub frelu lift1 lift2 fsqrt].
  destruct (Rlt_dec (Rmax (1 - z ^ 2) 0) 0) as [Hneg | _].
  - exfalso. pose proof (Rmax_r (1 - z ^ 2) 0). lra.
  - reflexivity.
Qed.

(** C10: without an explicit [y], [legendre] uses
    [sqrt(max(1 - z^2, 0))]; for every real [z] the argument of the square
    root is not negative, and the value is a real number that is not
    negative. *)
Theorem legendre_default_y (ls : list nat) (z : R) :
  legendre ls (Fin z) None
  = legendre ls (Fin z) (Some (Fin (sqrt (Rmax (1 - z ^ 2) 0))))
  /\ default_y (Fin z) = Fin (sqrt (Rmax (1 - z ^ 2) 0))
  /\ frelu (fsub (Fin 1) (fpow (Fin z) 2)) = Fin (Rmax (1 - z ^ 2) 0)
  /\ (0 <= Rmax (1 - z ^ 2) 0)%R
  /\ (0 <= sqrt (Rmax (1 - z ^ 2) 0))%R.
Proof.
  repeat split.
  - unfold legendre. rewrite default_y_Fin. reflexivity.
  - apply default_y_Fin.
  - apply Rmax_r.
  - apply sqrt_pos.
Qed.

(** Outside [-1, 1] the clamp gives [y = 0]. *)
Example default_y_two : default_y (Fin 2) = Fin 0.
Proof.
  rewrite default_y_Fin.
  f_equal. replace (1 - 2 ^ 2)%R with (-3)%R by ring.
  rewrite Rmax_right by lra. apply sqrt_0.
Qed.

(* ------------------------------------------------------------------ *)
(** ** The alpha evaluator *)

Lemma length_spherical_harmonics_alpha (l : nat) (alpha : fval) :
  length (spherical_harmonics_alpha l alpha) = 2 * l + 1.
Proof.
  unfold spherical_harmonics_alpha, arange_up, arange_down.
  rewrite !length_app, !length_map, length_rev, length_seq. simpl. lia.
Qed.

(** C5: the alpha row has width [2 l + 1]; its middle entry is [1], the
    entry [m] places to the left of the middle is [sqrt 2 * sin (m alpha)]
    and the entry [m] places to the right is [sqrt 2 * cos (m alpha)], for
    every [m] from [1] to [l]. *)
Theorem spherical_harmonics_alpha_layout (l : nat) (alpha : fval) :
  length (spherical_harmonics_alpha l alpha) = 2 * l + 1
  /\ nth l (spherical_harmonics_alpha l alpha) NaN = Fin 1
  /\ forall m : nat,
      1 <= m <= l ->
      nth (l - m) (spherical_harmonics_alpha l alpha) NaN
      = fmul (Fin (sqrt 2)) (fsin (fmul (Fin (INR m)) alpha))
      /\ nth (l + m) (spherical_harmonics_alpha l alpha) NaN
         = fmul (Fin (sqrt 2)) (fcos (fmul (Fin (INR m)) alpha)).
Proof.
  split; [apply length_spherical_harmonics_alpha |].
  unfold spherical_harmonics_alpha, arange_up, arange_down.
  set (s := fun m0 : R => fsin (fmul (Fin m0) alpha)).
  set (c := fun m0 : R => fcos (fmul (Fin m0) alpha)).
  assert (Hlen : length (map (fmul (Fin (sqrt 2)))
                             (map s (map INR (rev (seq 1 l))))) = l).
  { rewrite !length_map, length_rev, length_seq. reflexivity. }
  split.
  - rewrite app_nth2 by lia. rewrite Hlen, Nat.sub_diag. reflexivity.
  - intros m Hm. split.
    + rewrite app_nth1 by lia.
      rewrite !map_map.
      rewrite nth_indep with (d' := fmul (Fin (sqrt 2)) (s (INR 0)))
        by (rewrite length_map, length_rev, length_seq; lia).
      rewrite (map_nth (fun x => fmul (Fin (sqrt 2)) (s (INR x)))).
      rewrite rev_nth by (rewrite length_seq; lia).
      rewrite length_seq, seq_nth by lia.
      replace (1 + (l - S (l - m))) with m by lia. reflexivity.
    + rewrite app_nth2 by lia. rewrite Hlen.
      replace (l + m - l) with (S (m - 1)) by lia. simpl nth.
      rewrite !map_map.
      rewrite nth_indep with (d' := fmul (Fin (sqrt 2)) (c (INR 0)))
        by (rewrite length_map, length_seq; lia).
      rewrite (map_nth (fun x => fmul (Fin (sqrt 2)) (c (INR x)))).
      rewrite seq_nth by lia.
      replace (1 + (m - 1)) with m by lia. reflexivity.
Qed.

(** The row of [l = 1] at a real angle. *)
Example spherical_harmonics_alpha_one (a : R) :
  spherical_harmonics_alpha 1 (Fin a)
  = [Fin (sqrt 2 * sin (1 * a)); Fin 1; Fin (sqrt 2 * cos (1 * a))].
Proof. reflexivity. Qed.

(* ------------------------------------------------------------------ *)
(** ** The sign vector of the accelerator path *)

Lemma sign_blocks_S (n : nat) :
  sign_blocks (S n) = sign_blocks n ++ repeat ((-1) ^ n)%R (2 * n + 1).
Proof.
  unfold sign_blocks. rewrite seq_S, flat_map_app. simpl.
  rewrite app_nil_r. reflexivity.
Qed.

Lemma length_sign_blocks (n : nat) : length (sign_blocks n) = n ^ 2.
Proof.
  induction n as [| n IH]; [reflexivity |].
  rewrite sign_blocks_S, length_app, repeat_length, IH.
  simpl. lia.
Qed.

Lemma pow_m1_even (k : nat) : ((-1) ^ (2 * k) = 1)%R.
Proof. rewrite pow_1_even. reflexivity. Qed.

Lemma pow_m1_odd (k : nat) : ((-1) ^ (2 * k + 1) = -1)%R.
Proof.
  replace (2 * k + 1) with (S (2 * k)) by lia. rewrite pow_1_odd. reflexivity.
Qed.

Lemma sign_blocks_pairs (k : nat) :
  flat_map (fun lh => repeat 1%R (4 * lh + 1) ++ repeat (-1)%R (4 * lh + 3))
           (seq 0 k)
  = sign_blocks (2 * k).
Proof.
  induction k as [| k IH]; [reflexivity |].
  rewrite seq_S, flat_map_app, IH. simpl flat_map. rewrite app_nil_r.
  replace (2 * S k) with (S (S (2 * k))) by lia.
  rewrite !sign_blocks_S, <- app_assoc.
  replace (S (2 * k)) with (2 * k + 1) by lia.
  rewrite pow_m1_even, pow_m1_odd.
  replace (2 * (2 * k) + 1) with (4 * k + 1) by lia.
  replace (2 * (2 * k + 1) + 1) with (4 * k + 3) by lia.
  reflexivity.
Qed.

Lemma mod2_even (n : nat) : (n mod 2 =? 0) = Nat.even n.
Proof.
  destruct (Nat.Even_or_Odd n) as [[k Hk] | [k Hk]]; subst n.
  - rewrite Nat.even_mul.
    replace ((2 * k) mod 2) with 0
      by (apply Nat.mod_unique with (q := k); lia).
    reflexivity.
  - rewrite Nat.even_add, Nat.even_mul.
    replace ((2 * k + 1) mod 2) with 1
      by (apply Nat.mod_unique with (q := k); lia).
    reflexivity.
Qed.

Lemma norm_coef_sign_blocks (lmax : nat) :
  norm_coef lmax = sign_blocks (lmax + 1).
Proof.
  unfold norm_coef. rewrite sign_blocks_pairs.
  destruct (Nat.Even_or_Odd lmax) as [[k Hk] | [k Hk]]; subst lmax.
  - replace ((2 * k + 1) / 2) with k
      by (apply Nat.div_unique with (r := 1); lia).
    replace ((2 * k) mod 2) with 0
      by (apply Nat.mod_unique with (q := k); lia).
    simpl Nat.eqb. cbv iota.
    replace (sign_blocks (2 * k + 1)) with (sign_blocks (S (2 * k)))
      by (f_equal; lia).
    rewrite sign_blocks_S, pow_m1_even.
    reflexivity.
  - replace ((2 * k + 1 + 1) / 2) with (k + 1)
      by (apply Nat.div_unique with (r := 0); lia).
    replace ((2 * k + 1) mod 2) with 1
      by (apply Nat.mod_unique with (q := k); lia).
    simpl Nat.eqb. cbv iota. rewrite app_nil_r.
    f_equal. lia.
Qed.

(** C8: the sign vector has [(lmax + 1)^2] entries; it is made of
    [(lmax + 1) / 2] pairs of runs, [4 k + 1] times [+1] then [4 k + 3]
    times [-1], closed by [2 lmax + 1] times [+1] when [lmax] is even; and
    every entry of the block of degree [l] (positions [l^2] to
    [(l + 1)^2 - 1]) is [(-1)^l].  No bound on [lmax] is needed. *)
Theorem norm_coef_runs (lmax : nat) :
  length (norm_coef lmax) = (lmax + 1) ^ 2
  /\ norm_coef lmax
     = flat_map (fun k => repeat 1%R (4 * k + 1) ++ repeat (-1)%R (4 * k + 3))
                (seq 0 ((lmax + 1) / 2))
       ++ (if Nat.even lmax then repeat 1%R (2 * lmax + 1) else [])
  /\ norm_coef lmax
     = flat_map (fun l => repeat ((-1) ^ l)%R (2 * l + 1)) (seq 0 (lmax + 1))
  /\ forall l i : nat,
      l <= lmax -> l ^ 2 <= i < (l + 1) ^ 2 ->
      nth i (norm_coef lmax) 0%R = ((-1) ^ l)%R.
Proof.
  split; [rewrite norm_coef_sign_blocks; apply length_sign_blocks |].
  split.
  { unfold norm_coef. rewrite mod2_even. reflexivity. }
  split; [apply norm_coef_sign_blocks |].
  intros l i Hl Hi. rewrite norm_coef_sign_blocks.
  replace (lmax + 1) with (S l + (lmax - l)) by lia.
  assert (Hsplit : forall a b,
             sign_blocks (a + b)
             = sign_blocks a
               ++ flat_map (fun l0 => repeat ((-1) ^ l0)%R (2 * l0 + 1))
                           (seq a b)).
  { intros a b. unfold sign_blocks. rewrite seq_app, flat_map_app.
    reflexivity. }
  rewrite Hsplit, app_nth1
    by (rewrite length_sign_blocks;
        replace (S l) with (l + 1) by lia; lia).
  rewrite sign_blocks_S, app_nth2 by (rewrite length_sign_blocks; lia).
  rewrite length_sign_blocks.
  apply nth_repeat_lt.
  simpl in Hi |- *. lia.
Qed.

(** The signs for [lmax = 2]: degrees 0, 1 and 2. *)
Example norm_coef_two :
  norm_coef 2 = [1; -1; -1; -1; 1; 1; 1; 1; 1]%R.
Proof. reflexivity. Qed.

(* ------------------------------------------------------------------ *)
(** ** Degrees of the symbolic polynomials *)

Module ZPolyFacts.
Import ZPoly.

Lemma length_padd (p q : list Z) :
  length (padd p q) = Nat.max (length p) (length q).
Proof.
  revert q. induction p as [| a p IH]; intros [| b q]; simpl; auto.
Qed.

Lemma length_pscale (c : Z) (p : list Z) : length (pscale c p) = length p.
Proof. apply length_map. Qed.

Lemma length_pmul (p q : list Z) :
  p <> [] -> q <> [] -> length (pmul p q) = length p + length q - 1.
Proof.
  intros Hp Hq. induction p as [| a p IH]; [congruence |].
  simpl pmul. rewrite length_padd, length_pscale. simpl length.
  destruct p as [| b p].
  - simpl. destruct q; [congruence | simpl; lia].
  - rewrite IH by discriminate. simpl length.
    destruct q; [congruence | simpl; lia].
Qed.

Lemma length_ppow_quadratic (l : nat) :
  length (ppow [(-1)%Z; 0%Z; 1%Z] l) = 2 * l + 1.
Proof.
  induction l as [| l IH]; [reflexivity |].
  cbn [ppow]. rewrite length_pmul.
  - rewrite IH. simpl. lia.
  - discriminate.
  - intros E. rewrite E in IH. simpl in IH. lia.
Qed.

Lemma length_pderiv_from (k : Z) (p : list Z) :
  length (pderiv_from k p) = length p.
Proof.
  revert k. induction p as [| c p IH]; intros k; simpl; [| rewrite IH];
    reflexivity.
Qed.

Lemma length_pderiv (p : list Z) : length (pderiv p) = length p - 1.
Proof.
  destruct p as [| c p]; simpl; [reflexivity |].
  rewrite length_pderiv_from. lia.
Qed.

Lemma length_diff (p : list Z) (n : nat) :
  length (diff p n) = length p - n.
Proof.
  unfold diff. induction n as [| n IH]; simpl; [lia |].
  rewrite length_pderiv, IH. lia.
Qed.

End ZPolyFacts.

Lemma as_dict_from_In (k : nat) (s : R) (ny : nat) (p : list Z)
      (e : nat * nat) (c : R) :
  In (e, c) (as_dict_from k s ny p) ->
  snd e = ny /\ k <= fst e < k + length p.
Proof.
  revert k. induction p as [| a p IH]; intros k H; simpl in H; [tauto |].
  destruct (Z.eqb a 0).
  - apply IH in H. simpl. lia.
  - destruct H as [H | H].
    + inversion H; subst. simpl. lia.
    + apply IH in H. simpl. lia.
Qed.

Lemma poly_legendre_table (l : nat) :
  poly_legendre (Z.of_nat l) = Ok (legendre_table l).
Proof.
  unfold poly_legendre, legendre_table.
  rewrite Nat2Z.id. replace (Z.to_nat (Z.of_nat l + 1)) with (l + 1) by lia.
  reflexivity.
Qed.

Lemma length_legendre_table (l : nat) : length (legendre_table l) = l + 1.
Proof. unfold legendre_table. rewrite length_map, length_seq. reflexivity. Qed.

(** Every term of the table of degree [l] has [z]-exponent at most [l - m]
    and [y]-exponent [m], for its order [m]. *)
Lemma legendre_table_terms (l m : nat) (poly : list Term) (t : Term) :
  nth_error (legendre_table l) m = Some poly -> In t poly ->
  m <= l /\ fst (snd t) <= l - m /\ snd (snd t) = m.
Proof.
  unfold legendre_table. intros Hnth Hin.
  rewrite nth_error_map, nth_error_seq in Hnth.
  destruct (Nat.ltb_spec m (l + 1)) as [Hm | Hm]; [| discriminate].
  simpl in Hnth. inversion Hnth; subst poly; clear Hnth.
  apply in_map_iff in Hin. destruct Hin as [[e c] [<- Hin]].
  unfold Poly_as_dict in Hin. apply as_dict_from_In in Hin.
  simpl in Hin. rewrite ZPolyFacts.length_diff in Hin.
  rewrite ZPolyFacts.length_ppow_quadratic in Hin.
  rewrite Zabs2Nat.id in Hin. simpl. lia.
Qed.

Lemma legendre_table_within (l n : nat) (poly : list Term) :
  l <= n -> In poly (legendre_table l) -> Forall (term_within n) poly.
Proof.
  intros Hl Hin. apply In_nth_error in Hin. destruct Hin as [m Hm].
  apply Forall_forall. intros t Ht.
  destruct (legendre_table_terms l m poly t Hm Ht) as (H1 & H2 & H3).
  unfold term_within. lia.
Qed.

(* ------------------------------------------------------------------ *)
(** ** The Legendre evaluator returns *)

Lemma py_max_ge (ls : list nat) (lmax l : nat) :
  py_max ls = Ok lmax -> In l ls -> l <= lmax.
Proof.
  destruct ls as [| a rest]; [discriminate |]. simpl.
  intros H. inversion H; subst lmax; clear H.
  assert (G : forall xs acc x, x <= acc \/ In x xs ->
                               x <= fold_left Nat.max xs acc).
  { induction xs as [| b xs IH]; intros acc x Hx; simpl.
    - destruct Hx as [Hx | []]. exact Hx.
    - apply IH. destruct Hx as [Hx | [-> | Hx]]; [left; lia | left; lia |].
      right. exact Hx. }
  intros [-> | Hin]; apply G; auto.
Qed.

Lemma py_max_Ok (ls : list nat) :
  ls <> [] -> exists lmax, py_max ls = Ok lmax.
Proof. destruct ls; [congruence | simpl; eauto]. Qed.

Section Eval.
Variables (z y : fval) (n : nat).

Let zs := map (fpow z) (seq 0 (n + 1)).
Let ys := map (fpow y) (seq 0 (n + 1)).

Lemma eval_terms_value (poly : list Term) (val : fval) :
  Forall (term_within n) poly ->
  eval_terms poly zs ys val
  = Ok (fold_left
          (fun acc t =>
             fadd acc (fmul (fmul (Fin (fst t)) (fpow z (fst (snd t))))
                            (fpow y (snd (snd t)))))
          poly val).
Proof.
  revert val. induction poly as [| [c [nz ny]] poly IH]; intros val H;
    [reflexivity |].
  inversion H as [| ? ? [Hz Hy] Hrest]; subst. simpl in Hz, Hy.
  simpl eval_terms. unfold zs, ys.
  rewrite !getitem_map_seq by lia. simpl bind.
  apply IH. assumption.
Qed.

Lemma eval_polys_loop_value (polys : list (list Term)) (m : nat)
      (p : list fval) :
  Forall (Forall (term_within n)) polys -> 0 < m ->
  eval_polys_loop polys m zs ys p
  = Ok (rev (map (poly_value z y) polys) ++ p
        ++ map (poly_value z y) polys).
Proof.
  revert m p. induction polys as [| poly polys IH]; intros m p H Hm.
  - simpl. rewrite app_nil_r. reflexivity.
  - inversion H; subst. simpl eval_polys_loop.
    unfold zs at 1. rewrite getitem_map_seq by lia. simpl bind.
    rewrite eval_terms_value by assumption. simpl bind.
    destruct (Nat.eqb_spec m 0); [lia |].
    rewrite IH by (auto; lia).
    simpl. unfold poly_value, zeros_like.
    rewrite <- !app_assoc. reflexivity.
Qed.

Lemma legendre_eval_polys_value (polys : list (list Term)) :
  Forall (Forall (term_within n)) polys -> polys <> [] ->
  _legendre_eval_polys polys zs ys = Ok (block_of z y polys).
Proof.
  intros H Hne. destruct polys as [| p0 rest]; [congruence |].
  inversion H; subst.
  unfold _legendre_eval_polys. simpl eval_polys_loop.
  unfold zs at 1. rewrite getitem_map_seq by lia. simpl bind.
  rewrite eval_terms_value by assumption. simpl bind.
  rewrite eval_polys_loop_value by (auto; lia). simpl bind.
  unfold block_of, poly_value, zeros_like.
  destruct (rev _ ++ _) eqn:E; [| reflexivity].
  apply (f_equal (@length fval)) in E.
  rewrite length_app in E. simpl in E. lia.
Qed.

Lemma legendre_loop_value (ls : list nat) (ps : list (list fval)) :
  Forall (fun l => l <= n) ls ->
  legendre_loop ls zs ys ps
  = Ok (ps ++ map (fun l => block_of z y (legendre_table l)) ls).
Proof.
  revert ps. induction ls as [| l ls IH]; intros ps H.
  - simpl. rewrite app_nil_r. reflexivity.
  - inversion H; subst. cbn [legendre_loop].
    rewrite poly_legendre_table. simpl bind.
    rewrite legendre_eval_polys_value.
    + simpl bind. rewrite IH by assumption.
      rewrite <- app_assoc. reflexivity.
    + apply Forall_forall. intros poly Hin.
      apply legendre_table_within with (l := l); assumption.
    + intros E. apply (f_equal (@length _)) in E.
      rewrite length_legendre_table in E. simpl in E. lia.
Qed.
End Eval.

(** [legendre] on a non-empty degree set returns the blocks of the degrees
    in the order of [ls]. *)
Lemma legendre_value (ls : list nat) (z y : fval) :
  ls <> [] ->
  legendre ls z (Some y)
  = Ok (concat (map (fun l => block_of z y (legendre_table l)) ls)).
Proof.
  intros Hne. unfold legendre.
  destruct (py_max_Ok ls Hne) as [lmax Hmax]. rewrite Hmax. simpl bind.
  rewrite legendre_loop_value.
  - simpl. destruct ls; [congruence | reflexivity].
  - apply Forall_forall. intros l Hl. eapply py_max_ge; eauto.
Qed.

Lemma length_block_of (z y : fval) (l : nat) :
  length (block_of z y (legendre_table l)) = 2 * l + 1.
Proof.
  pose proof (length_legendre_table l) as H.
  destruct (legendre_table l) as [| p0 rest]; simpl in H; [lia |].
  unfold block_of. rewrite !length_app, length_rev, !length_map. simpl. lia.
Qed.

(* ------------------------------------------------------------------ *)
(** ** Layout of the Legendre blocks *)

Lemma block_of_nth (z y : fval) (polys : list (list Term)) (l m : nat) :
  length polys = l + 1 -> m <= l ->
  nth (l - m) (block_of z y polys) NaN = poly_value z y (nth m polys [])
  /\ nth (l + m) (block_of z y polys) NaN = poly_value z y (nth m polys []).
Proof.
  intros Hlen Hm. destruct polys as [| p0 rest]; simpl in Hlen; [lia |].
  assert (Hrest : length rest = l) by lia.
  unfold block_of.
  set (v := poly_value z y).
  assert (Hr : length (rev (map v rest)) = l)
    by (rewrite length_rev, length_map; exact Hrest).
  destruct m as [| m].
  - rewrite Nat.sub_0_r, Nat.add_0_r.
    rewrite app_nth2 by lia. rewrite Hr, Nat.sub_diag. auto.
  - split.
    + rewrite app_nth1 by lia.
      rewrite rev_nth by (rewrite length_map; lia).
      rewrite length_map, Hrest.
      replace (l - S (l - S m)) with m by lia.
      rewrite nth_indep with (d' := v []) by (rewrite length_map; lia).
      rewrite map_nth. reflexivity.
    + rewrite app_nth2 by lia. rewrite Hr.
      replace (l + S m - l) with (S m) by lia. simpl nth.
      rewrite nth_indep with (d' := v []) by (rewrite length_map; lia).
      rewrite map_nth. reflexivity.
Qed.

Lemma flat_width_app (a b : list nat) :
  flat_width (a ++ b) = flat_width a + flat_width b.
Proof.
  induction a as [| l a IH]; [reflexivity |].
  change (2 * l + 1 + flat_width (a ++ b)
          = 2 * l + 1 + flat_width a + flat_width b).
  rewrite IH. lia.
Qed.

Lemma length_concat_blocks (z y : fval) (ls : list nat) :
  length (concat (map (fun l => block_of z y (legendre_table l)) ls))
  = flat_width ls.
Proof.
  induction ls as [| l ls IH]; [reflexivity |].
  simpl. rewrite length_app, length_block_of, IH. lia.
Qed.

Lemma nth_concat_blocks (z y : fval) (pre post : list nat) (l i : nat) :
  i < 2 * l + 1 ->
  nth (flat_width pre + i)
      (concat (map (fun l0 => block_of z y (legendre_table l0))
                   (pre ++ l :: post))) NaN
  = nth i (block_of z y (legendre_table l)) NaN.
Proof.
  intros Hi. rewrite map_app, concat_app. simpl.
  rewrite app_nth2 by (rewrite length_concat_blocks; lia).
  rewrite length_concat_blocks.
  replace (flat_width pre + i - flat_width pre) with i by lia.
  apply app_nth1. rewrite length_block_of. exact Hi.
Qed.

(** C6: in the output of [legendre], the block of a degree [l] starts
    after the blocks of the degrees before it, is [2 l + 1] wide, and for
    every order [m <= l] holds the value of the polynomial of order [m] at
    both positions [l - m] and [l + m]: orders ascend from [-l] to [l] and a
    negative order repeats the value of the positive one. *)
Theorem legendre_block_mirror (pre post : list nat) (l : nat) (z y : fval) :
  exists (polys : list (list Term)) (out : list fval),
    poly_legendre (Z.of_nat l) = Ok polys
    /\ legendre (pre ++ l :: post) z (Some y) = Ok out
    /\ length out
       = flat_width pre + (2 * l + 1) + flat_width post
    /\ forall m : nat,
        m <= l ->
        nth (flat_width pre + (l - m)) out NaN
        = poly_value z y (nth m polys [])
        /\ nth (flat_width pre + (l + m)) out NaN
           = nth (flat_width pre + (l - m)) out NaN.
Proof.
  exists (legendre_table l).
  eexists. split; [apply poly_legendre_table |].
  split; [apply legendre_value; destruct pre; discriminate |].
  split.
  - rewrite length_concat_blocks, flat_width_app. simpl. lia.
  - intros m Hm.
    rewrite !nth_concat_blocks by lia.
    destruct (block_of_nth z y (legendre_table l) l m
                (length_legendre_table l) Hm) as [H1 H2].
    rewrite H1, H2. split; reflexivity.
Qed.

(* ------------------------------------------------------------------ *)
(** ** No polynomial of a table is empty

    The leading coefficient of [(z^2 - 1)^l] is [1], and a derivative
    multiplies the leading coefficient by a positive integer. *)

Module LeadingCoefficient.
Import ZPoly ZPolyFacts.

Lemma last_cons_nonempty (a : Z) (p : list Z) :
  p <> [] -> last (a :: p) 0%Z = last p 0%Z.
Proof. destruct p; [congruence | reflexivity]. Qed.

Lemma last_padd_longer (p q : list Z) :
  length p < length q -> last (padd p q) 0%Z = last q 0%Z.
Proof.
  revert q. induction p as [| a p IH]; intros q H; [reflexivity |].
  destruct q as [| b q]; simpl in H; [lia |].
  destruct q as [| b' q]; simpl in H; [lia |].
  destruct p as [| a' p].
  - reflexivity.
  - change (last ((a + b)%Z :: padd (a' :: p) (b' :: q)) 0%Z
            = last (b :: b' :: q) 0%Z).
    rewrite !last_cons_nonempty by (simpl; discriminate).
    apply IH. simpl in H |- *. lia.
Qed.

Lemma last_pscale (c : Z) (p : list Z) :
  last (pscale c p) 0%Z = (c * last p 0)%Z.
Proof.
  induction p as [| a p IH]; simpl; [lia |].
  destruct p as [| b p]; [reflexivity |]. exact IH.
Qed.

Lemma pmul_nonempty (p q : list Z) : p <> [] -> q <> [] -> pmul p q <> [].
Proof.
  intros Hp Hq E. apply (f_equal (@length Z)) in E.
  rewrite length_pmul in E by assumption.
  destruct p; [congruence |]. destruct q; [congruence |].
  simpl in E. lia.
Qed.

Lemma last_pmul (p q : list Z) :
  p <> [] -> q <> [] ->
  last (pmul p q) 0%Z = (last p 0 * last q 0)%Z.
Proof.
  intros Hp Hq. induction p as [| a p IH]; [congruence |].
  destruct p as [| b p].
  - simpl pmul. destruct q as [| c q]; [congruence |].
    simpl. destruct q as [| c' q].
    + simpl. lia.
    + change (last ((a * c + 0)%Z :: pscale a (c' :: q)) 0%Z
              = (a * last (c' :: q) 0)%Z).
      rewrite last_cons_nonempty by (simpl; discriminate).
      apply last_pscale.
  - change (pmul (a :: b :: p) q)
      with (padd (pscale a q) (0%Z :: pmul (b :: p) q)).
    rewrite last_padd_longer.
    + rewrite last_cons_nonempty
        by (apply pmul_nonempty; [discriminate | assumption]).
      rewrite IH by discriminate. reflexivity.
    + rewrite length_pscale. cbn [length].
      rewrite length_pmul by (discriminate || assumption).
      simpl. destruct q; [congruence | simpl; lia].
Qed.

Lemma ppow_quadratic_nonempty (l : nat) : ppow [(-1)%Z; 0%Z; 1%Z] l <> [].
Proof.
  intros E. apply (f_equal (@length Z)) in E.
  rewrite length_ppow_quadratic in E. simpl in E. lia.
Qed.

Lemma last_ppow_quadratic (l : nat) :
  last (ppow [(-1)%Z; 0%Z; 1%Z] l) 0%Z = 1%Z.
Proof.
  induction l as [| l IH]; [reflexivity |].
  cbn [ppow]. rewrite last_pmul.
  - rewrite IH. reflexivity.
  - discriminate.
  - apply ppow_quadratic_nonempty.
Qed.

Lemma last_pderiv_from (k : Z) (p : list Z) :
  (0 < k)%Z -> (0 < last p 0)%Z -> (0 < last (pderiv_from k p) 0)%Z.
Proof.
  revert k. induction p as [| c p IH]; intros k Hk Hp; [simpl in Hp; lia |].
  destruct p as [| c' p].
  - simpl in *. lia.
  - change (0 < last (pderiv_from (k + 1) (c' :: p)) 0)%Z.
    apply IH; [lia | exact Hp].
Qed.

Lemma last_pderiv (p : list Z) :
  2 <= length p -> (0 < last p 0)%Z -> (0 < last (pderiv p) 0)%Z.
Proof.
  intros Hlen Hp. destruct p as [| c p]; simpl in Hlen; [lia |].
  destruct p as [| c' p]; simpl in Hlen; [lia |].
  unfold pderiv. apply last_pderiv_from; [lia | exact Hp].
Qed.

Lemma last_diff (p : list Z) (n : nat) :
  n < length p -> (0 < last p 0)%Z -> (0 < last (diff p n) 0)%Z.
Proof.
  intros Hn Hp. unfold diff. induction n as [| n IH]; [exact Hp |].
  simpl. apply last_pderiv.
  - pose proof (length_diff p n) as E. unfold diff in E. rewrite E. lia.
  - apply IH. lia.
Qed.

End LeadingCoefficient.

Lemma as_dict_from_nonempty (k : nat) (s : R) (ny : nat) (p : list Z) :
  last p 0%Z <> 0%Z -> as_dict_from k s ny p <> [].
Proof.
  revert k. induction p as [| c p IH]; intros k H; [simpl in H; lia |].
  simpl. destruct (Z.eqb_spec c 0) as [-> | Hc]; [| discriminate].
  apply IH. destruct p; [simpl in H; lia | exact H].
Qed.

Lemma legendre_table_nonempty (l : nat) (poly : list Term) :
  In poly (legendre_table l) -> poly <> [].
Proof.
  unfold legendre_table. intros Hin.
  apply in_map_iff in Hin. destruct Hin as [m [<- Hm]].
  apply in_seq in Hm.
  intros E. apply map_eq_nil in E. revert E.
  unfold Poly_as_dict. apply as_dict_from_nonempty. simpl.
  rewrite Zabs2Nat.id.
  assert (0 < last (ZPoly.diff (ZPoly.ppow [(-1)%Z; 0%Z; 1%Z] l) (l + m)) 0)%Z;
    [| lia].
  apply LeadingCoefficient.last_diff.
  - rewrite ZPolyFacts.length_ppow_quadratic. lia.
  - rewrite LeadingCoefficient.last_ppow_quadratic. lia.
Qed.

(* ------------------------------------------------------------------ *)
(** ** The combiner returns *)

Lemma slice_bound_nat (n a : nat) : a <= n -> slice_bound n (Z.of_nat a) = a.
Proof.
  intros H. unfold slice_bound.
  destruct (Z.ltb_spec (Z.of_nat a) 0); lia.
Qed.

Lemma pyslice_nat {A} (xs : list A) (a b : nat) :
  a <= b <= length xs ->
  pyslice xs (Z.of_nat a) (Z.of_nat b) = firstn (b - a) (skipn a xs).
Proof.
  intros H. unfold pyslice. rewrite !slice_bound_nat by lia. reflexivity.
Qed.

Lemma tmul_same_length (a b : list fval) :
  length a = length b -> tmul a b = Ok (zip_mul a b).
Proof.
  intros H. unfold tmul. rewrite H, Nat.eqb_refl. reflexivity.
Qed.

Lemma length_zip_mul (a b : list fval) :
  length (zip_mul a b) = Nat.min (length a) (length b).
Proof. unfold zip_mul. rewrite length_map, length_combine. reflexivity. Qed.

Section Combiner.
Variables (lmax : nat) (x_m : list fval) (B : nat -> list fval).
Hypothesis x_m_width : length x_m = 2 * lmax + 1.
Hypothesis B_width : forall l, length (B l) = 2 * l + 1.

Lemma mul_m_lm_loop_value (ls : list nat) (pre : list fval)
      (out : list (list fval)) :
  Forall (fun l => l <= lmax) ls ->
  mul_m_lm_loop ls lmax x_m (pre ++ concat (map B ls)) (length pre) out
  = Ok (out ++ map (fun l => zip_mul (B l)
                                     (firstn (2 * l + 1)
                                             (skipn (lmax - l) x_m))) ls).
Proof.
  revert pre out. induction ls as [| l ls IH]; intros pre out H.
  - simpl. rewrite app_nil_r. reflexivity.
  - inversion H as [| ? ? Hl Hls]; subst.
    cbn [mul_m_lm_loop map concat].
    replace (Z.of_nat lmax - Z.of_nat l)%Z with (Z.of_nat (lmax - l))
      by lia.
    replace (Z.of_nat lmax + Z.of_nat l + 1)%Z
      with (Z.of_nat (lmax + l + 1)) by lia.
    rewrite !pyslice_nat
      by (rewrite ?length_app, ?B_width, ?x_m_width; lia).
    rewrite skipn_app, Nat.sub_diag, skipn_all. simpl app. simpl skipn.
    replace (length pre + 2 * l + 1 - length pre) with (2 * l + 1) by lia.
    rewrite firstn_app, B_width, Nat.sub_diag, firstn_O, app_nil_r.
    rewrite firstn_all2 by (rewrite B_width; lia).
    replace (lmax + l + 1 - (lmax - l)) with (2 * l + 1) by lia.
    rewrite tmul_same_length
      by (rewrite B_width, length_firstn, length_skipn, x_m_width; lia).
    cbn [bind].
    replace (length pre + 2 * l + 1) with (length (pre ++ B l))
      by (rewrite length_app, B_width; lia).
    rewrite app_assoc, IH by assumption.
    rewrite <- app_assoc. reflexivity.
Qed.

Lemma mul_m_lm_value (ls : list nat) :
  ls <> [] -> Forall (fun l => l <= lmax) ls ->
  mul_m_lm ls x_m (concat (map B ls)) = Ok (combined ls lmax x_m B).
Proof.
  intros Hne H. unfold mul_m_lm.
  replace (length x_m / 2) with lmax
    by (rewrite x_m_width; apply Nat.div_unique with (r := 1); lia).
  pose proof (mul_m_lm_loop_value ls [] [] H) as E. simpl in E.
  rewrite E. cbn [bind]. destruct ls; [congruence | reflexivity].
Qed.

Lemma length_combined (ls : list nat) :
  Forall (fun l => l <= lmax) ls ->
  length (combined ls lmax x_m B) = flat_width ls.
Proof.
  unfold combined. induction ls as [| l ls IH]; intros H; [reflexivity |].
  inversion H; subst. cbn [map concat].
  rewrite length_app, IH by assumption.
  rewrite length_zip_mul, B_width, length_firstn, length_skipn, x_m_width.
  change (flat_width (l :: ls)) with (2 * l + 1 + flat_width ls). lia.
Qed.
End Combiner.

(** The generic CPU path on a non-empty degree set. *)
Lemma spherical_harmonics_alpha_z_y_cpu_value (ls : list nat) (lmax : nat)
      (alpha z y : fval) :
  py_max ls = Ok lmax ->
  spherical_harmonics_alpha_z_y_cpu ls alpha z y
  = Ok (combined ls lmax (spherical_harmonics_alpha lmax alpha)
                 (fun l => block_of z y (legendre_table l))).
Proof.
  intros Hmax. unfold spherical_harmonics_alpha_z_y_cpu, spherical_harmonics_beta.
  rewrite Hmax. cbn [bind].
  assert (Hne : ls <> []) by (intros ->; discriminate).
  rewrite legendre_value by assumption. cbn [bind].
  apply mul_m_lm_value.
  - apply length_spherical_harmonics_alpha.
  - intros l. apply length_block_of.
  - assumption.
  - apply Forall_forall. intros l Hl. eapply py_max_ge; eauto.
Qed.

(* ------------------------------------------------------------------ *)
(** ** The generated kernel *)

Module JitFacts.
Import Jit.

Lemma format_terms (p : list Term) :
  map (fun t : Term => (format_25f (fst t), snd t)) p = p.
Proof.
  induction p as [| [c e] p IH]; [reflexivity |].
  simpl. rewrite IH. reflexivity.
Qed.

Lemma eval_formula_poly_value (z y : fval) (f : Formula) :
  eval_formula z y f = poly_value z y f.
Proof.
  destruct f as [| t ts]; [reflexivity |].
  unfold eval_formula, poly_value, eval_monomial. cbn [fold_left].
  rewrite fadd_zero_l. reflexivity.
Qed.

Lemma var_eqb_eq (a b : Var) : var_eqb a b = true <-> a = b.
Proof.
  destruct a as [a1 a2], b as [b1 b2]. unfold var_eqb. simpl.
  rewrite andb_true_iff, !Nat.eqb_eq. split.
  - intros [-> ->]. reflexivity.
  - intros E. inversion E. auto.
Qed.

Lemma exec_assigns_rev (stmts : list (Var * Formula)) (z y : fval)
      (env : list (Var * fval)) :
  exec_assigns stmts z y env
  = rev (map (fun s => (fst s, eval_formula z y (snd s))) stmts) ++ env.
Proof.
  revert env. induction stmts as [| [v f] stmts IH]; intros env;
    [reflexivity |].
  simpl. rewrite IH, <- app_assoc. reflexivity.
Qed.

(** A variable bound in an environment whose bindings all agree with [F]
    has the value [F] gives it, whichever binding is found. *)
Lemma lookup_consistent (env : list (Var * fval)) (F : Var -> fval)
      (v : Var) :
  Forall (fun b => snd b = F (fst b)) env ->
  In v (map fst env) ->
  lookup env v = Ok (F v).
Proof.
  induction env as [| [v' x] env IH]; intros Hall Hin; [destruct Hin |].
  inversion Hall as [| ? ? Hx Hrest]; subst. simpl in Hx. simpl.
  destruct (var_eqb v v') eqn:E.
  - apply var_eqb_eq in E. subst. reflexivity.
  - apply IH; [assumption |].
    destruct Hin as [Hin | Hin]; [| assumption].
    simpl in Hin. subst. exfalso.
    assert (var_eqb v v = true) by (apply var_eqb_eq; reflexivity).
    congruence.
Qed.

Lemma lookup_all_consistent (env : list (Var * fval)) (F : Var -> fval)
      (vs : list Var) :
  Forall (fun b => snd b = F (fst b)) env ->
  Forall (fun v => In v (map fst env)) vs ->
  lookup_all env vs = Ok (map F vs).
Proof.
  intros Henv. induction vs as [| v vs IH]; intros H; [reflexivity |].
  inversion H; subst. simpl.
  rewrite (lookup_consistent env F v) by assumption. cbn [bind].
  rewrite IH by assumption. reflexivity.
Qed.

Lemma gen_assigns_In (l m0 : nat) (polys : list (list Term))
      (s : Var * Formula) :
  In s (gen_assigns l m0 polys) ->
  exists i, i < length polys
            /\ fst s = (l, m0 + i) /\ snd s = nth i polys [].
Proof.
  revert m0. induction polys as [| p polys IH]; intros m0 H; [destruct H |].
  simpl in H. destruct H as [<- | H].
  - exists 0. simpl. rewrite format_terms, Nat.add_0_r.
    repeat split. lia.
  - apply IH in H. destruct H as (i & Hi & Hf & Hs).
    exists (S i). simpl. rewrite Hf, Hs. repeat split; [lia | f_equal; lia].
Qed.

Lemma gen_assigns_bound (l m0 i : nat) (polys : list (list Term)) :
  i < length polys -> In (l, m0 + i) (map fst (gen_assigns l m0 polys)).
Proof.
  revert m0 i. induction polys as [| p polys IH]; intros m0 i H;
    simpl in H; [lia |].
  simpl. destruct i as [| i].
  - left. f_equal. lia.
  - right. replace (m0 + S i) with (S m0 + i) by lia. apply IH. lia.
Qed.

(** The two texts accumulated over [ls]. *)
Lemma gen_loop_value (ls : list nat) (a : list (Var * Formula))
      (b : list Var) :
  gen_loop ls a b
  = Ok (a ++ flat_map (fun l => gen_assigns l 0 (legendre_table l)) ls,
        b ++ flat_map (fun l => map (fun m => (l, Z.abs_nat m))
                                    (range_sym l)) ls).
Proof.
  revert a b. induction ls as [| l ls IH]; intros a b.
  - simpl. rewrite !app_nil_r. reflexivity.
  - cbn [gen_loop]. rewrite poly_legendre_table. cbn [bind].
    rewrite IH. simpl flat_map. rewrite <- !app_assoc. reflexivity.
Qed.

Section Kernel.
Variables (ls : list nat) (z y : fval).

Let stmts := flat_map (fun l => gen_assigns l 0 (legendre_table l)) ls.
Let vars :=
  flat_map (fun l => map (fun m => (l, Z.abs_nat m)) (range_sym l)) ls.

Lemma stmts_In (s : Var * Formula) :
  In s stmts ->
  exists l m, In l ls /\ m <= l
              /\ fst s = (l, m) /\ snd s = nth m (legendre_table l) [].
Proof.
  unfold stmts. intros H. apply in_flat_map in H.
  destruct H as (l & Hl & H). apply gen_assigns_In in H.
  destruct H as (i & Hi & Hf & Hs).
  rewrite length_legendre_table in Hi.
  exists l, i. repeat split; auto. lia.
Qed.

Lemma stmts_no_empty_formula : existsb empty_formula stmts = false.
Proof.
  apply not_true_is_false. intros H. apply existsb_exists in H.
  destruct H as (s & Hin & He).
  apply stmts_In in Hin. destruct Hin as (l & m & Hl & Hm & _ & Hs).
  unfold empty_formula in He. rewrite Hs in He.
  assert (Hnth : In (nth m (legendre_table l) []) (legendre_table l)).
  { apply nth_In. rewrite length_legendre_table. lia. }
  apply legendre_table_nonempty in Hnth.
  destruct (nth m (legendre_table l) []); [congruence | discriminate].
Qed.

Lemma env_consistent :
  Forall (fun b => snd b = order_value z y (fst b))
         (exec_assigns stmts z y []).
Proof.
  rewrite exec_assigns_rev, app_nil_r.
  apply Forall_rev, Forall_map, Forall_forall. intros s Hs. simpl.
  apply stmts_In in Hs. destruct Hs as (l & m & _ & _ & Hf & Hs).
  rewrite eval_formula_poly_value, Hs, Hf. reflexivity.
Qed.

Lemma vars_bound :
  Forall (fun v => In v (map fst (exec_assigns stmts z y []))) vars.
Proof.
  apply Forall_forall. intros v Hv. unfold vars in Hv.
  apply in_flat_map in Hv. destruct Hv as (l & Hl & Hv).
  apply in_map_iff in Hv. destruct Hv as (m & <- & Hm).
  unfold range_sym in Hm. apply in_map_iff in Hm.
  destruct Hm as (k & <- & Hk). apply in_seq in Hk.
  rewrite exec_assigns_rev, app_nil_r, map_rev, map_map. simpl.
  apply -> in_rev. unfold stmts. rewrite flat_map_concat_map, concat_map.
  apply in_concat. eexists. split.
  - apply in_map_iff. eexists. split; [reflexivity |].
    apply in_map_iff. exists l. split; [reflexivity | exact Hl].
  - apply (gen_assigns_bound l 0 (Z.abs_nat (Z.of_nat k - Z.of_nat l))
                             (legendre_table l)).
    rewrite length_legendre_table, Zabs2Nat.abs_nat_spec. lia.
Qed.

(** The arguments of [torch.stack] for one degree are its block. *)
Lemma range_sym_block (l : nat) :
  map (order_value z y) (map (fun m => (l, Z.abs_nat m)) (range_sym l))
  = block_of z y (legendre_table l).
Proof.
  apply nth_ext with (d := NaN) (d' := NaN).
  - rewrite !length_map, length_block_of. unfold range_sym.
    rewrite length_map, length_seq. reflexivity.
  - intros i Hi. unfold range_sym in Hi |- *.
    rewrite !length_map, length_seq in Hi.
    rewrite !map_map.
    rewrite nth_indep
      with (d' := order_value z y
                    (l, Z.abs_nat (Z.of_nat 0 - Z.of_nat l)))
      by (rewrite length_map, length_seq; exact Hi).
    rewrite (map_nth (fun k => order_value z y
                                 (l, Z.abs_nat (Z.of_nat k - Z.of_nat l)))).
    rewrite seq_nth by exact Hi. simpl plus.
    unfold order_value. simpl fst. simpl snd.
    destruct (Nat.le_gt_cases i l) as [Hle | Hgt].
    + replace (Z.abs_nat (Z.of_nat i - Z.of_nat l)) with (l - i)
        by (rewrite Zabs2Nat.abs_nat_spec; lia).
      destruct (block_of_nth z y (legendre_table l) l (l - i)
                  (length_legendre_table l) ltac:(lia)) as [H1 _].
      replace (l - (l - i)) with i in H1 by lia. symmetry. exact H1.
    + replace (Z.abs_nat (Z.of_nat i - Z.of_nat l)) with (i - l)
        by (rewrite Zabs2Nat.abs_nat_spec; lia).
      destruct (block_of_nth z y (legendre_table l) l (i - l)
                  (length_legendre_table l) ltac:(lia)) as [_ H2].
      replace (l + (i - l)) with i in H2 by lia. symmetry. exact H2.
Qed.

Lemma vars_values :
  map (order_value z y) vars
  = concat (map (fun l => block_of z y (legendre_table l)) ls).
Proof.
  unfold vars. generalize ls as ds.
  induction ds as [| l ds IH]; [reflexivity |].
  cbn [flat_map concat map]. rewrite map_app, range_sym_block.
  f_equal. exact IH.
Qed.
End Kernel.

End JitFacts.

(** The specialised kernel on a non-empty degree set. *)
Lemma spherical_harmonics_alpha_z_y_jit_value (ls : list nat) (lmax : nat)
      (alpha z y : fval) :
  py_max ls = Ok lmax ->
  spherical_harmonics_alpha_z_y_jit ls alpha z y
  = Ok (combined ls lmax (spherical_harmonics_alpha lmax alpha)
                 (fun l => block_of z y (legendre_table l))).
Proof.
  intros Hmax.
  assert (Hne : ls <> []) by (intros ->; discriminate).
  unfold spherical_harmonics_alpha_z_y_jit, _spherical_harmonics_alpha_z_y_jit,
    Jit.gen_source.
  rewrite JitFacts.gen_loop_value, Hmax. cbn [bind app fst snd].
  unfold Jit.eval_code. cbn [Jit.ll_m].
  rewrite JitFacts.stmts_no_empty_formula. cbn [bind].
  unfold Jit.main. cbn [Jit.ll_m Jit.shb Jit.lmax_lit Jit.ls_lit].
  rewrite (JitFacts.lookup_all_consistent _ (order_value z y))
    by (apply JitFacts.env_consistent || apply JitFacts.vars_bound).
  cbn [bind]. rewrite JitFacts.vars_values.
  assert (Hstack : forall p, p <> [] -> stack p = Ok p)
    by (intros [| ? ?]; [congruence | reflexivity]).
  rewrite Hstack.
  - cbn [bind]. apply mul_m_lm_value.
    + apply length_spherical_harmonics_alpha.
    + intros l. apply length_block_of.
    + assumption.
    + apply Forall_forall. intros l Hl. eapply py_max_ge; eauto.
  - intros E. apply (f_equal (@length fval)) in E.
    rewrite length_concat_blocks in E.
    destruct ls as [| l0 ls']; [congruence |].
    change (flat_width (l0 :: ls')) with (2 * l0 + 1 + flat_width ls') in E.
    simpl in E. lia.
Qed.

Lemma jit_eq_cpu (ls : list nat) (alpha z y : fval) :
  spherical_harmonics_alpha_z_y_jit ls alpha z y
  = spherical_harmonics_alpha_z_y_cpu ls alpha z y.
Proof.
  destruct ls as [| l ls'] eqn:E; [reflexivity |]. rewrite <- E.
  destruct (py_max_Ok ls ltac:(subst; discriminate)) as [lmax Hmax].
  rewrite (spherical_harmonics_alpha_z_y_jit_value ls lmax) by assumption.
  rewrite (spherical_harmonics_alpha_z_y_cpu_value ls lmax) by assumption.
  reflexivity.
Qed.

(* ------------------------------------------------------------------ *)
(** ** The kernel cache *)

Module KernelCacheFacts.
Import KernelCache.

Lemma key_eqb_eq (a b : list nat) : key_eqb a b = true -> a = b.
Proof.
  unfold key_eqb. destruct (list_eq_dec Nat.eq_dec a b); [auto | discriminate].
Qed.

Lemma find_sound (c : t) (ls : list nat) (f : Jit.Kernel) :
  cache_sound c -> find c ls = Some f ->
  _spherical_harmonics_alpha_z_y_jit ls = Ok f.
Proof.
  induction c as [| [k v] c IH]; intros Hc Hf; [discriminate |].
  inversion Hc as [| ? ? Hkv Hrest]; subst. simpl in Hf, Hkv.
  destruct (key_eqb ls k) eqn:E.
  - apply key_eqb_eq in E. inversion Hf; subst. exact Hkv.
  - apply IH; assumption.
Qed.

Lemma Forall_filter {A} (P : A -> Prop) (f : A -> bool) (xs : list A) :
  Forall P xs -> Forall P (filter f xs).
Proof.
  intros H. apply Forall_forall. intros x Hx.
  apply filter_In in Hx. destruct Hx as [Hx _].
  revert x Hx. apply Forall_forall. exact H.
Qed.

Lemma Forall_firstn_keep {A} (P : A -> Prop) (n : nat) (xs : list A) :
  Forall P xs -> Forall P (firstn n xs).
Proof.
  revert n. induction xs as [| x xs IH]; intros [| n] H; simpl; auto.
  inversion H; subst. constructor; auto.
Qed.

Lemma call_sound (c : t) (ls : list nat) :
  cache_sound c -> cache_sound (snd (call c ls)).
Proof.
  intros Hc. unfold call.
  destruct (find c ls) as [f |] eqn:Ef.
  - simpl. constructor.
    + simpl. eapply find_sound; eauto.
    + apply Forall_filter. exact Hc.
  - destruct (_spherical_harmonics_alpha_z_y_jit ls) as [f | e] eqn:Ej.
    + cbn [snd]. apply Forall_firstn_keep. constructor; [exact Ej | exact Hc].
    + exact Hc.
Qed.

Lemma reachable_sound (c : t) : reachable c -> cache_sound c.
Proof.
  induction 1 as [| c ls _ IH]; [constructor | apply call_sound; exact IH].
Qed.

(** A call through the cache returns what the function returns. *)
Lemma call_transparent (c : t) (ls : list nat) :
  cache_sound c -> fst (call c ls) = _spherical_harmonics_alpha_z_y_jit ls.
Proof.
  intros Hc. unfold call.
  destruct (find c ls) as [f |] eqn:Ef.
  - simpl. symmetry. eapply find_sound; eauto.
  - destruct (_spherical_harmonics_alpha_z_y_jit ls); reflexivity.
Qed.

End KernelCacheFacts.

(** On a non-empty degree set the specialised kernel returns a vector of
    width [sum (2 l + 1)]. *)
Lemma spherical_harmonics_alpha_z_y_jit_returns (ls : list nat)
      (alpha z y : fval) :
  ls <> [] ->
  exists out : list fval,
    spherical_harmonics_alpha_z_y_jit ls alpha z y = Ok out
    /\ length out = flat_width ls.
Proof.
  intros Hne. destruct (py_max_Ok ls Hne) as [lmax Hmax].
  eexists. split.
  - apply spherical_harmonics_alpha_z_y_jit_value. exact Hmax.
  - apply length_combined.
    + apply length_spherical_harmonics_alpha.
    + intros l. apply length_block_of.
    + apply Forall_forall. intros l Hl. eapply py_max_ge; eauto.
Qed.

(** C2: for every degree set and every input, the specialised kernel
    returns what the generic path returns (the composition of the alpha
    evaluator, the Legendre evaluator over the tables, and the combiner),
    an exception on the empty degree set included; the same holds when the
    kernel comes out of the cache, in any state the cache can reach; and on
    a non-empty degree set both return a vector of width
    [sum (2 l + 1)]. *)
Theorem jit_refines_cpu (ls : list nat) (alpha z y : fval) :
  spherical_harmonics_alpha_z_y_jit ls alpha z y
  = spherical_harmonics_alpha_z_y_cpu ls alpha z y
  /\ (forall c : KernelCache.t,
         KernelCache.reachable c ->
         fst (KernelCache.spherical_harmonics_alpha_z_y_jit_cached
                c ls alpha z y)
         = spherical_harmonics_alpha_z_y_cpu ls alpha z y)
  /\ (ls <> [] ->
      exists out : list fval,
        spherical_harmonics_alpha_z_y_cpu ls alpha z y = Ok out
        /\ length out = flat_width ls).
Proof.
  split; [apply jit_eq_cpu |]. split.
  - intros c Hc.
    unfold KernelCache.spherical_harmonics_alpha_z_y_jit_cached. cbn [fst].
    rewrite KernelCacheFacts.call_transparent
      by (apply KernelCacheFacts.reachable_sound; exact Hc).
    apply jit_eq_cpu.
  - intros Hne. rewrite <- jit_eq_cpu.
    apply spherical_harmonics_alpha_z_y_jit_returns. exact Hne.
Qed.

(** A second call with the same degrees is served from the cache. *)
Example cache_hit_after_miss (ls : list nat) (f : Jit.Kernel) :
  _spherical_harmonics_alpha_z_y_jit ls = Ok f ->
  KernelCache.find (snd (KernelCache.call [] ls)) ls = Some f.
Proof.
  intros H. unfold KernelCache.call. simpl KernelCache.find. rewrite H.
  simpl. unfold KernelCache.key_eqb.
  destruct (list_eq_dec Nat.eq_dec ls ls); [reflexivity | congruence].
Qed.

(* ------------------------------------------------------------------ *)
(** ** The Cartesian entry point *)

Lemma sum_squares_nonneg (x y z : R) : (0 <= x ^ 2 + y ^ 2 + z ^ 2)%R.
Proof. nra. Qed.

Lemma norm2_Fin (x y z : R) :
  norm2 (Fin x, Fin y, Fin z) = Fin (sqrt (x ^ 2 + y ^ 2 + z ^ 2)).
Proof.
  unfold norm2. rewrite !fpow_Fin. cbn [fadd lift2 fsqrt].
  destruct (Rlt_dec (x ^ 2 + y ^ 2 + z ^ 2) 0) as [H | _];
    [pose proof (sum_squares_nonneg x y z); lra | reflexivity].
Qed.

Lemma normalize_zero :
  normalize (Fin 0, Fin 0, Fin 0) = (NaN, NaN, NaN).
Proof.
  unfold normalize. rewrite norm2_Fin.
  replace (0 ^ 2 + 0 ^ 2 + 0 ^ 2)%R with 0%R by ring.
  rewrite sqrt_0. unfold fdiv.
  destruct (Req_EM_T 0 0) as [_ | H]; [reflexivity | congruence].
Qed.

Lemma normalize_Fin (x y z : R) :
  (x, y, z) <> (0, 0, 0)%R ->
  let n := sqrt (x ^ 2 + y ^ 2 + z ^ 2) in
  (0 < n)%R
  /\ normalize (Fin x, Fin y, Fin z) = (Fin (x / n), Fin (y / n), Fin (z / n)).
Proof.
  intros Hv n.
  assert (Hpos : (0 < x ^ 2 + y ^ 2 + z ^ 2)%R).
  { destruct (Req_dec x 0) as [Hx | Hx]; [| nra].
    destruct (Req_dec y 0) as [Hy | Hy]; [| nra].
    destruct (Req_dec z 0) as [Hz | Hz]; [| nra].
    subst. congruence. }
  assert (Hn : (0 < n)%R) by (apply sqrt_lt_R0; exact Hpos).
  split; [exact Hn |].
  unfold normalize. rewrite norm2_Fin. fold n. unfold fdiv.
  destruct (Req_EM_T n 0) as [E | _]; [lra | reflexivity].
Qed.

(** Scaling a non-zero vector by [c > 0] does not change its normalised
    form. *)
Lemma normalize_scale (c x y z : R) :
  (0 < c)%R -> (x, y, z) <> (0, 0, 0)%R ->
  normalize (Fin (c * x), Fin (c * y), Fin (c * z))
  = normalize (Fin x, Fin y, Fin z).
Proof.
  intros Hc Hv.
  destruct (normalize_Fin x y z Hv) as [Hn E]. rewrite E.
  assert (Hcv : (c * x, c * y, c * z)%R <> (0, 0, 0)%R).
  { intros H. inversion H as [[Hx Hy Hz]].
    apply Hv. f_equal; [f_equal |]; nra. }
  destruct (normalize_Fin _ _ _ Hcv) as [Hn' E']. rewrite E'.
  set (n := sqrt (x ^ 2 + y ^ 2 + z ^ 2)) in *.
  assert (Hs : sqrt ((c * x) ^ 2 + (c * y) ^ 2 + (c * z) ^ 2) = (c * n)%R).
  { replace ((c * x) ^ 2 + (c * y) ^ 2 + (c * z) ^ 2)%R
      with (c ^ 2 * (x ^ 2 + y ^ 2 + z ^ 2))%R by ring.
    rewrite sqrt_mult by (try apply sum_squares_nonneg; nra).
    rewrite sqrt_pow2 by lra. reflexivity. }
  rewrite Hs.
  assert (Hq : forall a : R, (c * a / (c * n) = a / n)%R)
    by (intros a; field; lra).
  rewrite !Hq. reflexivity.
Qed.


(** C3, as the code has it: on the zero vector the normalisation divides
    zero by zero, the three components become NaN, and the call returns a
    vector of the usual width instead of raising. *)
Theorem spherical_harmonics_xyz_cpu_zero (l : nat) (ls : list nat) :
  normalize (Fin 0, Fin 0, Fin 0) = (NaN, NaN, NaN)
  /\ exists out : list fval,
      spherical_harmonics_xyz_cpu (l :: ls) (Fin 0, Fin 0, Fin 0) = Ok out
      /\ spherical_harmonics_alpha_z_y_jit (l :: ls) NaN NaN NaN = Ok out
      /\ length out = flat_width (l :: ls).
Proof.
  split; [apply normalize_zero |].
  unfold spherical_harmonics_xyz_cpu. rewrite normalize_zero.
  cbn [fatan2 lift2 fpow lift1 fadd fsqrt].
  destruct (spherical_harmonics_alpha_z_y_jit_returns (l :: ls) NaN NaN NaN
              ltac:(discriminate)) as (out & Hout & Hlen).
  exists out. auto.
Qed.

Lemma legendre_table_one :
  legendre_table 1
  = [[((scal (sympy_legendre 1 0) * 2)%R, (1, 0))];
     [((scal (sympy_legendre 1 1) * 2)%R, (0, 1))]].
Proof. reflexivity. Qed.

(** C3 as stated fails at the zero vector with [ls = [1]]: the call returns
    three NaN and raises nothing. *)
Lemma zero_vector_returns_nan :
  spherical_harmonics_xyz_cpu [1] (Fin 0, Fin 0, Fin 0)
  = Ok [NaN; NaN; NaN].
Proof.
  unfold spherical_harmonics_xyz_cpu. rewrite normalize_zero.
  cbn [fatan2 lift2 fpow lift1 fadd fsqrt].
  rewrite (spherical_harmonics_alpha_z_y_jit_value [1] 1) by reflexivity.
  unfold combined. cbn [map concat]. rewrite legendre_table_one.
  reflexivity.
Qed.

(** With [ls = [0]] the zero vector even gives the finite constant of degree
    zero: [nan ** 0] is [1]. *)
Example zero_vector_degree_zero :
  spherical_harmonics_xyz_cpu [0] (Fin 0, Fin 0, Fin 0)
  = Ok [Fin (sqrt (1 / (4 * PI)))].
Proof.
  unfold spherical_harmonics_xyz_cpu. rewrite normalize_zero.
  cbn [fatan2 lift2 fpow lift1 fadd fsqrt].
  rewrite (spherical_harmonics_alpha_z_y_jit_value [0] 0) by reflexivity.
  unfold combined. cbn [map concat].
  change (legendre_table 0)
    with [[((scal (sympy_legendre 0 0) * 1)%R, (0, 0))]].
  cbn [block_of map rev app poly_value fold_left fst snd fpow fmul fadd lift2
       spherical_harmonics_alpha arange_up arange_down seq ones_like
       Nat.sub Nat.mul Nat.add skipn firstn zip_mul combine].
  cbn [scal sympy_legendre Z.abs_nat fact Nat.add Nat.sub Nat.mul INR pow].
  replace ((2 * 0 + 1) / (4 * PI) * 1 / 1)%R with (1 / (4 * PI))%R
    by (field; apply PI_neq0).
  repeat f_equal. field.
Qed.

(* ------------------------------------------------------------------ *)
(** ** Rodrigues' formula at [z = 1]

    [d^l/dz^l (z^2 - 1)^l] takes the value [2^l l!] at [1]. *)

Module Rodrigues.
Import ZPoly.
Local Open Scope Z_scope.

(** *** Coefficients *)

Lemma nth_padd (p q : list Z) (k : nat) :
  nth k (padd p q) 0 = nth k p 0 + nth k q 0.
Proof.
  revert q k. induction p as [| a p IH]; intros q k.
  - simpl. destruct k; reflexivity.
  - destruct q as [| b q].
    + simpl padd. destruct k; simpl; lia.
    + destruct k; simpl; [reflexivity | apply IH].
Qed.

Lemma nth_pscale (c : Z) (p : list Z) (k : nat) :
  nth k (pscale c p) 0 = c * nth k p 0.
Proof.
  revert k. induction p as [| a p IH]; intros k.
  - destruct k; simpl; lia.
  - destruct k; simpl; [reflexivity | apply IH].
Qed.

Lemma nth_pderiv_from (j : Z) (p : list Z) (k : nat) :
  nth k (pderiv_from j p) 0 = (j + Z.of_nat k) * nth k p 0.
Proof.
  revert j k. induction p as [| a p IH]; intros j k.
  - destruct k; simpl; lia.
  - destruct k.
    + simpl. lia.
    + cbn [pderiv_from nth]. rewrite IH. lia.
Qed.

Lemma nth_pderiv (p : list Z) (k : nat) :
  nth k (pderiv p) 0 = (Z.of_nat k + 1) * nth (S k) p 0.
Proof.
  destruct p as [| a p].
  - destruct k; simpl; lia.
  - cbn [pderiv nth]. rewrite nth_pderiv_from. lia.
Qed.

Lemma pderiv_peq (p q : list Z) : peq p q -> peq (pderiv p) (pderiv q).
Proof. intros H k. rewrite !nth_pderiv, H. reflexivity. Qed.

Lemma diff_peq (p q : list Z) (n : nat) :
  peq p q -> peq (diff p n) (diff q n).
Proof.
  intros H. unfold diff. induction n as [| n IH]; [exact H |].
  simpl. apply pderiv_peq. exact IH.
Qed.

Lemma diff_succ (p : list Z) (n : nat) :
  diff p (S n) = diff (pderiv p) n.
Proof. unfold diff. apply Nat.iter_succ_r. Qed.

(** *** Values *)

Lemma peval_zero_coefficients (p : list Z) (x : Z) :
  (forall k, nth k p 0 = 0) -> peval p x = 0.
Proof.
  induction p as [| a p IH]; intros H; [reflexivity |].
  simpl. rewrite IH.
  - specialize (H 0%nat). simpl in H. lia.
  - intros k. apply (H (S k)).
Qed.

Lemma peval_peq (p q : list Z) (x : Z) : peq p q -> peval p x = peval q x.
Proof.
  revert q. induction p as [| a p IH]; intros q H.
  - symmetry. apply peval_zero_coefficients.
    intros k. rewrite <- H. destruct k; reflexivity.
  - destruct q as [| b q].
    + apply peval_zero_coefficients.
      intros k. rewrite H. destruct k; reflexivity.
    + simpl. rewrite (IH q).
      * specialize (H 0%nat). simpl in H. lia.
      * intros k. apply (H (S k)).
Qed.

Lemma peval_padd (p q : list Z) (x : Z) :
  peval (padd p q) x = peval p x + peval q x.
Proof.
  revert q. induction p as [| a p IH]; intros q; [reflexivity |].
  destruct q as [| b q]; simpl; [lia |]. rewrite IH. lia.
Qed.

Lemma peval_pscale (c : Z) (p : list Z) (x : Z) :
  peval (pscale c p) x = c * peval p x.
Proof.
  induction p as [| a p IH]; [simpl; lia |].
  change (peval (pscale c (a :: p)) x)
    with (c * a + x * peval (pscale c p) x).
  rewrite IH. simpl. lia.
Qed.

Lemma peval_pmul (p q : list Z) (x : Z) :
  peval (pmul p q) x = peval p x * peval q x.
Proof.
  induction p as [| a p IH]; [reflexivity |].
  cbn [pmul]. rewrite peval_padd, peval_pscale. simpl. rewrite IH. lia.
Qed.

Lemma peval_ppow (p : list Z) (n : nat) (x : Z) :
  peval (ppow p n) x = peval p x ^ Z.of_nat n.
Proof.
  induction n as [| n IH].
  - cbn [ppow peval Z.of_nat]. rewrite Z.pow_0_r. lia.
  - cbn [ppow]. rewrite peval_pmul, IH, Nat2Z.inj_succ, Z.pow_succ_r by lia.
    reflexivity.
Qed.

(** A polynomial that vanishes at every large integer has no non-zero
    coefficient. *)
Lemma vanishing_coefficients (p : list Z) (N : Z) :
  (forall x, N < x -> peval p x = 0) -> forall k, nth k p 0 = 0.
Proof.
  revert N. induction p as [| a p IH]; intros N H k.
  - destruct k; reflexivity.
  - assert (Ha : a = 0).
    { set (x0 := Z.max N (Z.abs a) + 1).
      assert (Hx0 : Z.abs a < x0) by (unfold x0; lia).
      specialize (H x0 ltac:(unfold x0; lia)).
      cbn [peval] in H. revert H. generalize (peval p x0). intros v H.
      destruct (Z.eq_dec v 0) as [-> | Hv]; [lia |].
      assert (Hcase : 1 <= v \/ v <= -1) by lia.
      destruct Hcase; nia. }
    subst a. destruct k; [reflexivity |]. simpl.
    apply (IH (Z.max N 0)). intros x Hx.
    specialize (H x ltac:(lia)). cbn [peval] in H. nia.
Qed.

Lemma peq_of_values (p q : list Z) :
  (forall x, peval p x = peval q x) -> peq p q.
Proof.
  intros H k.
  pose proof (vanishing_coefficients (padd p (pscale (-1) q)) 0) as V.
  specialize (V ltac:(intros x _; rewrite peval_padd, peval_pscale, H; lia) k).
  rewrite nth_padd, nth_pscale in V. lia.
Qed.

(** *** The derivative of a product *)

Lemma peval_pderiv_cons (a : Z) (r : list Z) (x : Z) :
  peval (pderiv (a :: r)) x = peval r x + x * peval (pderiv r) x.
Proof.
  rewrite (peval_peq (pderiv (a :: r)) (padd r (0 :: pderiv r))).
  - rewrite peval_padd.
    change (peval (0 :: pderiv r) x) with (0 + x * peval (pderiv r) x). lia.
  - intros k. rewrite nth_padd, nth_pderiv. cbn [nth].
    destruct k as [| k]; [cbn [nth Z.of_nat]; lia |].
    cbn [nth]. rewrite nth_pderiv. lia.
Qed.

Lemma peval_pderiv_padd (p q : list Z) (x : Z) :
  peval (pderiv (padd p q)) x = peval (pderiv p) x + peval (pderiv q) x.
Proof.
  rewrite <- peval_padd. apply peval_peq. intros k.
  rewrite nth_padd, !nth_pderiv, nth_padd. lia.
Qed.

Lemma peval_pderiv_pscale (c : Z) (p : list Z) (x : Z) :
  peval (pderiv (pscale c p)) x = c * peval (pderiv p) x.
Proof.
  rewrite <- peval_pscale. apply peval_peq. intros k.
  rewrite nth_pscale, !nth_pderiv, nth_pscale. lia.
Qed.

Lemma peval_pderiv_pmul (p q : list Z) (x : Z) :
  peval (pderiv (pmul p q)) x
  = peval (pderiv p) x * peval q x + peval p x * peval (pderiv q) x.
Proof.
  induction p as [| a p IH]; [reflexivity |].
  cbn [pmul]. rewrite peval_pderiv_padd, peval_pderiv_pscale.
  rewrite !peval_pderiv_cons, IH, peval_pmul. cbn [peval]. lia.
Qed.

Lemma peval_pderiv_ppow (a : list Z) (n : nat) (x : Z) :
  peval (pderiv (ppow a (S n))) x
  = (Z.of_nat n + 1) * peval a x ^ Z.of_nat n * peval (pderiv a) x.
Proof.
  induction n as [| n IH].
  - cbn [ppow]. rewrite peval_pderiv_pmul.
    cbn [peval pderiv pderiv_from Z.of_nat]. rewrite Z.pow_0_r. ring.
  - change (ppow a (S (S n))) with (pmul a (ppow a (S n))).
    rewrite peval_pderiv_pmul, IH, peval_ppow.
    rewrite !Nat2Z.inj_succ, !Z.pow_succ_r by lia. ring.
Qed.

(** *** The [l]-th derivative of [(z - 1)^l q] at [1] *)

Lemma diff_linear_power (l : nat) (q : list Z) :
  peval (diff (pmul (ppow [-1; 1] l) q) l) 1
  = Z.of_nat (fact l) * peval q 1.
Proof.
  revert q. induction l as [| l IH]; intros q.
  - change (diff (pmul (ppow [-1; 1] 0) q) 0) with (pmul (ppow [-1; 1] 0) q).
    rewrite peval_pmul. cbn [ppow peval fact Z.of_nat]. lia.
  - rewrite diff_succ.
    set (q' := padd (pscale (Z.of_nat l + 1) q) (pmul [-1; 1] (pderiv q))).
    rewrite (peval_peq _ (diff (pmul (ppow [-1; 1] l) q') l)).
    + rewrite IH. unfold q'.
      rewrite peval_padd, peval_pscale, peval_pmul.
      change (fact (S l)) with (fact l + l * fact l)%nat.
      cbn [peval]. rewrite Nat2Z.inj_add, Nat2Z.inj_mul. ring.
    + apply diff_peq, peq_of_values. intros x.
      rewrite peval_pderiv_pmul, peval_pderiv_ppow, !peval_pmul, !peval_ppow.
      unfold q'. rewrite peval_padd, peval_pscale, peval_pmul.
      rewrite Nat2Z.inj_succ, Z.pow_succ_r by lia.
      cbn [peval pderiv pderiv_from]. ring.
Qed.

(** The value of Rodrigues' derivative at [1]. *)
Lemma rodrigues_at_one (l : nat) :
  peval (diff (ppow [-1; 0; 1] l) l) 1 = 2 ^ Z.of_nat l * Z.of_nat (fact l).
Proof.
  rewrite (peval_peq _ (diff (pmul (ppow [-1; 1] l) (ppow [1; 1] l)) l)).
  - rewrite diff_linear_power, peval_ppow. cbn [peval].
    replace (1 + 1 * (1 + 1 * 0)) with 2 by ring. ring.
  - apply diff_peq, peq_of_values. intros x.
    rewrite peval_pmul, !peval_ppow, <- Z.pow_mul_l. f_equal.
    cbn [peval]. ring.
Qed.

End Rodrigues.

(* ------------------------------------------------------------------ *)
(** ** The polar factor at the pole [z = 1], [y = 0] *)

Lemma fold_terms_at_pole (k : nat) (s : R) (m : nat) (p : list Z) (acc : R) :
  fold_left
    (fun a t =>
       fadd a (fmul (fmul (Fin (fst t)) (fpow (Fin 1) (fst (snd t))))
                    (fpow (Fin 0) (snd (snd t)))))
    (map (fun ec : (nat * nat) * R => (snd ec, fst ec))
         (as_dict_from k s m p))
    (Fin acc)
  = Fin (acc + s * IZR (ZPoly.peval p 1) * 0 ^ m).
Proof.
  revert k acc. induction p as [| c p IH]; intros k acc.
  - simpl. f_equal. ring.
  - cbn [as_dict_from].
    replace (ZPoly.peval (c :: p) 1) with (c + ZPoly.peval p 1)%Z
      by (cbn [ZPoly.peval]; lia).
    rewrite plus_IZR.
    destruct (Z.eqb_spec c 0) as [-> | Hc].
    + rewrite IH. f_equal. ring.
    + cbn [map fold_left fst snd]. rewrite !fpow_Fin.
      cbn [fmul fadd lift2]. rewrite IH, pow1. f_equal. ring.
Qed.

Lemma nth_legendre_table (l m : nat) :
  m <= l ->
  nth m (legendre_table l) []
  = map (fun ec : (nat * nat) * R => (snd ec, fst ec))
        (Poly_as_dict (sympy_legendre l (Z.of_nat m))).
Proof.
  intros Hm. unfold legendre_table.
  rewrite nth_indep
    with (d' := map (fun ec : (nat * nat) * R => (snd ec, fst ec))
                    (Poly_as_dict (sympy_legendre l (Z.of_nat 0))))
    by (rewrite length_map, length_seq; lia).
  rewrite (map_nth (fun m0 : nat =>
                      map (fun ec : (nat * nat) * R => (snd ec, fst ec))
                          (Poly_as_dict (sympy_legendre l (Z.of_nat m0))))).
  rewrite seq_nth by lia. reflexivity.
Qed.

Lemma order_value_at_pole (l m : nat) :
  m <= l ->
  poly_value (Fin 1) (Fin 0) (nth m (legendre_table l) [])
  = Fin (scal (sympy_legendre l (Z.of_nat m))
         * IZR (ZPoly.peval (zpoly (sympy_legendre l (Z.of_nat m))) 1)
         * 0 ^ m).
Proof.
  intros Hm. rewrite nth_legendre_table by exact Hm.
  unfold poly_value, Poly_as_dict. rewrite fold_terms_at_pole.
  cbn [ypow sympy_legendre]. rewrite Zabs2Nat.id. f_equal. ring.
Qed.

Lemma order_value_at_pole_pos (l m : nat) :
  1 <= m <= l ->
  poly_value (Fin 1) (Fin 0) (nth m (legendre_table l) []) = Fin 0.
Proof.
  intros Hm. rewrite order_value_at_pole by lia.
  rewrite pow_i by lia. f_equal. ring.
Qed.

Lemma order_value_at_pole_zero (l : nat) :
  poly_value (Fin 1) (Fin 0) (nth 0 (legendre_table l) [])
  = Fin ((-1) ^ l * sqrt ((2 * INR l + 1) / (4 * PI))).
Proof.
  rewrite order_value_at_pole by lia.
  cbn [scal zpoly sympy_legendre Z.of_nat Z.abs_nat].
  rewrite Nat.add_0_r, Nat.sub_0_r, Rodrigues.rodrigues_at_one.
  rewrite mult_IZR, <- pow_IZR, <- INR_IZR_INZ.
  assert (Hf : INR (fact l) <> 0%R) by apply INR_fact_neq_0.
  assert (H2 : (2 ^ l <> 0)%R) by (apply pow_nonzero; lra).
  replace ((2 * INR l + 1) / (4 * PI) * INR (fact l) / INR (fact l))%R
    with ((2 * INR l + 1) / (4 * PI))%R
    by (field; split; [apply PI_neq0 | exact Hf]).
  f_equal. field. split; assumption.
Qed.

Lemma map_const_repeat {A B} (b : B) (f : A -> B) (xs : list A) :
  (forall x, In x xs -> f x = b) -> map f xs = repeat b (length xs).
Proof.
  induction xs as [| x xs IH]; intros H; [reflexivity |].
  simpl. rewrite (H x) by (left; reflexivity).
  rewrite IH by (intros; apply H; right; assumption). reflexivity.
Qed.

Lemma rev_repeat_same {A} (a : A) (n : nat) : rev (repeat a n) = repeat a n.
Proof.
  induction n as [| n IH]; [reflexivity |].
  simpl. rewrite IH. symmetry. apply repeat_cons.
Qed.

Lemma block_at_pole (l : nat) :
  block_of (Fin 1) (Fin 0) (legendre_table l)
  = repeat (Fin 0) l
    ++ [Fin ((-1) ^ l * sqrt ((2 * INR l + 1) / (4 * PI)))]
    ++ repeat (Fin 0) l.
Proof.
  apply nth_ext with (d := NaN) (d' := NaN).
  - rewrite length_block_of, !length_app, !repeat_length. simpl. lia.
  - intros i Hi. rewrite length_block_of in Hi.
    destruct (lt_eq_lt_dec i l) as [[Hlt | ->] | Hgt].
    + destruct (block_of_nth (Fin 1) (Fin 0) (legendre_table l) l (l - i)
                  (length_legendre_table l) ltac:(lia)) as [H1 _].
      replace (l - (l - i)) with i in H1 by lia. rewrite H1.
      rewrite order_value_at_pole_pos by lia.
      rewrite app_nth1 by (rewrite repeat_length; lia).
      symmetry. apply nth_repeat_lt. lia.
    + destruct (block_of_nth (Fin 1) (Fin 0) (legendre_table l) l 0
                  (length_legendre_table l) ltac:(lia)) as [H1 _].
      rewrite Nat.sub_0_r in H1. rewrite H1, order_value_at_pole_zero.
      rewrite app_nth2 by (rewrite repeat_length; lia).
      rewrite repeat_length, Nat.sub_diag. reflexivity.
    + destruct (block_of_nth (Fin 1) (Fin 0) (legendre_table l) l (i - l)
                  (length_legendre_table l) ltac:(lia)) as [_ H2].
      replace (l + (i - l)) with i in H2 by lia. rewrite H2.
      rewrite order_value_at_pole_pos by lia.
      rewrite app_nth2 by (rewrite repeat_length; lia).
      rewrite repeat_length.
      replace (i - l) with (S (i - l - 1)) by lia. cbn [app nth].
      symmetry. apply nth_repeat_lt. lia.
Qed.

(** The Legendre evaluator at the pole, for any degree. *)
Lemma legendre_pole_block (l : nat) :
  legendre [l] (Fin 1) (Some (Fin 0))
  = Ok (repeat (Fin 0) l
        ++ [Fin ((-1) ^ l * sqrt ((2 * INR l + 1) / (4 * PI)))]
        ++ repeat (Fin 0) l).
Proof.
  rewrite legendre_value by discriminate.
  cbn [map concat]. rewrite app_nil_r, block_at_pole. reflexivity.
Qed.

Lemma atan2_0_0 : atan2 0 0 = 0%R.
Proof.
  unfold atan2.
  destruct (Rlt_dec 0 0) as [H | _]; [lra |]. reflexivity.
Qed.

Lemma normalize_north_pole :
  normalize (Fin 0, Fin 0, Fin 1) = (Fin 0, Fin 0, Fin 1).
Proof.
  assert (Hv : (0, 0, 1)%R <> (0, 0, 0)%R) by (intros H; inversion H; lra).
  destruct (normalize_Fin 0 0 1 Hv) as [_ E]. rewrite E.
  replace (0 ^ 2 + 0 ^ 2 + 1 ^ 2)%R with 1%R by ring.
  rewrite sqrt_1.
  replace (0 / 1)%R with 0%R by field.
  replace (1 / 1)%R with 1%R by field. reflexivity.
Qed.

(** The harmonics of degree one at the north pole. *)
Lemma spherical_harmonics_xyz_cpu_north_pole :
  spherical_harmonics_xyz_cpu [1] (Fin 0, Fin 0, Fin 1)
  = Ok [Fin 0; Fin (- sqrt (3 / (4 * PI))); Fin 0].
Proof.
  unfold spherical_harmonics_xyz_cpu. rewrite normalize_north_pole.
  rewrite !fpow_Fin. cbn [fatan2 fadd lift2 fsqrt]. rewrite atan2_0_0.
  replace (0 ^ 2 + 0 ^ 2)%R with 0%R by ring.
  destruct (Rlt_dec 0 0) as [H | _]; [lra |]. rewrite sqrt_0.
  rewrite (spherical_harmonics_alpha_z_y_jit_value [1] 1) by reflexivity.
  unfold combined. cbn [map concat]. rewrite app_nil_r, block_at_pole.
  cbn [repeat app Nat.sub Nat.mul Nat.add].
  change (spherical_harmonics_alpha 1 (Fin 0))
    with [Fin (sqrt 2 * sin (1 * 0)); Fin 1; Fin (sqrt 2 * cos (1 * 0))].
  cbn [skipn firstn zip_mul combine map fst snd fmul lift2].
  replace (2 * INR 1 + 1)%R with 3%R by (simpl; ring).
  repeat f_equal; ring.
Qed.

Lemma default_y_one : default_y (Fin 1) = Fin 0.
Proof.
  rewrite default_y_Fin. f_equal.
  replace (1 - 1 ^ 2)%R with 0%R by ring.
  rewrite Rmax_left by lra. apply sqrt_0.
Qed.

(* ------------------------------------------------------------------ *)
(** ** How large the terms are against their sum *)

Lemma abs_sum_as_dict (k : nat) (s : R) (ny : nat) (p : list Z) :
  abs_sum (map (fun ec : (nat * nat) * R => (snd ec, fst ec))
               (as_dict_from k s ny p))
  = (Rabs s * IZR (zabs_sum p))%R.
Proof.
  unfold abs_sum, rsum. revert k.
  induction p as [| c p IH]; intros k.
  - simpl. ring.
  - cbn [as_dict_from zabs_sum fold_right]. fold (zabs_sum p).
    rewrite plus_IZR, abs_IZR.
    destruct (Z.eqb_spec c 0) as [-> | Hc].
    + rewrite IH, Rabs_R0. ring.
    + cbn [map fold_right fst snd]. rewrite IH, Rabs_mult. ring.
Qed.

Lemma abs_pow_m1 (n : nat) : Rabs ((-1) ^ n) = 1%R.
Proof.
  rewrite <- RPow_abs.
  replace (Rabs (-1)) with 1%R
    by (unfold Rabs; destruct (Rcase_abs (-1)); lra).
  apply pow1.
Qed.

(** The coefficients of the polynomial of order zero, in absolute value. *)
Lemma abs_sum_order_zero (l : nat) :
  abs_sum (nth 0 (legendre_table l) [])
  = (sqrt ((2 * INR l + 1) / (4 * PI)) / (2 ^ l * INR (fact l))
     * IZR (zabs_sum (ZPoly.diff (ZPoly.ppow [(-1)%Z; 0%Z; 1%Z] l) l)))%R.
Proof.
  rewrite nth_legendre_table by lia. unfold Poly_as_dict.
  rewrite abs_sum_as_dict.
  cbn [scal zpoly sympy_legendre Z.of_nat Z.abs_nat].
  rewrite Nat.add_0_r, Nat.sub_0_r.
  assert (Hf : (0 < INR (fact l))%R) by apply INR_fact_lt_0.
  assert (H2 : (0 < 2 ^ l)%R) by (apply pow_lt; lra).
  replace ((2 * INR l + 1) / (4 * PI) * INR (fact l) / INR (fact l))%R
    with ((2 * INR l + 1) / (4 * PI))%R
    by (field; split; [apply PI_neq0 | lra]).
  rewrite !Rabs_mult, abs_pow_m1.
  rewrite (Rabs_right (sqrt _)) by (apply Rle_ge, sqrt_pos).
  rewrite Rabs_right.
  - f_equal. field. split; lra.
  - apply Rle_ge. apply Rlt_le. apply Rdiv_lt_0_compat; [lra |].
    apply Rmult_lt_0_compat; assumption.
Qed.

Lemma zabs_sum_bound (l : nat) :
  l <= 10 ->
  (zabs_sum (ZPoly.diff (ZPoly.ppow [(-1); 0; 1] l) l)
   <= 1100 * 2 ^ Z.of_nat l * Z.of_nat (fact l))%Z.
Proof.
  intros Hl.
  do 11 (destruct l as [| l]; [vm_compute; discriminate |]).
  lia.
Qed.

(** Up to degree ten the terms of the polynomial of order zero are, taken
    together, at most 1100 times its value at the pole. *)
Lemma abs_sum_bound (l : nat) :
  l <= 10 ->
  (abs_sum (nth 0 (legendre_table l) [])
   <= 1100 * sqrt ((2 * INR l + 1) / (4 * PI)))%R.
Proof.
  intros Hl. rewrite abs_sum_order_zero.
  pose proof (IZR_le _ _ (zabs_sum_bound l Hl)) as Hz.
  rewrite !mult_IZR, <- pow_IZR, <- INR_IZR_INZ in Hz.
  assert (Hf : (0 < INR (fact l))%R) by apply INR_fact_lt_0.
  assert (H2 : (0 < 2 ^ l)%R) by (apply pow_lt; lra).
  assert (Hq : (0 <= sqrt ((2 * INR l + 1) / (4 * PI))
                     / (2 ^ l * INR (fact l)))%R).
  { apply Rmult_le_pos; [apply sqrt_pos |].
    apply Rlt_le, Rinv_0_lt_compat, Rmult_lt_0_compat; assumption. }
  apply (Rmult_le_compat_l _ _ _ Hq) in Hz.
  eapply Rle_trans; [exact Hz |].
  apply Req_le. field. split; lra.
Qed.

(** C1, as the code has it: at [z = 1], [y = 0] (given, or derived from
    [z]) the block of a degree [l <= 10] is zero at every order but
    [m = 0], where it is [(-1)^l * sqrt ((2 l + 1) / (4 pi))]: the sign
    [(-1)^l] of the normalisation stays.  The value at [m = 0] is a sum of
    coefficients that cancel; up to degree ten their absolute values add up
    to at most 1100 times the value, which keeps the floating-point sum
    within rounding of it.  For the direction [(0, 0, 1)] and [ls = [1]]
    the output is [(0, - sqrt (3 / (4 pi)), 0)]. *)
Theorem legendre_at_pole (l : nat) :
  l <= 10 ->
  legendre [l] (Fin 1) (Some (Fin 0))
  = Ok (repeat (Fin 0) l
        ++ [Fin ((-1) ^ l * sqrt ((2 * INR l + 1) / (4 * PI)))]
        ++ repeat (Fin 0) l)
  /\ legendre [l] (Fin 1) None = legendre [l] (Fin 1) (Some (Fin 0))
  /\ (exists polys : list (list Term),
         poly_legendre (Z.of_nat l) = Ok polys
         /\ (abs_sum (nth 0 polys [])
             <= 1100 * sqrt ((2 * INR l + 1) / (4 * PI)))%R)
  /\ spherical_harmonics_xyz_cpu [1] (Fin 0, Fin 0, Fin 1)
     = Ok [Fin 0; Fin (- sqrt (3 / (4 * PI))); Fin 0].
Proof.
  intros Hl.
  split; [apply legendre_pole_block |]. split.
  - unfold legendre. rewrite default_y_one. reflexivity.
  - split.
    + exists (legendre_table l).
      split; [apply poly_legendre_table | apply abs_sum_bound; exact Hl].
    + apply spherical_harmonics_xyz_cpu_north_pole.
Qed.

Lemma legendre_at_pole_witness :
  2 <= 10
  /\ legendre [2] (Fin 1) (Some (Fin 0))
     = Ok (repeat (Fin 0) 2
           ++ [Fin ((-1) ^ 2 * sqrt ((2 * INR 2 + 1) / (4 * PI)))]
           ++ repeat (Fin 0) 2)
  /\ legendre [2] (Fin 1) None = legendre [2] (Fin 1) (Some (Fin 0))
  /\ (exists polys : list (list Term),
         poly_legendre (Z.of_nat 2) = Ok polys
         /\ (abs_sum (nth 0 polys [])
             <= 1100 * sqrt ((2 * INR 2 + 1) / (4 * PI)))%R)
  /\ spherical_harmonics_xyz_cpu [1] (Fin 0, Fin 0, Fin 1)
     = Ok [Fin 0; Fin (- sqrt (3 / (4 * PI))); Fin 0].
Proof.
  assert (H : 2 <= 10) by lia.
  split; [exact H | apply (legendre_at_pole 2 H)].
Defined.

(** C1 as stated fails at [l = 1]: the entry of order [0] at the north pole
    is [- sqrt (3 / (4 pi))], which is not [sqrt (3 / (4 pi))]. *)
Lemma north_pole_degree_one_negative :
  spherical_harmonics_xyz_cpu [1] (Fin 0, Fin 0, Fin 1)
  = Ok [Fin 0; Fin (- sqrt (3 / (4 * PI))); Fin 0]
  /\ legendre [1] (Fin 1) (Some (Fin 0))
     = Ok [Fin 0; Fin (- sqrt (3 / (4 * PI))); Fin 0]
  /\ (- sqrt (3 / (4 * PI)) < 0 < sqrt (3 / (4 * PI)))%R
  /\ Fin (- sqrt (3 / (4 * PI))) <> Fin (sqrt (3 / (4 * PI))).
Proof.
  assert (Hpos : (0 < sqrt (3 / (4 * PI)))%R).
  { apply sqrt_lt_R0. pose proof PI_RGT_0.
    apply Rdiv_lt_0_compat; lra. }
  split; [apply spherical_harmonics_xyz_cpu_north_pole |].
  split.
  - rewrite legendre_pole_block. cbn [repeat app].
    replace (2 * INR 1 + 1)%R with 3%R by (simpl; ring).
    repeat f_equal. ring.
  - split; [lra |]. intros H. inversion H. lra.
Qed.


(* ------------------------------------------------------------------ *)
(** ** The layout converter *)

Lemma mapi_from_repeat {A B} (f : nat -> A -> B) (x : A) (i n : nat) :
  mapi_from i f (repeat x n) = map (fun j => f j x) (seq i n).
Proof.
  revert i. induction n as [| n IH]; intros i; [reflexivity |].
  simpl. rewrite IH. reflexivity.
Qed.

Lemma mapi_from_update {A} (F : A -> A) (done : list A) (z : A)
      (zs : list A) (s : nat) :
  mapi_from s (fun j pl => if Nat.eqb j (s + length done) then F pl else pl)
            (done ++ z :: zs)
  = done ++ F z :: zs.
Proof.
  revert s. induction done as [| d done IH]; intros s.
  - simpl. rewrite Nat.add_0_r, Nat.eqb_refl. f_equal.
    assert (G : forall (xs : list A) t, s < t ->
                mapi_from t (fun j pl => if Nat.eqb j s then F pl else pl) xs
                = xs).
    { induction xs as [| x xs IHx]; intros t Ht; [reflexivity |].
      simpl. destruct (Nat.eqb_spec t s); [lia |].
      rewrite IHx by lia. reflexivity. }
    apply G. lia.
  - simpl. destruct (Nat.eqb_spec s (s + S (length done))); [lia |].
    f_equal. specialize (IH (S s)).
    replace (S s + length done) with (s + S (length done)) in IH by lia.
    exact IH.
Qed.

Section Layout.
Variables lmax K : nat.

Let M := 2 * lmax + 1.
Let zero_plane : list (list R) := repeat (repeat 0%R K) M.

Lemma assign_eye_zero_plane (done : list (list (list R)))
      (zs : list (list (list R))) (l off : nat) :
  l <= lmax -> off + (2 * l + 1) <= K ->
  assign_eye (done ++ zero_plane :: zs) (length done) (lmax - l) off
             (2 * l + 1)
  = Ok (done ++ plane_of lmax K l off :: zs).
Proof.
  intros Hl Hoff. unfold assign_eye.
  rewrite nth_error_app2, Nat.sub_diag by lia. cbn [nth_error].
  assert (Hchk : Nat.leb (lmax - l + (2 * l + 1)) (length zero_plane)
                 && forallb (fun row : list R =>
                               Nat.leb (off + (2 * l + 1)) (length row))
                            zero_plane = true).
  { apply andb_true_intro. split.
    - apply Nat.leb_le. unfold zero_plane, M. rewrite repeat_length. lia.
    - apply forallb_forall. intros row Hrow.
      apply repeat_spec in Hrow. subst row.
      apply Nat.leb_le. rewrite repeat_length. exact Hoff. }
  rewrite Hchk. f_equal. unfold mapi.
  rewrite (mapi_from_update _ done zero_plane zs 0). f_equal. f_equal.
  unfold zero_plane, plane_of, unit_row, M.
  rewrite mapi_from_repeat. apply map_ext. intros a.
  destruct (in_range (lmax - l) (2 * l + 1) a); [| reflexivity].
  apply mapi_from_repeat.
Qed.

Lemma expand_loop_value (rest : list nat) (done : list (list (list R)))
      (off : nat) :
  Forall (fun l => l <= lmax) rest -> off + flat_width rest <= K ->
  expand_loop rest lmax (length done) off
              (done ++ repeat zero_plane (length rest))
  = Ok (done ++ planes_from lmax K rest off).
Proof.
  revert done off. induction rest as [| l rest IH]; intros done off H Hoff.
  - reflexivity.
  - inversion H as [| ? ? Hl Hrest]; subst.
    change (flat_width (l :: rest)) with (2 * l + 1 + flat_width rest)
      in Hoff.
    cbn [expand_loop length repeat planes_from].
    rewrite assign_eye_zero_plane by lia. cbn [bind].
    specialize (IH (done ++ [plane_of lmax K l off]) (off + 2 * l + 1)
                   Hrest ltac:(lia)).
    rewrite length_app, <- app_assoc in IH. cbn [length app] in IH.
    replace (length done + 1) with (S (length done)) in IH by lia.
    rewrite IH, <- app_assoc. reflexivity.
Qed.
End Layout.

Lemma spherical_harmonics_expand_matrix_value (ls : list nat) (lmax : nat) :
  py_max ls = Ok lmax ->
  spherical_harmonics_expand_matrix ls
  = Ok (planes_from lmax (flat_width ls) ls 0).
Proof.
  intros Hmax. unfold spherical_harmonics_expand_matrix.
  rewrite Hmax. cbn [bind]. unfold zeros3.
  apply (expand_loop_value lmax (flat_width ls) ls [] 0).
  - apply Forall_forall. intros l Hl. eapply py_max_ge; eauto.
  - lia.
Qed.

(** *** Sums with at most one non-zero term *)

Lemma rsum_zero {A} (f : A -> R) (xs : list A) :
  (forall x, In x xs -> f x = 0%R) -> rsum (map f xs) = 0%R.
Proof.
  induction xs as [| x xs IH]; intros H; [reflexivity |].
  cbn [map rsum fold_right]. fold (rsum (map f xs)).
  rewrite IH by (intros; apply H; right; assumption).
  rewrite (H x) by (left; reflexivity). ring.
Qed.

Lemma rsum_single (f : nat -> R) (s n i0 : nat) :
  s <= i0 < s + n -> (forall i, i <> i0 -> f i = 0%R) ->
  rsum (map f (seq s n)) = f i0.
Proof.
  revert s. induction n as [| n IH]; intros s Hi H; [lia |].
  cbn [seq map rsum fold_right]. fold (rsum (map f (seq (S s) n))).
  destruct (Nat.eq_dec s i0) as [-> | Hne].
  - rewrite rsum_zero; [ring |].
    intros i Hin. apply in_seq in Hin. apply H. lia.
  - rewrite (H s Hne), IH by (auto; lia). ring.
Qed.

Lemma list_as_map_nth (v : list R) :
  map (fun k => nth k v 0%R) (seq 0 (length v)) = v.
Proof.
  apply nth_ext with (d := 0%R) (d' := 0%R).
  - rewrite length_map, length_seq. reflexivity.
  - intros i Hi. rewrite length_map, length_seq in Hi.
    rewrite nth_indep with (d' := nth 0 v 0%R)
      by (rewrite length_map, length_seq; exact Hi).
    rewrite (map_nth (fun k => nth k v 0%R)), seq_nth by exact Hi.
    reflexivity.
Qed.

Lemma combine_map_same {A B C} (f : A -> B) (g : A -> C) (xs : list A) :
  combine (map f xs) (map g xs) = map (fun x => (f x, g x)) xs.
Proof.
  induction xs as [| x xs IH]; [reflexivity |]. simpl. rewrite IH.
  reflexivity.
Qed.

Lemma nth_map_seq (g : nat -> R) (K k : nat) :
  k < K -> nth k (map g (seq 0 K)) 0%R = g k.
Proof.
  intros H. rewrite nth_indep with (d' := g 0)
    by (rewrite length_map, length_seq; exact H).
  rewrite map_nth, seq_nth by exact H. reflexivity.
Qed.

Lemma nth_repeat_zero (K k : nat) : nth k (repeat 0%R K) 0%R = 0%R.
Proof.
  destruct (Nat.lt_ge_cases k K) as [H | H].
  - apply nth_repeat_lt. exact H.
  - apply nth_overflow. rewrite repeat_length. exact H.
Qed.

Lemma in_range_iff (lo n i : nat) :
  in_range lo n i = true <-> lo <= i < lo + n.
Proof.
  unfold in_range. rewrite andb_true_iff, Nat.leb_le, Nat.ltb_lt. tauto.
Qed.

Lemma eye_diag (r : nat) : eye r r = 1%R.
Proof. unfold eye. rewrite Nat.eqb_refl. reflexivity. Qed.

Lemma eye_off (r c : nat) : r <> c -> eye r c = 0%R.
Proof. intros H. unfold eye. destruct (Nat.eqb_spec r c); [lia | reflexivity]. Qed.

Section RoundTrip.
Variables (lmax K : nat) (v : list R).
Hypothesis v_width : length v = K.

Lemma dot_map_seq (g : nat -> R) :
  dot (map g (seq 0 K)) v
  = rsum (map (fun k => (g k * nth k v 0)%R) (seq 0 K)).
Proof.
  unfold dot. rewrite <- (list_as_map_nth v) at 1. rewrite v_width.
  rewrite combine_map_same, map_map. reflexivity.
Qed.

Lemma dot_unit_row (off n r : nat) :
  off + n <= K -> r < n ->
  dot (unit_row K off n r) v = nth (off + r) v 0%R.
Proof.
  intros Hoff Hr. unfold unit_row. rewrite dot_map_seq.
  rewrite (rsum_single _ 0 K (off + r)).
  2: lia.
  2: { intros i Hi. destruct (in_range off n i) eqn:E; [| ring].
       apply in_range_iff in E. rewrite eye_off by lia. ring. }
  replace (in_range off n (off + r)) with true
    by (symmetry; apply in_range_iff; lia).
  replace (off + r - off) with r by lia. rewrite eye_diag. ring.
Qed.

Lemma dot_zero_row : dot (repeat 0%R K) v = 0%R.
Proof.
  replace (repeat 0%R K) with (map (fun _ : nat => 0%R) (seq 0 K)).
  - rewrite dot_map_seq. apply rsum_zero. intros; ring.
  - rewrite (map_const_repeat 0%R) by reflexivity.
    rewrite length_seq. reflexivity.
Qed.

(** Expanding: one plane. *)
Lemma expand_plane (l off : nat) :
  off + (2 * l + 1) <= K ->
  map (fun row => dot row v) (plane_of lmax K l off)
  = map (fun a =>
           if in_range (lmax - l) (2 * l + 1) a
           then nth (off + (a - (lmax - l))) v 0%R
           else 0%R)
        (seq 0 (2 * lmax + 1)).
Proof.
  intros Hoff. unfold plane_of. rewrite map_map. apply map_ext.
  intros a. destruct (in_range (lmax - l) (2 * l + 1) a) eqn:E.
  - apply in_range_iff in E. apply dot_unit_row; lia.
  - apply dot_zero_row.
Qed.

(** Contracting back: what one plane contributes to entry [k]. *)
Lemma contract_plane (l off k : nat) :
  l <= lmax -> off + (2 * l + 1) <= K -> k < K ->
  rsum (map (fun ar : list R * R => (nth k (fst ar) 0 * snd ar)%R)
            (combine (plane_of lmax K l off)
                     (map (fun row => dot row v) (plane_of lmax K l off))))
  = if in_range off (2 * l + 1) k then nth k v 0%R else 0%R.
Proof.
  intros Hl Hoff Hk. rewrite expand_plane by exact Hoff.
  unfold plane_of. rewrite combine_map_same, map_map. cbn [fst snd].
  destruct (in_range off (2 * l + 1) k) eqn:Ek.
  - apply in_range_iff in Ek.
    rewrite (rsum_single _ 0 (2 * lmax + 1) (lmax - l + (k - off))).
    + replace (in_range (lmax - l) (2 * l + 1) (lmax - l + (k - off)))
        with true by (symmetry; apply in_range_iff; lia).
      unfold unit_row. rewrite nth_map_seq by exact Hk.
      replace (in_range off (2 * l + 1) k) with true
        by (symmetry; apply in_range_iff; lia).
      replace (lmax - l + (k - off) - (lmax - l)) with (k - off) by lia.
      rewrite eye_diag. replace (off + (k - off)) with k by lia. ring.
    + lia.
    + intros a Ha.
      destruct (in_range (lmax - l) (2 * l + 1) a) eqn:Ea; [| ring].
      apply in_range_iff in Ea.
      unfold unit_row. rewrite nth_map_seq by exact Hk.
      replace (in_range off (2 * l + 1) k) with true
        by (symmetry; apply in_range_iff; lia).
      rewrite eye_off by lia. ring.
  - apply rsum_zero. intros a _.
    destruct (in_range (lmax - l) (2 * l + 1) a).
    + unfold unit_row. rewrite nth_map_seq by exact Hk.
      rewrite Ek. ring.
    + rewrite nth_repeat_zero. ring.
Qed.

(** Contracting back: all planes. *)
Lemma contract_planes (ls : list nat) (off k : nat) :
  Forall (fun l => l <= lmax) ls -> off + flat_width ls <= K -> k < K ->
  rsum (map (fun jp : list (list R) * list R =>
               rsum (map (fun ar : list R * R =>
                            (nth k (fst ar) 0 * snd ar)%R)
                         (combine (fst jp) (snd jp))))
            (combine (planes_from lmax K ls off)
                     (expand_flat (planes_from lmax K ls off) v)))
  = if in_range off (flat_width ls) k then nth k v 0%R else 0%R.
Proof.
  revert off. induction ls as [| l ls IH]; intros off H Hoff Hk.
  - cbn. destruct (in_range off 0 k) eqn:E; [| reflexivity].
    apply in_range_iff in E. lia.
  - apply Forall_cons_iff in H. destruct H as [Hl Hls].
    change (flat_width (l :: ls)) with (2 * l + 1 + flat_width ls)
      in Hoff |- *.
    cbn [planes_from expand_flat map combine rsum fold_right fst snd].
    fold (expand_flat (planes_from lmax K ls (off + 2 * l + 1)) v).
    match goal with
    | |- (_ + fold_right Rplus 0 ?t)%R = _ => fold (rsum t)
    end.
    rewrite contract_plane by lia.
    rewrite IH by (auto; lia).
    destruct (in_range off (2 * l + 1) k) eqn:E1;
      destruct (in_range (off + 2 * l + 1) (flat_width ls) k) eqn:E2;
      destruct (in_range off (2 * l + 1 + flat_width ls) k) eqn:E3;
      try ring;
      rewrite ?in_range_iff in *;
      repeat match goal with
             | H : in_range _ _ _ = false |- _ =>
                 apply not_true_iff_false in H; rewrite in_range_iff in H
             end; lia.
Qed.

Lemma round_trip_planes (ls : list nat) :
  Forall (fun l => l <= lmax) ls -> flat_width ls = K ->
  contract_flat (planes_from lmax K ls 0)
                (expand_flat (planes_from lmax K ls 0) v) K
  = v.
Proof.
  intros H HK. unfold contract_flat.
  transitivity (map (fun k => nth k v 0%R) (seq 0 K));
    [| rewrite <- v_width; apply list_as_map_nth].
  apply map_ext_in. intros k Hk. apply in_seq in Hk.
  rewrite contract_planes by (auto; lia).
  replace (in_range 0 (flat_width ls) k) with true
    by (symmetry; apply in_range_iff; lia).
  reflexivity.
Qed.
End RoundTrip.

Lemma length_planes_from (lmax K : nat) (ls : list nat) (off : nat) :
  length (planes_from lmax K ls off) = length ls.
Proof.
  revert off. induction ls as [| l ls IH]; intros off; [reflexivity |].
  simpl. rewrite IH. reflexivity.
Qed.

Lemma nth_planes_from (lmax K : nat) (ls : list nat) (off j : nat) :
  j < length ls ->
  nth j (planes_from lmax K ls off) []
  = plane_of lmax K (nth j ls 0) (off + flat_width (firstn j ls)).
Proof.
  revert off j. induction ls as [| l ls IH]; intros off j Hj;
    simpl in Hj; [lia |].
  destruct j as [| j].
  - simpl. rewrite Nat.add_0_r. reflexivity.
  - cbn [planes_from nth firstn]. rewrite IH by lia.
    change (flat_width (l :: firstn j ls))
      with (2 * l + 1 + flat_width (firstn j ls)).
    f_equal. lia.
Qed.

Lemma flat_width_firstn (ls : list nat) (j : nat) :
  j < length ls ->
  flat_width (firstn j ls) + (2 * nth j ls 0 + 1) <= flat_width ls.
Proof.
  revert j. induction ls as [| l ls IH]; intros j Hj; simpl in Hj; [lia |].
  change (flat_width (l :: ls)) with (2 * l + 1 + flat_width ls).
  destruct j as [| j].
  - simpl. lia.
  - cbn [firstn nth].
    change (flat_width (l :: firstn j ls))
      with (2 * l + 1 + flat_width (firstn j ls)).
    specialize (IH j ltac:(lia)). lia.
Qed.

(** C7: [expand_matrix] raises only on the empty degree set (where [max]
    has no value); on every other [ls] it returns a tensor [E] with one
    plane per degree such that expanding any flat vector [v] of length
    [sum (2 l + 1)] with [E] and contracting back gives [v], and row [j] of
    the expanded matrix holds the [2 l_j + 1] values of the block of the
    [j]-th degree at columns [lmax - l_j .. lmax + l_j], and zero
    elsewhere. *)
Theorem expand_matrix_round_trip (ls : list nat) :
  match spherical_harmonics_expand_matrix ls with
  | Raise _ => ls = []
  | Ok E =>
      exists lmax : nat,
        py_max ls = Ok lmax
        /\ length E = length ls
        /\ forall v : list R,
            length v = flat_width ls ->
            contract_flat E (expand_flat E v) (flat_width ls) = v
            /\ forall j a : nat,
                j < length ls -> a < 2 * lmax + 1 ->
                nth a (nth j (expand_flat E v) []) 0%R
                = if in_range (lmax - nth j ls 0) (2 * nth j ls 0 + 1) a
                  then nth (flat_width (firstn j ls)
                            + (a - (lmax - nth j ls 0))) v 0%R
                  else 0%R
  end.
Proof.
  destruct ls as [| l0 ls0] eqn:Els; [reflexivity |]. rewrite <- Els.
  assert (Hne : ls <> []) by (subst; discriminate). clear Els.
  destruct (py_max_Ok ls Hne) as [lmax Hmax].
  assert (Hle : Forall (fun l => l <= lmax) ls)
    by (apply Forall_forall; intros l Hl; eapply py_max_ge; eauto).
  rewrite (spherical_harmonics_expand_matrix_value ls lmax Hmax).
  exists lmax.
  split; [exact Hmax |].
  split; [apply length_planes_from |].
  intros v Hv. split.
  - apply round_trip_planes; auto.
  - intros j a Hj Ha. unfold expand_flat.
    change (@nil R) with (map (fun row : list R => dot row v) []).
    rewrite map_nth, nth_planes_from by exact Hj.
    pose proof (flat_width_firstn ls j Hj) as Hw.
    rewrite (expand_plane lmax (flat_width ls) v Hv) by (simpl; lia).
    rewrite nth_map_seq by exact Ha. reflexivity.
Qed.

(** The tensor of [ls = [0, 1]], and the round trip of a vector through
    it. *)
Example expand_matrix_0_1 :
  spherical_harmonics_expand_matrix [0; 1]
  = Ok [[[0; 0; 0; 0]; [1; 0; 0; 0]; [0; 0; 0; 0]];
        [[0; 1; 0; 0]; [0; 0; 1; 0]; [0; 0; 0; 1]]]%R.
Proof. reflexivity. Qed.

Example expand_matrix_empty :
  spherical_harmonics_expand_matrix [] = Raise ValueError.
Proof. reflexivity. Qed.

(* ================================================================== *)
(* ================================================================== *)
(** * Further properties of the module *)

(* ------------------------------------------------------------------ *)
(** ** The coefficient tables *)

Module TableFacts.
Import ZPoly.
Local Open Scope Z_scope.

(** Multiplying by [z^2 - 1]. *)
Lemma nth_pmul_quadratic (q : list Z) (k : nat) :
  nth k (pmul [-1; 0; 1] q) 0
  = - nth k q 0 + (if Nat.ltb k 2 then 0 else nth (k - 2) q 0).
Proof.
  cbn [pmul]. rewrite !Rodrigues.nth_padd, !Rodrigues.nth_pscale.
  destruct k as [| [| k]]; cbn [nth Nat.ltb Nat.leb Nat.sub].
  - lia.
  - rewrite Rodrigues.nth_padd, Rodrigues.nth_pscale. cbn [nth]. lia.
  - rewrite Rodrigues.nth_padd, Rodrigues.nth_pscale. cbn [nth].
    rewrite Rodrigues.nth_padd, Rodrigues.nth_pscale.
    rewrite Nat.sub_0_r.
    replace (nth k [0] 0) with 0 by (destruct k as [| [| ?]]; reflexivity).
    lia.
Qed.

(** [(z^2 - 1)^l] has no odd power. *)
Lemma ppow_quadratic_even (l k : nat) :
  Nat.odd k = true -> nth k (ppow [-1; 0; 1] l) 0 = 0.
Proof.
  revert k. induction l as [| l IH]; intros k Hk.
  - destruct k as [| [| k]]; [discriminate | reflexivity | reflexivity].
  - cbn [ppow]. rewrite nth_pmul_quadratic, (IH k Hk).
    destruct (Nat.ltb_spec k 2); [reflexivity |].
    rewrite IH; [reflexivity |].
    replace k with (S (S (k - 2))) in Hk by lia.
    rewrite Nat.odd_succ_succ in Hk. exact Hk.
Qed.

(** A derivative of order [n] moves the coefficient of [z^(k+n)] to
    [z^k]. *)
Lemma nth_diff_zero (p : list Z) (n k : nat) :
  nth (k + n) p 0 = 0 -> nth k (diff p n) 0 = 0.
Proof.
  revert p. induction n as [| n IH]; intros p H.
  - rewrite Nat.add_0_r in H. exact H.
  - rewrite Rodrigues.diff_succ. apply IH.
    rewrite Rodrigues.nth_pderiv.
    replace (S (k + n)) with (k + S n)%nat by lia. rewrite H. lia.
Qed.

Lemma rodrigues_parity (l n k : nat) :
  nth k (diff (ppow [-1; 0; 1] l) n) 0 <> 0 -> Nat.even (k + n) = true.
Proof.
  intros H. destruct (Nat.even (k + n)) eqn:E; [reflexivity |].
  exfalso. apply H. apply nth_diff_zero. apply ppow_quadratic_even.
  rewrite <- Nat.negb_even, E. reflexivity.
Qed.

End TableFacts.

(** The entries of [as_dict]: keys in ascending order of the power of [z],
    each with the non-zero coefficient it stands for. *)
Lemma as_dict_from_entry (k : nat) (s : R) (ny : nat) (p : list Z)
      (e : nat * nat) (c : R) :
  In (e, c) (as_dict_from k s ny p) ->
  k <= fst e
  /\ nth (fst e - k) p 0%Z <> 0%Z
  /\ c = (s * IZR (nth (fst e - k) p 0%Z))%R.
Proof.
  revert k. induction p as [| a p IH]; intros k H; [destruct H |].
  cbn [as_dict_from] in H.
  assert (Hrest : In (e, c) (as_dict_from (S k) s ny p) ->
                  k <= fst e
                  /\ nth (fst e - k) (a :: p) 0%Z <> 0%Z
                  /\ c = (s * IZR (nth (fst e - k) (a :: p) 0%Z))%R).
  { intros Hin. apply IH in Hin. destruct Hin as (Hk & Hn & Hc).
    replace (fst e - k) with (S (fst e - S k)) by lia.
    cbn [nth]. repeat split; [lia | exact Hn | exact Hc]. }
  destruct (Z.eqb_spec a 0) as [Ha | Ha]; [apply Hrest; exact H |].
  destruct H as [H | H]; [| apply Hrest; exact H].
  inversion H; subst. cbn [fst]. rewrite Nat.sub_diag. cbn [nth].
  repeat split; [lia | exact Ha].
Qed.

Lemma as_dict_from_keys_NoDup (k : nat) (s : R) (ny : nat) (p : list Z) :
  NoDup (map fst (as_dict_from k s ny p)).
Proof.
  revert k. induction p as [| a p IH]; intros k; [constructor |].
  cbn [as_dict_from]. destruct (Z.eqb a 0); [apply IH |].
  cbn [map fst]. constructor; [| apply IH].
  intros Hin. apply in_map_iff in Hin. destruct Hin as ([e c] & He & Hin).
  apply as_dict_from_entry in Hin. cbn [fst] in He. subst e.
  cbn [fst] in Hin. lia.
Qed.

Lemma scal_nonzero (l m : nat) :
  m <= l -> scal (sympy_legendre l (Z.of_nat m)) <> 0%R.
Proof.
  intros Hm. cbn [scal sympy_legendre]. rewrite Zabs2Nat.id.
  assert (Hf : forall n, (0 < INR (fact n))%R)
    by (intros n; apply lt_0_INR, lt_O_fact).
  pose proof (Hf l) as Hl. pose proof (Hf (l - m)) as H1.
  pose proof (Hf (l + m)) as H2.
  assert (Hp : (0 < 2 ^ l)%R) by (apply pow_lt; lra).
  assert (Hs : (0 < sqrt ((2 * INR l + 1) / (4 * PI) * INR (fact (l - m))
                          / INR (fact (l + m))))%R).
  { apply sqrt_lt_R0. pose proof PI_RGT_0. pose proof (pos_INR l).
    apply Rdiv_lt_0_compat; [| exact H2].
    apply Rmult_lt_0_compat; [| exact H1].
    apply Rdiv_lt_0_compat; lra. }
  assert (Hm1 : ((-1) ^ l <> 0)%R) by (apply pow_nonzero; lra).
  apply Rmult_integral_contrapositive_currified.
  - unfold Rdiv. rewrite Rmult_1_l. apply Rinv_neq_0_compat.
    apply Rmult_integral_contrapositive_currified; lra.
  - apply Rmult_integral_contrapositive_currified; [exact Hm1 | lra].
Qed.

(** The terms of the polynomial of order [m] in the table of degree [l]. *)
Lemma legendre_table_term (l m : nat) (poly : list Term) (t : Term) :
  nth_error (legendre_table l) m = Some poly -> In t poly ->
  snd (snd t) = m
  /\ fst (snd t) <= l - m
  /\ Nat.even (fst (snd t) + (l - m)) = true
  /\ fst t <> 0%R.
Proof.
  intros Hnth Hin.
  destruct (legendre_table_terms l m poly t Hnth Hin) as (Hm & Hz & Hy).
  assert (E : poly = nth m (legendre_table l) []).
  { symmetry. apply nth_error_nth. exact Hnth. }
  rewrite nth_legendre_table in E by exact Hm. subst poly.
  apply in_map_iff in Hin. destruct Hin as ([e c] & <- & Hin).
  unfold Poly_as_dict in Hin. apply as_dict_from_entry in Hin.
  cbn [fst snd] in *. destruct Hin as (_ & Hn & Hc).
  rewrite Nat.sub_0_r in Hn, Hc.
  repeat split; [exact Hy | exact Hz | |].
  - cbn [zpoly sympy_legendre] in Hn. rewrite Zabs2Nat.id in Hn.
    apply TableFacts.rodrigues_parity in Hn.
    rewrite Nat.even_add in Hn |- *.
    rewrite Nat.even_add in Hn.
    replace l with (l - m + m) in Hn at 1 by lia.
    rewrite Nat.even_add in Hn.
    destruct (Nat.even (fst e)), (Nat.even (l - m)), (Nat.even m);
      simpl in *; congruence.
  - rewrite Hc. apply Rmult_integral_contrapositive_currified.
    + apply scal_nonzero. exact Hm.
    + apply not_0_IZR. exact Hn.
Qed.

Lemma legendre_table_keys_NoDup (l : nat) (poly : list Term) :
  In poly (legendre_table l) -> NoDup (map snd poly).
Proof.
  unfold legendre_table. intros Hin.
  apply in_map_iff in Hin. destruct Hin as (m & <- & _).
  rewrite map_map. cbn [snd].
  unfold Poly_as_dict. apply as_dict_from_keys_NoDup.
Qed.

(** X1: for every degree [l >= 0], [poly_legendre] returns [l + 1]
    polynomials, none of them empty; in the polynomial of order [m] every
    term has [y]-exponent [m], a [z]-exponent at most [l - m] and of the
    parity of [l - m], and a non-zero coefficient, and no two terms have the
    same exponents. *)
Theorem poly_legendre_table_shape (l : nat) :
  exists table : list (list Term),
    poly_legendre (Z.of_nat l) = Ok table
    /\ length table = l + 1
    /\ forall (m : nat) (poly : list Term),
        nth_error table m = Some poly ->
        poly <> []
        /\ NoDup (map snd poly)
        /\ forall t : Term,
            In t poly ->
            snd (snd t) = m
            /\ fst (snd t) <= l - m
            /\ Nat.even (fst (snd t) + (l - m)) = true
            /\ fst t <> 0%R.
Proof.
  exists (legendre_table l).
  split; [apply poly_legendre_table |].
  split; [apply length_legendre_table |].
  intros m poly Hnth.
  assert (Hin : In poly (legendre_table l))
    by (eapply nth_error_In; eauto).
  split; [apply (legendre_table_nonempty l); exact Hin |].
  split; [apply (legendre_table_keys_NoDup l); exact Hin |].
  intros t Ht. apply (legendre_table_term l m poly t Hnth Ht).
Qed.

(* ------------------------------------------------------------------ *)
(** ** When the polynomial evaluator returns *)

Lemma getitem_outcome {A} (xs : list A) (i : nat) :
  match getitem xs i with
  | Ok _ => i < length xs
  | Raise e => e = RuntimeError /\ length xs <= i
  end.
Proof.
  unfold getitem. destruct (nth_error xs i) eqn:E.
  - apply nth_error_Some. congruence.
  - split; [reflexivity | apply nth_error_None; exact E].
Qed.

Lemma eval_terms_outcome (poly : list Term) (pwz pwy : list fval)
      (val : fval) :
  match eval_terms poly pwz pwy val with
  | Ok _ => Forall (term_fits pwz pwy) poly
  | Raise e =>
      e = RuntimeError /\ Exists (fun t => ~ term_fits pwz pwy t) poly
  end.
Proof.
  revert val. induction poly as [| [c [nz ny]] poly IH]; intros val.
  - constructor.
  - cbn [eval_terms].
    pose proof (getitem_outcome pwz nz) as Hz.
    destruct (getitem pwz nz) as [zn | e]; cbn [bind].
    + pose proof (getitem_outcome pwy ny) as Hy.
      destruct (getitem pwy ny) as [yn | e]; cbn [bind].
      * specialize (IH (fadd val (fmul (fmul (Fin c) zn) yn))).
        destruct (eval_terms poly pwz pwy _) as [v | e].
        -- constructor; [split; assumption | exact IH].
        -- destruct IH as [He Hex]. split; [exact He |].
           apply Exists_cons_tl. exact Hex.
      * destruct Hy as [He Hy]. split; [exact He |].
        apply Exists_cons_hd. unfold term_fits. cbn [fst snd]. lia.
    + destruct Hz as [He Hz]. split; [exact He |].
      apply Exists_cons_hd. unfold term_fits. cbn [fst snd]. lia.
Qed.

Lemma eval_polys_loop_outcome (polys : list (list Term)) (m : nat)
      (pwz pwy : list fval) (p : list fval) :
  0 < m ->
  match eval_polys_loop polys m pwz pwy p with
  | Ok r =>
      Forall (Forall (term_fits pwz pwy)) polys
      /\ (polys = [] \/ pwz <> [])
      /\ length r = length p + 2 * length polys
  | Raise e =>
      e = RuntimeError
      /\ (pwz = []
          \/ Exists (Exists (fun t => ~ term_fits pwz pwy t)) polys)
  end.
Proof.
  revert m p. induction polys as [| poly polys IH]; intros m p Hm.
  - cbn. repeat split; auto.
  - cbn [eval_polys_loop].
    pose proof (getitem_outcome pwz 0) as H0.
    destruct (getitem pwz 0) as [z0 | e]; cbn [bind].
    + pose proof (eval_terms_outcome poly pwz pwy (zeros_like z0)) as Ht.
      destruct (eval_terms poly pwz pwy (zeros_like z0)) as [val | e];
        cbn [bind].
      * destruct (Nat.eqb_spec m 0); [lia |].
        specialize (IH (S m) ([val] ++ p ++ [val]) ltac:(lia)).
        destruct (eval_polys_loop polys (S m) pwz pwy _) as [r | e].
        -- destruct IH as (Hall & _ & Hlen). split; [constructor; auto |].
           split.
           ++ right. intros E. rewrite E in H0. simpl in H0. lia.
           ++ rewrite Hlen. cbn [length app].
              rewrite length_app. simpl. lia.
        -- destruct IH as [He Hex]. split; [exact He |].
           destruct Hex as [Hex | Hex]; [left; exact Hex |].
           right. apply Exists_cons_tl. exact Hex.
      * destruct Ht as [He Hex]. split; [exact He |].
        right. apply Exists_cons_hd. exact Hex.
    + destruct H0 as [He H0]. split; [exact He |]. left.
      destruct pwz; [reflexivity | simpl in H0; lia].
Qed.

(** X2: [_legendre_eval_polys] returns exactly when the table has at least
    one polynomial, the power tables are not empty and every exponent of
    every term indexes them; the block returned has [2 n - 1] entries for
    [n] polynomials.  Every failure is a [RuntimeError]: the function is
    compiled by TorchScript, where stacking nothing (an empty table) and
    indexing a list out of range (an empty power table, an exponent beyond
    a table) both raise it. *)
Theorem legendre_eval_polys_outcome (polys : list (list Term))
        (pwz pwy : list fval) :
  match _legendre_eval_polys polys pwz pwy with
  | Ok blk =>
      polys <> [] /\ pwz <> []
      /\ Forall (Forall (term_fits pwz pwy)) polys
      /\ length blk = 2 * length polys - 1
  | Raise e =>
      e = RuntimeError
      /\ (polys = []
          \/ (polys <> []
              /\ (pwz = []
                  \/ Exists (Exists (fun t => ~ term_fits pwz pwy t))
                            polys)))
  end.
Proof.
  unfold _legendre_eval_polys.
  destruct polys as [| poly polys];
    [split; [reflexivity | left; reflexivity] |].
  cbn [eval_polys_loop].
  pose proof (getitem_outcome pwz 0) as H0.
  destruct (getitem pwz 0) as [z0 | e]; cbn [bind].
  - assert (Hpw : pwz <> [])
      by (intros E; rewrite E in H0; simpl in H0; lia).
    pose proof (eval_terms_outcome poly pwz pwy (zeros_like z0)) as Ht.
    destruct (eval_terms poly pwz pwy (zeros_like z0)) as [val | e];
      cbn [bind Nat.eqb].
    + pose proof (eval_polys_loop_outcome polys 1 pwz pwy ([] ++ [val])
                    ltac:(lia)) as Hl.
      destruct (eval_polys_loop polys 1 pwz pwy ([] ++ [val])) as [r | e];
        cbn [bind].
      * destruct Hl as (Hall & _ & Hlen). cbn [app length] in Hlen.
        destruct r as [| r0 r]; [simpl in Hlen; lia |]. cbn [stack].
        split; [discriminate |]. split; [exact Hpw |].
        split; [constructor; assumption |].
        rewrite Hlen. cbn [length]. lia.
      * destruct Hl as [He Hex]. split; [exact He |]. right.
        split; [discriminate |].
        destruct Hex as [Hex | Hex]; [left; exact Hex |].
        right. apply Exists_cons_tl. exact Hex.
    + destruct Ht as [He Hex]. split; [exact He |]. right.
      split; [discriminate |].
      right. apply Exists_cons_hd. exact Hex.
  - destruct H0 as [He H0]. split; [exact He |]. right.
    split; [discriminate |]. left.
    destruct pwz; [reflexivity | simpl in H0; lia].
Qed.

(* ------------------------------------------------------------------ *)
(** ** The combiner, entry by entry *)

Lemma split_blocks_widths (ls : list nat) (x : list fval) :
  length x = flat_width ls ->
  Forall2 (fun l b => length b = 2 * l + 1) ls (split_blocks ls x)
  /\ concat (split_blocks ls x) = x.
Proof.
  revert x. induction ls as [| l ls IH]; intros x Hx.
  - destruct x; [split; [constructor | reflexivity] | discriminate].
  - change (flat_width (l :: ls)) with (2 * l + 1 + flat_width ls) in Hx.
    destruct (IH (skipn (2 * l + 1) x)) as [H1 H2];
      [rewrite length_skipn; lia |].
    cbn [split_blocks concat]. split.
    + constructor; [rewrite length_firstn; lia | exact H1].
    + rewrite H2. apply firstn_skipn.
Qed.

Lemma nth_concat_at (ls : list nat) (bs : list (list fval)) (j i : nat) :
  Forall2 (fun l b => length b = 2 * l + 1) ls bs ->
  j < length ls -> i < 2 * nth j ls 0 + 1 ->
  nth (flat_width (firstn j ls) + i) (concat bs) NaN
  = nth i (nth j bs []) NaN.
Proof.
  intros H. revert j. induction H as [| l b ls bs Hb _ IH]; intros j Hj Hi.
  - simpl in Hj. lia.
  - destruct j as [| j]; cbn [firstn nth concat] in *.
    + simpl. apply app_nth1. lia.
    + change (flat_width (l :: firstn j ls))
        with (2 * l + 1 + flat_width (firstn j ls)).
      rewrite app_nth2 by lia.
      replace (2 * l + 1 + flat_width (firstn j ls) + i - length b)
        with (flat_width (firstn j ls) + i) by lia.
      apply IH; [simpl in Hj; lia | exact Hi].
Qed.

Lemma nth_zip_mul (a b : list fval) (i : nat) :
  i < length a -> i < length b ->
  nth i (zip_mul a b) NaN = fmul (nth i a NaN) (nth i b NaN).
Proof.
  revert b i. induction a as [| x a IH]; intros b i Ha Hb;
    [simpl in Ha; lia |].
  destruct b as [| y b]; [simpl in Hb; lia |].
  destruct i as [| i]; [reflexivity |].
  cbn [zip_mul combine map nth]. apply IH; simpl in *; lia.
Qed.

Section CombinerBlocks.
Variables (lmax : nat) (x_m : list fval).
Hypothesis x_m_width : length x_m = 2 * lmax + 1.

Lemma mul_m_lm_loop_blocks (ls : list nat) (bs : list (list fval))
      (pre : list fval) (out : list (list fval)) :
  Forall2 (fun l b => length b = 2 * l + 1) ls bs ->
  Forall (fun l => l <= lmax) ls ->
  mul_m_lm_loop ls lmax x_m (pre ++ concat bs) (length pre) out
  = Ok (out ++ map (fun lb => zip_mul (snd lb)
                                      (firstn (2 * fst lb + 1)
                                              (skipn (lmax - fst lb) x_m)))
                   (combine ls bs)).
Proof.
  intros H. revert pre out.
  induction H as [| l b ls bs Hb _ IH]; intros pre out Hle.
  - simpl. rewrite app_nil_r. reflexivity.
  - apply Forall_cons_iff in Hle. destruct Hle as [Hl Hle].
    cbn [mul_m_lm_loop combine map concat fst snd].
    replace (Z.of_nat lmax - Z.of_nat l)%Z with (Z.of_nat (lmax - l))
      by lia.
    replace (Z.of_nat lmax + Z.of_nat l + 1)%Z
      with (Z.of_nat (lmax + l + 1)) by lia.
    rewrite !pyslice_nat
      by (rewrite ?length_app, ?Hb, ?x_m_width; lia).
    rewrite skipn_app, Nat.sub_diag, skipn_all. simpl app. simpl skipn.
    replace (length pre + 2 * l + 1 - length pre) with (2 * l + 1) by lia.
    rewrite firstn_app, Hb, Nat.sub_diag, firstn_O, app_nil_r.
    rewrite firstn_all2 by (rewrite Hb; lia).
    replace (lmax + l + 1 - (lmax - l)) with (2 * l + 1) by lia.
    rewrite tmul_same_length
      by (rewrite Hb, length_firstn, length_skipn, x_m_width; lia).
    cbn [bind].
    replace (length pre + 2 * l + 1) with (length (pre ++ b))
      by (rewrite length_app, Hb; lia).
    rewrite app_assoc, IH by assumption.
    rewrite <- app_assoc. reflexivity.
Qed.
End CombinerBlocks.

Lemma length_concat_widths (ls : list nat) (bs : list (list fval)) :
  Forall2 (fun l b => length b = 2 * l + 1) ls bs ->
  length (concat bs) = flat_width ls.
Proof.
  induction 1 as [| l b ls' bs' Hb _ IH]; [reflexivity |].
  cbn [concat]. rewrite length_app, Hb.
  change (flat_width (l :: ls')) with (2 * l + 1 + flat_width ls').
  f_equal. exact IH.
Qed.

Lemma nth_width (ls : list nat) (bs : list (list fval)) (j : nat) :
  Forall2 (fun l b => length b = 2 * l + 1) ls bs ->
  j < length ls -> length (nth j bs []) = 2 * nth j ls 0 + 1.
Proof.
  intros H. revert j. induction H as [| l b ls' bs' Hb _ IH]; intros j Hj;
    [simpl in Hj; lia |].
  destruct j; [exact Hb | apply IH; simpl in Hj; lia].
Qed.

Lemma combined_blocks_widths (lmax : nat) (x_m : list fval)
      (ls : list nat) (bs : list (list fval)) :
  length x_m = 2 * lmax + 1 ->
  Forall (fun l => l <= lmax) ls ->
  Forall2 (fun l b => length b = 2 * l + 1) ls bs ->
  Forall2 (fun l b => length b = 2 * l + 1) ls
          (map (fun lb => zip_mul (snd lb)
                                  (firstn (2 * fst lb + 1)
                                          (skipn (lmax - fst lb) x_m)))
               (combine ls bs)).
Proof.
  intros Hxm Hle H. induction H as [| l b ls' bs' Hb _ IH].
  - constructor.
  - apply Forall_cons_iff in Hle. destruct Hle as [Hl Hle].
    cbn [combine map]. constructor; [| apply IH; exact Hle].
    cbn [fst snd].
    rewrite length_zip_mul, Hb, length_firstn, length_skipn, Hxm. lia.
Qed.

(** X3: on a non-empty degree set with every degree at most [lmax], an
    alpha row of width [2 lmax + 1] and a beta vector of width
    [sum (2 l + 1)], [mul_m_lm] returns a vector of that width whose entry
    [i] of the block of the [j]-th degree is the product of the same entry
    of the beta vector and entry [lmax - l_j + i] of the alpha row. *)
Theorem mul_m_lm_entries (ls : list nat) (lmax : nat)
        (x_m x_lm : list fval) :
  ls <> [] ->
  Forall (fun l => l <= lmax) ls ->
  length x_m = 2 * lmax + 1 ->
  length x_lm = flat_width ls ->
  exists out : list fval,
    mul_m_lm ls x_m x_lm = Ok out
    /\ length out = flat_width ls
    /\ forall j i : nat,
        j < length ls -> i < 2 * nth j ls 0 + 1 ->
        nth (flat_width (firstn j ls) + i) out NaN
        = fmul (nth (flat_width (firstn j ls) + i) x_lm NaN)
               (nth (lmax - nth j ls 0 + i) x_m NaN).
Proof.
  intros Hne Hle Hxm Hxlm.
  destruct (split_blocks_widths ls x_lm Hxlm) as [Hbs Hcat].
  remember (split_blocks ls x_lm) as bs eqn:Ebs. clear Ebs.
  pose (F := fun lb : nat * list fval =>
               zip_mul (snd lb)
                       (firstn (2 * fst lb + 1) (skipn (lmax - fst lb) x_m))).
  pose proof (combined_blocks_widths lmax x_m ls bs Hxm Hle Hbs) as HF.
  fold F in HF.
  assert (Hrun : mul_m_lm ls x_m x_lm = Ok (concat (map F (combine ls bs)))).
  { unfold mul_m_lm.
    replace (length x_m / 2) with lmax
      by (rewrite Hxm; apply Nat.div_unique with (r := 1); lia).
    pose proof (mul_m_lm_loop_blocks lmax x_m Hxm ls bs [] [] Hbs Hle) as E.
    cbn [app length] in E. rewrite Hcat in E. rewrite E. cbn [bind app].
    fold F. destruct ls as [| l0 ls0]; [congruence |].
    inversion Hbs; subst. reflexivity. }
  exists (concat (map F (combine ls bs))).
  split; [exact Hrun |].
  split; [apply length_concat_widths; exact HF |].
  intros j i Hj Hi.
  rewrite (nth_concat_at ls _ j i HF Hj Hi).
  rewrite <- Hcat.
  rewrite (nth_concat_at ls bs j i Hbs Hj Hi).
  assert (Hlj : nth j ls 0 <= lmax).
  { apply (proj1 (Forall_forall _ ls) Hle). apply nth_In. exact Hj. }
  pose proof (nth_width ls bs j Hbs Hj) as Hbj.
  assert (Hcj : nth j (map F (combine ls bs)) []
                = F (nth j ls 0, nth j bs [])).
  { assert (Hlen : length ls = length bs)
      by (eapply Forall2_length; eauto).
    change (@nil fval) with (F (0, [])) at 1.
    rewrite map_nth, combine_nth by exact Hlen. reflexivity. }
  rewrite Hcj. unfold F. cbn [fst snd].
  rewrite nth_zip_mul
    by (rewrite ?Hbj, ?length_firstn, ?length_skipn, ?Hxm; lia).
  rewrite nth_firstn.
  destruct (Nat.ltb_spec i (2 * nth j ls 0 + 1)); [| lia].
  rewrite nth_skipn. reflexivity.
Qed.

Lemma mul_m_lm_entries_witness :
  [1] <> []
  /\ Forall (fun l => l <= 1) [1]
  /\ length [Fin 2; Fin 3; Fin 5] = 2 * 1 + 1
  /\ length [Fin 7; Fin 11; Fin 13] = flat_width [1]
  /\ exists out : list fval,
      mul_m_lm [1] [Fin 2; Fin 3; Fin 5] [Fin 7; Fin 11; Fin 13] = Ok out
      /\ length out = flat_width [1]
      /\ forall j i : nat,
          j < length [1] -> i < 2 * nth j [1] 0 + 1 ->
          nth (flat_width (firstn j [1]) + i) out NaN
          = fmul (nth (flat_width (firstn j [1]) + i)
                      [Fin 7; Fin 11; Fin 13] NaN)
                 (nth (1 - nth j [1] 0 + i) [Fin 2; Fin 3; Fin 5] NaN).
Proof.
  assert (H1 : [1] <> []) by discriminate.
  assert (H2 : Forall (fun l => l <= 1) [1]) by (constructor; [lia | constructor]).
  assert (H3 : length [Fin 2; Fin 3; Fin 5] = 2 * 1 + 1) by reflexivity.
  assert (H4 : length [Fin 7; Fin 11; Fin 13] = flat_width [1])
    by reflexivity.
  split; [exact H1 |]. split; [exact H2 |]. split; [exact H3 |].
  split; [exact H4 |].
  apply (mul_m_lm_entries [1] 1 [Fin 2; Fin 3; Fin 5]
                          [Fin 7; Fin 11; Fin 13] H1 H2 H3 H4).
Defined.

(* ------------------------------------------------------------------ *)
(** ** The harmonics as products of a polar and an azimuthal factor *)

(** The entries of the alpha row, counted from its middle. *)
Lemma alpha_row_entries (l : nat) (alpha : fval) :
  nth l (spherical_harmonics_alpha l alpha) NaN = Fin 1
  /\ forall m : nat,
      1 <= m <= l ->
      nth (l - m) (spherical_harmonics_alpha l alpha) NaN
      = fmul (Fin (sqrt 2)) (fsin (fmul (Fin (INR m)) alpha))
      /\ nth (l + m) (spherical_harmonics_alpha l alpha) NaN
         = fmul (Fin (sqrt 2)) (fcos (fmul (Fin (INR m)) alpha)).
Proof.
  unfold spherical_harmonics_alpha, arange_up, arange_down.
  set (s := fun m0 : R => fsin (fmul (Fin m0) alpha)).
  set (c := fun m0 : R => fcos (fmul (Fin m0) alpha)).
  assert (Hlen : length (map (fmul (Fin (sqrt 2)))
                             (map s (map INR (rev (seq 1 l))))) = l).
  { rewrite !length_map, length_rev, length_seq. reflexivity. }
  split.
  - rewrite app_nth2 by lia. rewrite Hlen, Nat.sub_diag. reflexivity.
  - intros m Hm. split.
    + rewrite app_nth1 by lia.
      rewrite !map_map.
      rewrite nth_indep with (d' := fmul (Fin (sqrt 2)) (s (INR 0)))
        by (rewrite length_map, length_rev, length_seq; lia).
      rewrite (map_nth (fun x => fmul (Fin (sqrt 2)) (s (INR x)))).
      rewrite rev_nth by (rewrite length_seq; lia).
      rewrite length_seq, seq_nth by lia.
      replace (1 + (l - S (l - m))) with m by lia. reflexivity.
    + rewrite app_nth2 by lia. rewrite Hlen.
      replace (l + m - l) with (S (m - 1)) by lia. simpl nth.
      rewrite !map_map.
      rewrite nth_indep with (d' := fmul (Fin (sqrt 2)) (c (INR 0)))
        by (rewrite length_map, length_seq; lia).
      rewrite (map_nth (fun x => fmul (Fin (sqrt 2)) (c (INR x)))).
      rewrite seq_nth by lia.
      replace (1 + (m - 1)) with m by lia. reflexivity.
Qed.

Lemma nth_combined (pre post : list nat) (l lmax i : nat)
      (x_m : list fval) (B : nat -> list fval) :
  length x_m = 2 * lmax + 1 ->
  (forall l0, length (B l0) = 2 * l0 + 1) ->
  Forall (fun l0 => l0 <= lmax) (pre ++ l :: post) ->
  i < 2 * l + 1 ->
  nth (flat_width pre + i) (combined (pre ++ l :: post) lmax x_m B) NaN
  = fmul (nth i (B l) NaN) (nth (lmax - l + i) x_m NaN).
Proof.
  intros Hxm HB Hle Hi. unfold combined.
  assert (Hl : l <= lmax).
  { apply (proj1 (Forall_forall _ _) Hle). apply in_elt. }
  assert (HF : forall ds,
             Forall (fun l0 => l0 <= lmax) ds ->
             Forall2 (fun l0 b => length b = 2 * l0 + 1) ds
                     (map (fun l0 =>
                             zip_mul (B l0)
                                     (firstn (2 * l0 + 1)
                                             (skipn (lmax - l0) x_m))) ds)).
  { induction ds as [| d ds IH]; intros Hds; [constructor |].
    apply Forall_cons_iff in Hds. destruct Hds as [Hd Hds].
    cbn [map]. constructor; [| apply IH; exact Hds].
    rewrite length_zip_mul, HB, length_firstn, length_skipn, Hxm. lia. }
  pose proof (nth_concat_at (pre ++ l :: post) _ (length pre) i
                (HF _ Hle)) as E.
  rewrite firstn_app, firstn_all, Nat.sub_diag in E. cbn [firstn] in E.
  rewrite app_nil_r, app_nth2, Nat.sub_diag in E by lia. cbn [nth] in E.
  rewrite E by (rewrite ?length_app; simpl; lia).
  rewrite nth_indep
    with (d' := (fun l0 => zip_mul (B l0)
                                   (firstn (2 * l0 + 1)
                                           (skipn (lmax - l0) x_m))) 0)
    by (rewrite length_map, length_app; simpl; lia).
  rewrite map_nth with (d := 0).
  rewrite app_nth2, Nat.sub_diag by lia. cbn [nth].
  rewrite nth_zip_mul
    by (rewrite ?HB, ?length_firstn, ?length_skipn, ?Hxm; lia).
  rewrite nth_firstn.
  destruct (Nat.ltb_spec i (2 * l + 1)); [| lia].
  rewrite nth_skipn. reflexivity.
Qed.

(** The entries of the block of a degree [l] in the output of the kernel. *)
Lemma harmonics_entries (pre post : list nat) (l lmax : nat)
      (alpha z y : fval) :
  py_max (pre ++ l :: post) = Ok lmax ->
  exists out : list fval,
    spherical_harmonics_alpha_z_y_jit (pre ++ l :: post) alpha z y = Ok out
    /\ nth (flat_width pre + l) out NaN
       = fmul (poly_value z y (nth 0 (legendre_table l) [])) (Fin 1)
    /\ forall m : nat,
        1 <= m <= l ->
        nth (flat_width pre + (l + m)) out NaN
        = fmul (poly_value z y (nth m (legendre_table l) []))
               (fmul (Fin (sqrt 2)) (fcos (fmul (Fin (INR m)) alpha)))
        /\ nth (flat_width pre + (l - m)) out NaN
           = fmul (poly_value z y (nth m (legendre_table l) []))
                  (fmul (Fin (sqrt 2)) (fsin (fmul (Fin (INR m)) alpha))).
Proof.
  intros Hmax. eexists. split.
  - apply spherical_harmonics_alpha_z_y_jit_value. exact Hmax.
  - assert (Hle : Forall (fun l0 => l0 <= lmax) (pre ++ l :: post))
      by (apply Forall_forall; intros l0 Hl0; eapply py_max_ge; eauto).
    assert (Hl : l <= lmax).
    { apply (proj1 (Forall_forall _ _) Hle). apply in_elt. }
    pose proof (length_spherical_harmonics_alpha lmax alpha) as Hxm.
    pose proof (fun l0 => length_block_of z y l0) as HB.
    destruct (alpha_row_entries lmax alpha) as [Hmid Hrow].
    split.
    + rewrite (nth_combined pre post l lmax l _ _ Hxm HB Hle) by lia.
      destruct (block_of_nth z y (legendre_table l) l 0
                  (length_legendre_table l) ltac:(lia)) as [H1 _].
      rewrite Nat.sub_0_r in H1. rewrite H1.
      replace (lmax - l + l) with lmax by lia. rewrite Hmid. reflexivity.
    + intros m Hm.
      destruct (block_of_nth z y (legendre_table l) l m
                  (length_legendre_table l) ltac:(lia)) as [H1 H2].
      destruct (Hrow m ltac:(lia)) as [Hs Hc]. split.
      * rewrite (nth_combined pre post l lmax (l + m) _ _ Hxm HB Hle) by lia.
        rewrite H2. replace (lmax - l + (l + m)) with (lmax + m) by lia.
        rewrite Hc. reflexivity.
      * rewrite (nth_combined pre post l lmax (l - m) _ _ Hxm HB Hle) by lia.
        rewrite H1. replace (lmax - l + (l - m)) with (lmax - m) by lia.
        rewrite Hs. reflexivity.
Qed.

Lemma py_max_cons (l : nat) (pre post : list nat) :
  exists lmax, py_max (pre ++ l :: post) = Ok lmax.
Proof. apply py_max_Ok. destruct pre; discriminate. Qed.

(** X4: in the output of the kernel (the generic path and the specialised
    one alike), the block of a degree [l] holds, for every order [m] from
    [1] to [l], the value of the polynomial of order [m] times
    [sqrt 2 * cos (m alpha)] at position [l + m] and times
    [sqrt 2 * sin (m alpha)] at position [l - m], and the value of the
    polynomial of order [0] times [1] in the middle. *)
Theorem harmonics_factorization (pre post : list nat) (l : nat)
        (alpha z y : fval) :
  exists (polys : list (list Term)) (out : list fval),
    poly_legendre (Z.of_nat l) = Ok polys
    /\ spherical_harmonics_alpha_z_y_cpu (pre ++ l :: post) alpha z y
       = Ok out
    /\ spherical_harmonics_alpha_z_y_jit (pre ++ l :: post) alpha z y
       = Ok out
    /\ nth (flat_width pre + l) out NaN
       = fmul (poly_value z y (nth 0 polys [])) (Fin 1)
    /\ forall m : nat,
        1 <= m <= l ->
        nth (flat_width pre + (l + m)) out NaN
        = fmul (poly_value z y (nth m polys []))
               (fmul (Fin (sqrt 2)) (fcos (fmul (Fin (INR m)) alpha)))
        /\ nth (flat_width pre + (l - m)) out NaN
           = fmul (poly_value z y (nth m polys []))
                  (fmul (Fin (sqrt 2)) (fsin (fmul (Fin (INR m)) alpha))).
Proof.
  destruct (py_max_cons l pre post) as [lmax Hmax].
  destruct (harmonics_entries pre post l lmax alpha z y Hmax)
    as (out & Hout & Hmid & Hm).
  exists (legendre_table l), out.
  split; [apply poly_legendre_table |].
  split; [rewrite <- jit_eq_cpu; exact Hout |].
  split; [exact Hout |]. split; [exact Hmid | exact Hm].
Qed.

(** The polynomial of degree zero is the constant [sqrt (1 / (4 pi))]. *)
Lemma order_value_degree_zero (z y : fval) :
  poly_value z y (nth 0 (legendre_table 0) []) = Fin (sqrt (1 / (4 * PI))).
Proof.
  change (legendre_table 0)
    with [[((scal (sympy_legendre 0 0) * 1)%R, (0, 0))]].
  cbn [nth poly_value fold_left fst snd fpow fmul fadd lift2].
  cbn [scal sympy_legendre Z.abs_nat fact Nat.add Nat.sub Nat.mul INR pow].
  replace ((2 * 0 + 1) / (4 * PI) * 1 / 1)%R with (1 / (4 * PI))%R
    by (field; apply PI_neq0).
  f_equal. field.
Qed.

(** X5: whatever the direction (the zero vector and NaN components
    included) and whatever the other degrees requested, the entry of degree
    [0] returned by the CPU Cartesian entry point is the constant
    [sqrt (1 / (4 pi))]. *)
Theorem degree_zero_constant (pre post : list nat) (xyz : Vec3) :
  exists out : list fval,
    spherical_harmonics_xyz_cpu (pre ++ 0 :: post) xyz = Ok out
    /\ nth (flat_width pre) out NaN = Fin (sqrt (1 / (4 * PI))).
Proof.
  unfold spherical_harmonics_xyz_cpu.
  destruct (normalize xyz) as [[x y] z].
  destruct (py_max_cons 0 pre post) as [lmax Hmax].
  destruct (harmonics_entries pre post 0 lmax (fatan2 y x) z
              (fsqrt (fadd (fpow x 2) (fpow y 2))) Hmax)
    as (out & Hout & Hmid & _).
  exists out. split; [exact Hout |].
  rewrite Nat.add_0_r in Hmid. rewrite Hmid, order_value_degree_zero.
  cbn [fmul lift2]. f_equal. ring.
Qed.

(* ------------------------------------------------------------------ *)
(** ** The accelerator path and the dispatchers *)

Lemma combine_app_same {A B} (a b : list A) (c d : list B) :
  length a = length c ->
  combine (a ++ b) (c ++ d) = combine a c ++ combine b d.
Proof.
  revert c. induction a as [| x a IH]; intros [| y c] H; simpl in H;
    try discriminate; [reflexivity |].
  simpl. rewrite IH by lia. reflexivity.
Qed.

Lemma zip_constant_sign (g : nat -> fval) (s : R) (a n : nat) :
  map (fun p : fval * R => fmul (fst p) (Fin (snd p)))
      (combine (map g (seq a n)) (repeat s n))
  = map (fun i => fmul (g (a + i)) (Fin s)) (seq 0 n).
Proof.
  revert a. induction n as [| n IH]; intros a; [reflexivity |].
  cbn [seq map repeat combine fst snd]. rewrite Nat.add_0_r. f_equal.
  rewrite IH, <- seq_shift, map_map. apply map_ext. intros i.
  replace (S a + i) with (a + S i) by lia. reflexivity.
Qed.

Lemma square_succ (n : nat) : S n ^ 2 = n ^ 2 + (2 * n + 1).
Proof. rewrite !Nat.pow_2_r. lia. Qed.

(** The sign correction, block by block. *)
Lemma zip_signs (g : nat -> fval) (N : nat) :
  map (fun p : fval * R => fmul (fst p) (Fin (snd p)))
      (combine (map g (seq 0 (N ^ 2))) (sign_blocks N))
  = flat_map (signed_block g) (seq 0 N).
Proof.
  induction N as [| N IH]; [reflexivity |].
  rewrite square_succ, seq_app, map_app, sign_blocks_S.
  rewrite combine_app_same
    by (rewrite length_map, length_seq, length_sign_blocks; reflexivity).
  rewrite map_app, IH, seq_S, flat_map_app. f_equal.
  cbn [flat_map Nat.add]. rewrite app_nil_r.
  apply zip_constant_sign.
Qed.

Lemma length_signed_block (g : nat -> fval) (l : nat) :
  length (signed_block g l) = 2 * l + 1.
Proof. unfold signed_block. rewrite length_map, length_seq. reflexivity. Qed.

Lemma length_signed_blocks (g : nat -> fval) (N : nat) :
  length (flat_map (signed_block g) (seq 0 N)) = N ^ 2.
Proof.
  induction N as [| N IH]; [reflexivity |].
  rewrite seq_S, flat_map_app, length_app, IH. cbn [flat_map Nat.add].
  rewrite app_nil_r, length_signed_block, square_succ. reflexivity.
Qed.

Lemma length_flat_signed (g : nat -> fval) (ls : list nat) :
  length (flat_map (signed_block g) ls) = flat_width ls.
Proof.
  induction ls as [| l ls IH]; [reflexivity |].
  cbn [flat_map]. rewrite length_app, length_signed_block, IH. reflexivity.
Qed.

(** Rows [l^2 .. (l + 1)^2 - 1] of the corrected buffer. *)
Lemma slice_signed_blocks (g : nat -> fval) (N l : nat) :
  l < N ->
  pyslice (flat_map (signed_block g) (seq 0 N))
          (Z.of_nat (l ^ 2)) (Z.of_nat ((l + 1) ^ 2))
  = signed_block g l.
Proof.
  intros Hl.
  assert (Hsq : (l + 1) ^ 2 = l ^ 2 + (2 * l + 1))
    by (replace (l + 1) with (S l) by lia; apply square_succ).
  assert (Hsplit : seq 0 N = seq 0 l ++ l :: seq (S l) (N - S l)).
  { replace N with (l + S (N - S l)) at 1 by lia.
    rewrite seq_app. reflexivity. }
  assert (Hmono : (l + 1) ^ 2 <= N ^ 2).
  { apply Nat.pow_le_mono_l. lia. }
  rewrite pyslice_nat by (rewrite length_signed_blocks; lia).
  rewrite Hsplit, flat_map_app. cbn [flat_map].
  rewrite skipn_app, length_signed_blocks.
  rewrite skipn_all2 by (rewrite length_signed_blocks; lia).
  rewrite Nat.sub_diag. cbn [skipn app].
  replace ((l + 1) ^ 2 - l ^ 2) with (2 * l + 1) by lia.
  rewrite firstn_app, length_signed_block, Nat.sub_diag, firstn_O, app_nil_r.
  apply firstn_all2. rewrite length_signed_block. lia.
Qed.

Lemma list_nat_eqb_eq (a b : list nat) : list_nat_eqb a b = true -> a = b.
Proof.
  unfold list_nat_eqb.
  destruct (list_eq_dec Nat.eq_dec a b); [auto | discriminate].
Qed.

(** The accelerator path on a non-empty degree set. *)
Lemma spherical_harmonics_xyz_cuda_value
      (kernel : nat -> Vec3 -> nat -> fval) (ls : list nat) (xyz : Vec3)
      (lmax : nat) :
  py_max ls = Ok lmax ->
  spherical_harmonics_xyz_cuda (Some kernel) ls xyz
  = Ok (flat_map
          (signed_block (kernel ((lmax + 1) ^ 2) (normalize xyz))) ls).
Proof.
  intros Hmax. unfold spherical_harmonics_xyz_cuda.
  rewrite Hmax. cbn [bind].
  rewrite norm_coef_sign_blocks, zip_signs.
  set (g := kernel ((lmax + 1) ^ 2) (normalize xyz)).
  destruct (list_nat_eqb ls (seq 0 (lmax + 1))) eqn:E.
  - apply list_nat_eqb_eq in E. rewrite <- E. reflexivity.
  - assert (Hne : ls <> []) by (intros ->; discriminate).
    assert (Hsl : map (fun l => pyslice (flat_map (signed_block g)
                                                  (seq 0 (lmax + 1)))
                                        (Z.of_nat (l ^ 2))
                                        (Z.of_nat ((l + 1) ^ 2))) ls
                  = map (signed_block g) ls).
    { apply map_ext_in. intros l Hl. apply slice_signed_blocks.
      pose proof (py_max_ge ls lmax l Hmax Hl). lia. }
    rewrite Hsl, flat_map_concat_map.
    destruct ls; [congruence | reflexivity].
Qed.

(** X6: with the extension installed, the accelerator path returns, for
    every non-empty degree set and in the order of [ls], the rows
    [l^2 .. (l + 1)^2 - 1] of the buffer filled for [max(ls)], each
    multiplied by [(-1)^l]; the contiguous set [0 .. lmax], returned
    without selection, follows the same formula. *)
Theorem spherical_harmonics_xyz_cuda_blocks
        (kernel : nat -> Vec3 -> nat -> fval) (ls : list nat) (xyz : Vec3)
        (lmax : nat) :
  py_max ls = Ok lmax ->
  spherical_harmonics_xyz_cuda (Some kernel) ls xyz
  = Ok (flat_map
          (fun l =>
             map (fun i =>
                    fmul (kernel ((lmax + 1) ^ 2) (normalize xyz) (l ^ 2 + i))
                         (Fin ((-1) ^ l)))
                 (seq 0 (2 * l + 1)))
          ls)
  /\ length (flat_map
               (fun l =>
                  map (fun i =>
                         fmul (kernel ((lmax + 1) ^ 2) (normalize xyz)
                                      (l ^ 2 + i))
                              (Fin ((-1) ^ l)))
                      (seq 0 (2 * l + 1)))
               ls)
     = flat_width ls.
Proof.
  intros Hmax. split.
  - apply spherical_harmonics_xyz_cuda_value. exact Hmax.
  - apply (length_flat_signed (kernel ((lmax + 1) ^ 2) (normalize xyz))).
Qed.

Lemma spherical_harmonics_xyz_cuda_blocks_witness :
  py_max [2; 0] = Ok 2
  /\ spherical_harmonics_xyz_cuda
       (Some (fun _ _ i => Fin (INR i))) [2; 0] (Fin 0, Fin 0, Fin 1)
     = Ok (flat_map
             (fun l =>
                map (fun i =>
                       fmul ((fun _ _ i0 => Fin (INR i0))
                               ((2 + 1) ^ 2)
                               (normalize (Fin 0, Fin 0, Fin 1))
                               (l ^ 2 + i))
                            (Fin ((-1) ^ l)))
                    (seq 0 (2 * l + 1)))
             [2; 0])
  /\ length (flat_map
               (fun l =>
                  map (fun i =>
                         fmul ((fun _ _ i0 => Fin (INR i0))
                                 ((2 + 1) ^ 2)
                                 (normalize (Fin 0, Fin 0, Fin 1))
                                 (l ^ 2 + i))
                              (Fin ((-1) ^ l)))
                      (seq 0 (2 * l + 1)))
               [2; 0])
     = flat_width [2; 0].
Proof.
  assert (H : py_max [2; 0] = Ok 2) by reflexivity.
  split; [exact H |].
  apply (spherical_harmonics_xyz_cuda_blocks
           (fun _ _ i => Fin (INR i)) [2; 0] (Fin 0, Fin 0, Fin 1) 2 H).
Defined.

Lemma spherical_harmonics_alpha_z_y_jit_nil (alpha z y : fval) :
  spherical_harmonics_alpha_z_y_jit [] alpha z y = Raise ValueError.
Proof. reflexivity. Qed.

Lemma spherical_harmonics_xyz_cpu_nil (xyz : Vec3) :
  spherical_harmonics_xyz_cpu [] xyz = Raise ValueError.
Proof.
  unfold spherical_harmonics_xyz_cpu. destruct (normalize xyz) as [[x y] z].
  reflexivity.
Qed.

(** The CPU Cartesian entry point: a vector of width [sum (2 l + 1)], or
    [ValueError] on the empty degree set. *)
Lemma spherical_harmonics_alpha_z_y_jit_outcome (ls : list nat)
      (alpha z y : fval) :
  match spherical_harmonics_alpha_z_y_jit ls alpha z y with
  | Ok out => length out = flat_width ls
  | Raise e => ls = [] /\ e = ValueError
  end.
Proof.
  destruct ls as [| l0 ls0] eqn:E; [split; reflexivity |]. rewrite <- E.
  destruct (spherical_harmonics_alpha_z_y_jit_returns ls alpha z y)
    as (out & Hout & Hlen); [subst; discriminate |].
  rewrite Hout. exact Hlen.
Qed.

Lemma spherical_harmonics_xyz_cpu_outcome (ls : list nat) (xyz : Vec3) :
  match spherical_harmonics_xyz_cpu ls xyz with
  | Ok out => length out = flat_width ls
  | Raise e => ls = [] /\ e = ValueError
  end.
Proof.
  unfold spherical_harmonics_xyz_cpu.
  destruct (normalize xyz) as [[x y] z].
  apply spherical_harmonics_alpha_z_y_jit_outcome.
Qed.

Lemma spherical_harmonics_xyz_cuda_outcome (cuda_rsh : Accelerator)
      (ls : list nat) (xyz : Vec3) :
  match spherical_harmonics_xyz_cuda cuda_rsh ls xyz with
  | Ok out => length out = flat_width ls
  | Raise e => cuda_rsh = None /\ e = ImportError
               \/ ls = [] /\ e = ValueError
  end.
Proof.
  destruct cuda_rsh as [kernel |]; [| left; split; reflexivity].
  destruct ls as [| l0 ls0] eqn:E; [right; split; reflexivity |].
  rewrite <- E.
  destruct (py_max_Ok ls ltac:(subst; discriminate)) as [lmax Hmax].
  rewrite (spherical_harmonics_xyz_cuda_value kernel ls xyz lmax Hmax).
  apply length_flat_signed.
Qed.

(** X7: [spherical_harmonics_xyz] never lets the missing extension show:
    without the accelerator, on a CPU tensor, with gradients tracked, or
    above degree ten, it is the CPU path; and on every path it returns a
    vector of width [sum (2 l + 1)], or raises [ValueError] on the empty
    degree set. *)
Theorem spherical_harmonics_xyz_dispatch (cuda_rsh : Accelerator)
        (device : Device) (requires_grad : bool) (ls : list nat)
        (xyz : Vec3) :
  (cuda_rsh = None \/ device = cpu \/ requires_grad = true
   \/ (exists lmax, py_max ls = Ok lmax /\ 10 < lmax) ->
   spherical_harmonics_xyz cuda_rsh device requires_grad ls xyz
   = spherical_harmonics_xyz_cpu ls xyz)
  /\ match spherical_harmonics_xyz cuda_rsh device requires_grad ls xyz with
     | Ok out => length out = flat_width ls
     | Raise e => ls = [] /\ e = ValueError
     end.
Proof.
  pose proof (spherical_harmonics_xyz_cpu_outcome ls xyz) as Hcpu.
  pose proof (spherical_harmonics_xyz_cuda_outcome cuda_rsh ls xyz) as Hcuda.
  unfold spherical_harmonics_xyz.
  destruct (is_cuda device && negb requires_grad) eqn:Econd.
  2: { split; [reflexivity | exact Hcpu]. }
  apply andb_true_iff in Econd. destruct Econd as [Hdev Hgrad].
  destruct ls as [| l0 ls0] eqn:E.
  { cbn [py_max bind]. split; [| split; reflexivity].
    intros _. rewrite spherical_harmonics_xyz_cpu_nil. reflexivity. }
  rewrite <- E in *.
  destruct (py_max_Ok ls ltac:(subst; discriminate)) as [lmax Hmax].
  rewrite Hmax. cbn [bind].
  destruct (Nat.leb_spec lmax 10) as [Hle | Hgt].
  2: { split; [reflexivity | exact Hcpu]. }
  split.
  - intros [-> | [-> | [-> | (lmax' & Hmax' & Hgt)]]].
    + reflexivity.
    + discriminate.
    + discriminate.
    + try rewrite Hmax in Hmax'. inversion Hmax'. lia.
  - destruct (spherical_harmonics_xyz_cuda cuda_rsh ls xyz) as [out | e].
    + exact Hcuda.
    + destruct Hcuda as [[_ ->] | [Hnil _]]; [exact Hcpu |].
      subst ls. discriminate.
Qed.

(** X8: [spherical_harmonics_alpha_beta] makes the same choice: without the
    accelerator, with an angle on the CPU or tracking gradients, or above
    degree ten, it is the kernel on [(alpha, cos beta, |sin beta|)]; and on
    every path it returns a vector of width [sum (2 l + 1)], or raises
    [ValueError] on the empty degree set. *)
Theorem spherical_harmonics_alpha_beta_dispatch (cuda_rsh : Accelerator)
        (alpha_device beta_device : Device)
        (alpha_requires_grad beta_requires_grad : bool)
        (ls : list nat) (alpha beta : fval) :
  (cuda_rsh = None \/ alpha_device = cpu \/ beta_device = cpu
   \/ alpha_requires_grad = true \/ beta_requires_grad = true
   \/ (exists lmax, py_max ls = Ok lmax /\ 10 < lmax) ->
   spherical_harmonics_alpha_beta cuda_rsh alpha_device beta_device
     alpha_requires_grad beta_requires_grad ls alpha beta
   = spherical_harmonics_alpha_z_y_jit ls alpha (fcos beta)
       (fabs (fsin beta)))
  /\ match spherical_harmonics_alpha_beta cuda_rsh alpha_device beta_device
             alpha_requires_grad beta_requires_grad ls alpha beta with
     | Ok out => length out = flat_width ls
     | Raise e => ls = [] /\ e = ValueError
     end.
Proof.
  pose proof (spherical_harmonics_alpha_z_y_jit_outcome
                ls alpha (fcos beta) (fabs (fsin beta))) as Hcpu.
  set (xyz := (fmul (fsin beta) (fcos alpha),
               fmul (fsin beta) (fsin alpha), fcos beta)).
  pose proof (spherical_harmonics_xyz_cuda_outcome cuda_rsh ls xyz) as Hcuda.
  unfold spherical_harmonics_alpha_beta. fold xyz.
  destruct (is_cuda alpha_device && is_cuda beta_device
            && negb alpha_requires_grad && negb beta_requires_grad)
    eqn:Econd.
  2: { split; [reflexivity | exact Hcpu]. }
  rewrite !andb_true_iff in Econd.
  destruct Econd as [[[Hda Hdb] Hga] Hgb].
  destruct ls as [| l0 ls0] eqn:E.
  { cbn [py_max bind]. split; [| split; reflexivity].
    intros _. rewrite spherical_harmonics_alpha_z_y_jit_nil. reflexivity. }
  rewrite <- E in *.
  destruct (py_max_Ok ls ltac:(subst; discriminate)) as [lmax Hmax].
  rewrite Hmax. cbn [bind].
  destruct (Nat.leb_spec lmax 10) as [Hle | Hgt].
  2: { split; [reflexivity | exact Hcpu]. }
  split.
  - intros [-> | [-> | [-> | [-> | [-> | (lmax' & Hmax' & Hgt)]]]]];
      try discriminate; [reflexivity |].
    try rewrite Hmax in Hmax'. inversion Hmax'. lia.
  - destruct (spherical_harmonics_xyz_cuda cuda_rsh ls xyz) as [out | e].
    + exact Hcuda.
    + destruct Hcuda as [[_ ->] | [Hnil _]]; [exact Hcpu |].
      subst ls. discriminate.
Qed.

(* ------------------------------------------------------------------ *)
(** ** Invariants of the kernel cache *)

Module KernelCacheInvariants.
Import KernelCache.

Lemma key_eqb_refl (k : list nat) : key_eqb k k = true.
Proof.
  unfold key_eqb. destruct (list_eq_dec Nat.eq_dec k k); congruence.
Qed.

Lemma find_In (c : t) (k : list nat) (f : Jit.Kernel) :
  find c k = Some f -> In k (map fst c).
Proof.
  induction c as [| [k' v] c IH]; intros H; [discriminate |].
  simpl in H. destruct (key_eqb k k') eqn:E.
  - left. symmetry. apply KernelCacheFacts.key_eqb_eq. exact E.
  - right. apply IH. exact H.
Qed.

Lemma remove_not_In (c : t) (k : list nat) : ~ In k (map fst (remove c k)).
Proof.
  unfold remove. intros H. apply in_map_iff in H.
  destruct H as ([k' v] & Hk & Hin). simpl in Hk. subst k'.
  apply filter_In in Hin. destruct Hin as [_ Hn]. simpl in Hn.
  rewrite key_eqb_refl in Hn. discriminate.
Qed.

Lemma NoDup_keys_filter (f : list nat * Jit.Kernel -> bool) (c : t) :
  NoDup (map fst c) -> NoDup (map fst (filter f c)).
Proof.
  induction c as [| e c IH]; intros H; [constructor |].
  inversion H as [| ? ? Hnot Hrest]; subst. simpl.
  destruct (f e); [| apply IH; exact Hrest].
  simpl. constructor; [| apply IH; exact Hrest].
  intros Hin. apply Hnot. apply in_map_iff in Hin.
  destruct Hin as (e' & He & Hin). apply filter_In in Hin.
  apply in_map_iff. exists e'. tauto.
Qed.

Lemma NoDup_keys_firstn (n : nat) (c : t) :
  NoDup (map fst c) -> NoDup (map fst (firstn n c)).
Proof.
  revert n. induction c as [| e c IH]; intros [| n] H; simpl;
    try constructor.
  - inversion H; subst. intros Hin. apply H2.
    apply in_map_iff in Hin. destruct Hin as (e' & He & Hin).
    apply in_map_iff. exists e'. split; [exact He |].
    rewrite <- (firstn_skipn n c). apply in_or_app. left. exact Hin.
  - inversion H; subst. apply IH. assumption.
Qed.

Lemma find_None_not_In (c : t) (k : list nat) :
  find c k = None -> ~ In k (map fst c).
Proof.
  induction c as [| [k' v] c IH]; intros H; [intros []|].
  simpl in H. destruct (key_eqb k k') eqn:E; [discriminate |].
  intros [Hk | Hin]; [| apply IH; assumption].
  simpl in Hk. subst k'. rewrite key_eqb_refl in E. discriminate.
Qed.

Lemma length_remove_found (c : t) (k : list nat) (f : Jit.Kernel) :
  find c k = Some f -> S (length (remove c k)) <= length c.
Proof.
  induction c as [| [k' v] c IH]; intros H; [discriminate |].
  simpl in H. unfold remove. cbn [filter fst].
  destruct (key_eqb k k') eqn:E; cbn [negb].
  - pose proof (filter_length_le
                  (fun e : list nat * Jit.Kernel => negb (key_eqb k (fst e)))
                  c).
    simpl. lia.
  - simpl. apply IH in H. unfold remove in H. lia.
Qed.

Lemma call_keeps_bound (c : t) (ls : list nat) :
  length c <= maxsize -> length (snd (call c ls)) <= maxsize.
Proof.
  intros H. unfold call. destruct (find c ls) as [f |] eqn:E.
  - cbn [snd length]. pose proof (length_remove_found c ls f E). lia.
  - destruct (_spherical_harmonics_alpha_z_y_jit ls); cbn [snd];
      [| exact H].
    rewrite length_firstn. lia.
Qed.

Lemma call_keeps_NoDup (c : t) (ls : list nat) :
  NoDup (map fst c) -> NoDup (map fst (snd (call c ls))).
Proof.
  intros H. unfold call. destruct (find c ls) as [f |] eqn:E.
  - cbn [snd map fst]. constructor; [apply remove_not_In |].
    apply NoDup_keys_filter. exact H.
  - destruct (_spherical_harmonics_alpha_z_y_jit ls); cbn [snd];
      [| exact H].
    apply NoDup_keys_firstn. cbn [map fst].
    constructor; [apply find_None_not_In; exact E | exact H].
Qed.

Lemma reachable_bound (c : t) : reachable c -> length c <= maxsize.
Proof.
  induction 1 as [| c ls _ IH];
    [unfold maxsize; simpl; lia | apply call_keeps_bound; exact IH].
Qed.

Lemma reachable_NoDup (c : t) : reachable c -> NoDup (map fst c).
Proof.
  induction 1 as [| c ls _ IH];
    [constructor | apply call_keeps_NoDup; exact IH].
Qed.

Lemma call_then_find (c : t) (ls : list nat) :
  match fst (call c ls) with
  | Ok f => find (snd (call c ls)) ls = Some f
  | Raise _ => snd (call c ls) = c
  end.
Proof.
  unfold call. destruct (find c ls) as [f |] eqn:E.
  - cbn [fst snd find]. rewrite key_eqb_refl. reflexivity.
  - destruct (_spherical_harmonics_alpha_z_y_jit ls); cbn [fst snd];
      [| reflexivity].
    unfold maxsize. cbn [firstn find]. rewrite key_eqb_refl. reflexivity.
Qed.

End KernelCacheInvariants.

(** X9: in every state the kernel cache can reach, it holds at most 128
    entries, no two of them for the same degree tuple, and each entry is
    the kernel its tuple compiles to; a call that returns a kernel leaves
    it stored under its tuple, and a call that raises leaves the cache as
    it was. *)
Theorem kernel_cache_invariants (c : KernelCache.t) :
  KernelCache.reachable c ->
  length c <= 128
  /\ NoDup (map fst c)
  /\ (forall (ls : list nat) (f : Jit.Kernel),
         KernelCache.find c ls = Some f ->
         _spherical_harmonics_alpha_z_y_jit ls = Ok f)
  /\ forall ls : list nat,
      match fst (KernelCache.call c ls) with
      | Ok f => KernelCache.find (snd (KernelCache.call c ls)) ls = Some f
      | Raise _ => snd (KernelCache.call c ls) = c
      end.
Proof.
  intros Hc.
  split; [apply (KernelCacheInvariants.reachable_bound c Hc) |].
  split; [apply KernelCacheInvariants.reachable_NoDup; exact Hc |].
  split.
  - intros ls f Hf. apply (KernelCacheFacts.find_sound c ls f); [| exact Hf].
    apply KernelCacheFacts.reachable_sound. exact Hc.
  - intros ls. apply KernelCacheInvariants.call_then_find.
Qed.

Lemma kernel_cache_invariants_witness :
  KernelCache.reachable (snd (KernelCache.call [] [0; 1]))
  /\ length (snd (KernelCache.call [] [0; 1])) <= 128
  /\ NoDup (map fst (snd (KernelCache.call [] [0; 1])))
  /\ (forall (ls : list nat) (f : Jit.Kernel),
         KernelCache.find (snd (KernelCache.call [] [0; 1])) ls = Some f ->
         _spherical_harmonics_alpha_z_y_jit ls = Ok f)
  /\ forall ls : list nat,
      match fst (KernelCache.call (snd (KernelCache.call [] [0; 1])) ls) with
      | Ok f =>
          KernelCache.find
            (snd (KernelCache.call (snd (KernelCache.call [] [0; 1])) ls)) ls
          = Some f
      | Raise _ =>
          snd (KernelCache.call (snd (KernelCache.call [] [0; 1])) ls)
          = snd (KernelCache.call [] [0; 1])
      end.
Proof.
  assert (H : KernelCache.reachable (snd (KernelCache.call [] [0; 1])))
    by (apply KernelCache.reach_call, KernelCache.reach_empty).
  split; [exact H | apply (kernel_cache_invariants _ H)].
Defined.

(* ------------------------------------------------------------------ *)
(** ** The angles of a direction *)









(* ------------------------------------------------------------------ *)
(** ** The azimuthal factor at real angles *)

Lemma spherical_harmonics_alpha_Fin (l : nat) (a : R) :
  spherical_harmonics_alpha l (Fin a) = map Fin (alpha_row l a).
Proof.
  unfold spherical_harmonics_alpha, alpha_row.
  rewrite !map_app, !map_map. reflexivity.
Qed.

Lemma rsum_app (xs ys : list R) : rsum (xs ++ ys) = (rsum xs + rsum ys)%R.
Proof.
  induction xs as [| x xs IH]; [simpl; ring |].
  cbn [app rsum fold_right]. fold (rsum (xs ++ ys)). fold (rsum xs).
  rewrite IH. ring.
Qed.

Lemma rsum_rev (xs : list R) : rsum (rev xs) = rsum xs.
Proof.
  induction xs as [| x xs IH]; [reflexivity |].
  cbn [rev]. rewrite rsum_app, IH. cbn [rsum fold_right]. fold (rsum xs).
  ring.
Qed.

Lemma rsum_map_plus {A} (f g : A -> R) (xs : list A) :
  (rsum (map f xs) + rsum (map g xs))%R
  = rsum (map (fun x => (f x + g x)%R) xs).
Proof.
  induction xs as [| x xs IH]; [simpl; ring |].
  cbn [map rsum fold_right].
  fold (rsum (map f xs)). fold (rsum (map g xs)).
  fold (rsum (map (fun x0 => (f x0 + g x0)%R) xs)).
  rewrite <- IH. ring.
Qed.

Lemma rsum_map_const {A} (c : R) (f : A -> R) (xs : list A) :
  (forall x, f x = c) -> rsum (map f xs) = (c * INR (length xs))%R.
Proof.
  intros H. induction xs as [| x xs IH]; [simpl; ring |].
  cbn [map rsum fold_right length]. fold (rsum (map f xs)).
  rewrite IH, H, S_INR. ring.
Qed.

Lemma sqrt2_sqr : (sqrt 2 * sqrt 2 = 2)%R.
Proof. apply sqrt_sqrt. lra. Qed.

(** X11: at every real angle the alpha row consists of real numbers whose
    squares add up to [2 l + 1]. *)
Theorem spherical_harmonics_alpha_norm (l : nat) (a : R) :
  exists row : list R,
    spherical_harmonics_alpha l (Fin a) = map Fin row
    /\ rsum (map (fun r => (r ^ 2)%R) row) = (2 * INR l + 1)%R.
Proof.
  exists (alpha_row l a). split; [apply spherical_harmonics_alpha_Fin |].
  unfold alpha_row, arange_down, arange_up.
  rewrite !map_app, !rsum_app, !map_map, map_rev, rsum_rev.
  cbn [map rsum fold_right].
  set (S2 := rsum (map (fun x => ((sqrt 2 * sin (INR x * a)) ^ 2)%R)
                       (seq 1 l))).
  set (C2 := rsum (map (fun x => ((sqrt 2 * cos (INR x * a)) ^ 2)%R)
                       (seq 1 l))).
  assert (E : (S2 + C2 = 2 * INR l)%R).
  { unfold S2, C2. rewrite rsum_map_plus.
    rewrite (rsum_map_const 2%R), length_seq; [reflexivity |].
    intros k. pose proof (sin2_cos2 (INR k * a)) as H. unfold Rsqr in H.
    pose proof sqrt2_sqr as H2.
    replace ((sqrt 2 * sin (INR k * a)) ^ 2
             + (sqrt 2 * cos (INR k * a)) ^ 2)%R
      with ((sqrt 2 * sqrt 2)
            * (sin (INR k * a) * sin (INR k * a)
               + cos (INR k * a) * cos (INR k * a)))%R by ring.
    rewrite H, H2. ring. }
  lra.
Qed.

Lemma alpha_row_period (l : nat) (a : R) :
  alpha_row l (a + 2 * PI) = alpha_row l a.
Proof.
  unfold alpha_row, arange_down, arange_up.
  rewrite !map_map. f_equal; [| f_equal]; apply map_ext; intros k.
  - replace (INR k * (a + 2 * PI))%R with (INR k * a + 2 * INR k * PI)%R
      by ring.
    rewrite sin_period. reflexivity.
  - replace (INR k * (a + 2 * PI))%R with (INR k * a + 2 * INR k * PI)%R
      by ring.
    rewrite cos_period. reflexivity.
Qed.

(** X12: the harmonics are periodic in [alpha]: adding [2 pi] to a real
    angle does not change what the kernel returns. *)
Theorem harmonics_alpha_period (ls : list nat) (a : R) (z y : fval) :
  spherical_harmonics_alpha_z_y_jit ls (Fin (a + 2 * PI)) z y
  = spherical_harmonics_alpha_z_y_jit ls (Fin a) z y
  /\ spherical_harmonics_alpha_z_y_cpu ls (Fin (a + 2 * PI)) z y
     = spherical_harmonics_alpha_z_y_cpu ls (Fin a) z y.
Proof.
  assert (H : spherical_harmonics_alpha_z_y_cpu ls (Fin (a + 2 * PI)) z y
              = spherical_harmonics_alpha_z_y_cpu ls (Fin a) z y).
  { unfold spherical_harmonics_alpha_z_y_cpu.
    destruct (py_max ls) as [lmax | e]; [| reflexivity]. cbn [bind].
    rewrite !spherical_harmonics_alpha_Fin, alpha_row_period. reflexivity. }
  split; [rewrite !jit_eq_cpu |]; exact H.
Qed.

(** X13: negating a real angle [alpha] keeps the middle entry and the
    cosine entries of every block and negates its sine entries. *)
Theorem harmonics_alpha_reflection (pre post : list nat) (l : nat)
        (a : R) (z y : fval) :
  exists out out' : list fval,
    spherical_harmonics_alpha_z_y_jit (pre ++ l :: post) (Fin a) z y = Ok out
    /\ spherical_harmonics_alpha_z_y_jit (pre ++ l :: post) (Fin (- a)) z y
       = Ok out'
    /\ nth (flat_width pre + l) out' NaN = nth (flat_width pre + l) out NaN
    /\ forall m : nat,
        1 <= m <= l ->
        nth (flat_width pre + (l + m)) out' NaN
        = nth (flat_width pre + (l + m)) out NaN
        /\ nth (flat_width pre + (l - m)) out' NaN
           = fmul (Fin (-1)) (nth (flat_width pre + (l - m)) out NaN).
Proof.
  destruct (py_max_cons l pre post) as [lmax Hmax].
  destruct (harmonics_entries pre post l lmax (Fin a) z y Hmax)
    as (out & Hout & Hmid & Hm).
  destruct (harmonics_entries pre post l lmax (Fin (- a)) z y Hmax)
    as (out' & Hout' & Hmid' & Hm').
  exists out, out'. split; [exact Hout |]. split; [exact Hout' |].
  split; [rewrite Hmid, Hmid'; reflexivity |].
  intros m Hlm.
  destruct (Hm m Hlm) as [Hc Hs]. destruct (Hm' m Hlm) as [Hc' Hs'].
  rewrite Hc, Hs, Hc', Hs'. cbn [fmul fcos fsin lift1 lift2].
  replace (INR m * - a)%R with (- (INR m * a))%R by ring.
  rewrite cos_neg, sin_neg. split; [reflexivity |].
  destruct (poly_value z y (nth m (legendre_table l) [])) as [p |];
    [| reflexivity].
  cbn [fmul lift2]. f_equal. ring.
Qed.

(* ------------------------------------------------------------------ *)
(** ** Parity of the polar factor *)

Lemma fold_value_Fin (z y : R) (poly : list Term) (acc : R) :
  fold_left (fun a t =>
               fadd a (fmul (fmul (Fin (fst t)) (fpow (Fin z) (fst (snd t))))
                            (fpow (Fin y) (snd (snd t)))))
            poly (Fin acc)
  = Fin (fold_left (fun a t =>
                      (a + fst t * z ^ fst (snd t) * y ^ snd (snd t))%R)
                   poly acc).
Proof.
  revert acc. induction poly as [| t poly IH]; intros acc; [reflexivity |].
  cbn [fold_left]. rewrite !fpow_Fin. cbn [fmul fadd lift2]. apply IH.
Qed.

Lemma poly_value_Fin (z y : R) (poly : list Term) :
  poly_value (Fin z) (Fin y) poly = Fin (poly_real z y poly).
Proof. apply fold_value_Fin. Qed.

(** Changing every term by the same factor changes the sum by it. *)
Lemma fold_scaled (z y z' y' s : R) (poly : list Term) (acc : R) :
  (forall t, In t poly ->
             (z' ^ fst (snd t) * y' ^ snd (snd t)
              = s * (z ^ fst (snd t) * y ^ snd (snd t)))%R) ->
  fold_left (fun a t =>
               (a + fst t * z' ^ fst (snd t) * y' ^ snd (snd t))%R)
            poly (s * acc)%R
  = (s * fold_left (fun a t =>
                      (a + fst t * z ^ fst (snd t) * y ^ snd (snd t))%R)
                   poly acc)%R.
Proof.
  revert acc. induction poly as [| t poly IH]; intros acc H; [reflexivity |].
  cbn [fold_left]. rewrite <- IH by (intros; apply H; right; assumption).
  f_equal. specialize (H t (or_introl eq_refl)).
  replace (fst t * z' ^ fst (snd t) * y' ^ snd (snd t))%R
    with (fst t * (z' ^ fst (snd t) * y' ^ snd (snd t)))%R by ring.
  rewrite H. ring.
Qed.

Lemma poly_real_scaled (z y z' y' s : R) (poly : list Term) :
  (forall t, In t poly ->
             (z' ^ fst (snd t) * y' ^ snd (snd t)
              = s * (z ^ fst (snd t) * y ^ snd (snd t)))%R) ->
  poly_real z' y' poly = (s * poly_real z y poly)%R.
Proof.
  intros H. unfold poly_real.
  rewrite <- (fold_scaled z y z' y' s poly 0%R H).
  f_equal. ring.
Qed.

Lemma pow_opp (x : R) (n : nat) : ((- x) ^ n = (-1) ^ n * x ^ n)%R.
Proof.
  replace (- x)%R with (-1 * x)%R by ring. apply Rpow_mult_distr.
Qed.

Lemma pow_m1_same_parity (a b : nat) :
  Nat.even (a + b) = true -> ((-1) ^ a = (-1) ^ b)%R.
Proof.
  intros H. apply Nat.even_spec in H. destruct H as [k Hk].
  assert (H1 : ((-1) ^ a * (-1) ^ b = 1)%R).
  { rewrite <- pow_add, Hk. apply pow_1_even. }
  assert (H2 : ((-1) ^ b * (-1) ^ b = 1)%R).
  { rewrite <- pow_add. replace (b + b) with (2 * b) by lia.
    apply pow_1_even. }
  replace ((-1) ^ a)%R with ((-1) ^ a * ((-1) ^ b * (-1) ^ b))%R
    by (rewrite H2; ring).
  rewrite <- Rmult_assoc, H1. ring.
Qed.

Lemma order_real_parity (l m : nat) (z y : R) :
  poly_real (- z) y (nth m (legendre_table l) [])
  = ((-1) ^ (l - m) * poly_real z y (nth m (legendre_table l) []))%R
  /\ poly_real z (- y) (nth m (legendre_table l) [])
     = ((-1) ^ m * poly_real z y (nth m (legendre_table l) []))%R.
Proof.
  destruct (Nat.le_gt_cases m l) as [Hm | Hm].
  2: { rewrite nth_overflow by (rewrite length_legendre_table; lia).
       unfold poly_real. simpl. split; ring. }
  assert (Hnth : nth_error (legendre_table l) m
                 = Some (nth m (legendre_table l) [])).
  { apply nth_error_nth'. rewrite length_legendre_table. lia. }
  split; apply poly_real_scaled; intros t Ht;
    destruct (legendre_table_term l m _ t Hnth Ht) as (Hy & _ & Hpar & _).
  - rewrite pow_opp, (pow_m1_same_parity _ _ Hpar). ring.
  - rewrite pow_opp, Hy. ring.
Qed.

(** X14: at real arguments the polynomial of degree [l] and order [m] has
    the parity [(-1)^(l - m)] in [z] and [(-1)^m] in [y]. *)
Theorem legendre_parity (l m : nat) (z y : R) :
  exists (polys : list (list Term)) (v : R),
    poly_legendre (Z.of_nat l) = Ok polys
    /\ poly_value (Fin z) (Fin y) (nth m polys []) = Fin v
    /\ poly_value (Fin (- z)) (Fin y) (nth m polys [])
       = Fin ((-1) ^ (l - m) * v)
    /\ poly_value (Fin z) (Fin (- y)) (nth m polys [])
       = Fin ((-1) ^ m * v).
Proof.
  exists (legendre_table l), (poly_real z y (nth m (legendre_table l) [])).
  split; [apply poly_legendre_table |].
  rewrite !poly_value_Fin.
  destruct (order_real_parity l m z y) as [Hz Hy].
  rewrite Hz, Hy. repeat split.
Qed.

(** On the [z] axis ([y = 0]) only the order [0] is left. *)
Lemma order_real_axis (l m : nat) (z : R) :
  1 <= m ->
  poly_real z 0 (nth m (legendre_table l) []) = 0%R.
Proof.
  intros Hm.
  destruct (Nat.le_gt_cases m l) as [Hl | Hl].
  2: { rewrite nth_overflow by (rewrite length_legendre_table; lia).
       reflexivity. }
  assert (Hnth : nth_error (legendre_table l) m
                 = Some (nth m (legendre_table l) [])).
  { apply nth_error_nth'. rewrite length_legendre_table. lia. }
  rewrite (poly_real_scaled z 0 z 0 0).
  - ring.
  - intros t Ht.
    destruct (legendre_table_term l m _ t Hnth Ht) as (Hy & _).
    rewrite Hy, pow_i by lia. ring.
Qed.

(* ------------------------------------------------------------------ *)
(** ** The two poles *)

(** A direction on the [z] axis: [alpha = 0], [y = 0]. *)
Lemma axis_output (l : nat) (zc : R) :
  spherical_harmonics_alpha_z_y_jit [l] (Fin 0) (Fin zc) (Fin 0)
  = Ok (repeat (Fin 0) l
        ++ [Fin (poly_real zc 0 (nth 0 (legendre_table l) []))]
        ++ repeat (Fin 0) l).
Proof.
  destruct (spherical_harmonics_alpha_z_y_jit_returns
              [l] (Fin 0) (Fin zc) (Fin 0) ltac:(discriminate))
    as (out & Hout & Hlen).
  destruct (harmonics_entries [] [] l l (Fin 0) (Fin zc) (Fin 0) eq_refl)
    as (out' & Hout' & Hmid & Hm).
  cbn [app] in Hout'. rewrite Hout in Hout'. inversion Hout'; subst out'.
  rewrite Hout. f_equal.
  change (flat_width [l]) with (2 * l + 1 + 0) in Hlen.
  change (flat_width []) with 0 in Hmid, Hm. cbn [Nat.add] in Hmid, Hm.
  apply nth_ext with (d := NaN) (d' := NaN).
  - rewrite !length_app, !repeat_length. simpl. lia.
  - intros i Hi. rewrite Hlen in Hi.
    destruct (lt_eq_lt_dec i l) as [[Hlt | ->] | Hgt].
    + destruct (Hm (l - i) ltac:(lia)) as [_ Hs].
      replace (l - (l - i)) with i in Hs by lia. rewrite Hs.
      rewrite poly_value_Fin, order_real_axis by lia.
      rewrite app_nth1 by (rewrite repeat_length; lia).
      rewrite nth_repeat_lt by lia.
      cbn [fmul fsin lift1 lift2]. f_equal. ring.
    + rewrite Hmid, poly_value_Fin.
      rewrite app_nth2 by (rewrite repeat_length; lia).
      rewrite repeat_length, Nat.sub_diag. cbn [app nth fmul lift2].
      f_equal. ring.
    + destruct (Hm (i - l) ltac:(lia)) as [Hc _].
      replace (l + (i - l)) with i in Hc by lia. rewrite Hc.
      rewrite poly_value_Fin, order_real_axis by lia.
      rewrite app_nth2 by (rewrite repeat_length; lia).
      rewrite repeat_length.
      replace (i - l) with (S (i - l - 1)) by lia. cbn [app nth].
      rewrite nth_repeat_lt by lia.
      cbn [fmul fcos lift1 lift2]. f_equal. ring.
Qed.

Lemma normalize_axis (c s : R) :
  (0 < c)%R -> (s = 1 \/ s = -1)%R ->
  normalize (Fin 0, Fin 0, Fin (c * s)) = (Fin 0, Fin 0, Fin s).
Proof.
  intros Hc Hs.
  assert (Hv : (0, 0, s)%R <> (0, 0, 0)%R)
    by (intros H; inversion H; lra).
  replace (Fin 0, Fin 0, Fin (c * s))
    with (Fin (c * 0), Fin (c * 0), Fin (c * s))
    by (repeat f_equal; ring).
  rewrite normalize_scale by assumption.
  destruct (normalize_Fin 0 0 s Hv) as [_ E]. rewrite E.
  replace (0 ^ 2 + 0 ^ 2 + s ^ 2)%R with 1%R
    by (destruct Hs; subst; ring).
  rewrite sqrt_1. repeat f_equal; field.
Qed.

Lemma spherical_harmonics_xyz_cpu_axis (l : nat) (c s : R) :
  (0 < c)%R -> (s = 1 \/ s = -1)%R ->
  spherical_harmonics_xyz_cpu [l] (Fin 0, Fin 0, Fin (c * s))
  = Ok (repeat (Fin 0) l
        ++ [Fin (poly_real s 0 (nth 0 (legendre_table l) []))]
        ++ repeat (Fin 0) l).
Proof.
  intros Hc Hs. unfold spherical_harmonics_xyz_cpu.
  rewrite normalize_axis by assumption.
  rewrite !fpow_Fin. cbn [fatan2 fadd lift2 fsqrt]. rewrite atan2_0_0.
  replace (0 ^ 2 + 0 ^ 2)%R with 0%R by ring.
  destruct (Rlt_dec 0 0) as [H | _]; [lra |]. rewrite sqrt_0.
  apply axis_output.
Qed.

Lemma order_real_north (l : nat) :
  poly_real 1 0 (nth 0 (legendre_table l) [])
  = ((-1) ^ l * sqrt ((2 * INR l + 1) / (4 * PI)))%R.
Proof.
  pose proof (order_value_at_pole_zero l) as H.
  rewrite poly_value_Fin in H. inversion H. reflexivity.
Qed.

Lemma order_real_south (l : nat) :
  poly_real (-1) 0 (nth 0 (legendre_table l) [])
  = sqrt ((2 * INR l + 1) / (4 * PI)).
Proof.
  destruct (order_real_parity l 0 1 0) as [H _].
  replace (poly_real (-1) 0 (nth 0 (legendre_table l) []))
    with (poly_real (- (1)) 0 (nth 0 (legendre_table l) []))
    by (f_equal; ring).
  rewrite H, order_real_north, Nat.sub_0_r.
  assert (H2 : ((-1) ^ l * (-1) ^ l = 1)%R).
  { rewrite <- pow_add. replace (l + l) with (2 * l) by lia.
    apply pow_1_even. }
  rewrite <- Rmult_assoc, H2. ring.
Qed.


(* ------------------------------------------------------------------ *)
(** ** The antipodal direction *)










(* ------------------------------------------------------------------ *)
(** ** Angles against directions *)








(* ------------------------------------------------------------------ *)
(** ** The entries of the layout tensor *)

Lemma nth_plane_of (lmax K l off a : nat) :
  a < 2 * lmax + 1 ->
  nth a (plane_of lmax K l off) []
  = if in_range (lmax - l) (2 * l + 1) a
    then unit_row K off (2 * l + 1) (a - (lmax - l))
    else repeat 0%R K.
Proof.
  intros Ha. unfold plane_of.
  rewrite nth_indep with (d' := (fun a0 =>
                                   if in_range (lmax - l) (2 * l + 1) a0
                                   then unit_row K off (2 * l + 1)
                                                 (a0 - (lmax - l))
                                   else repeat 0%R K) 0)
    by (rewrite length_map, length_seq; exact Ha).
  rewrite map_nth with (d := 0). rewrite seq_nth by exact Ha. reflexivity.
Qed.

Lemma length_plane_row (lmax K l off a : nat) :
  a < 2 * lmax + 1 -> length (nth a (plane_of lmax K l off) []) = K.
Proof.
  intros Ha. rewrite nth_plane_of by exact Ha.
  destruct (in_range (lmax - l) (2 * l + 1) a).
  - unfold unit_row. rewrite length_map, length_seq. reflexivity.
  - apply repeat_length.
Qed.

Lemma nth_plane_entry (lmax K l off a k : nat) :
  a < 2 * lmax + 1 -> k < K ->
  nth k (nth a (plane_of lmax K l off) []) 0%R
  = if in_range (lmax - l) (2 * l + 1) a
       && in_range off (2 * l + 1) k
       && Nat.eqb (a - (lmax - l)) (k - off)
    then 1%R else 0%R.
Proof.
  intros Ha Hk. rewrite nth_plane_of by exact Ha.
  destruct (in_range (lmax - l) (2 * l + 1) a); cbn [andb].
  - unfold unit_row. rewrite nth_map_seq by exact Hk.
    destruct (in_range off (2 * l + 1) k); cbn [andb]; reflexivity.
  - apply nth_repeat_zero.
Qed.

(** X18: [expand_matrix] raises [ValueError] on the empty degree set and
    otherwise returns a tensor of shape
    [len(ls) x (2 lmax + 1) x sum (2 l + 1)] whose entry [(j, a, k)] is [1]
    when [a] lies in [lmax - l_j .. lmax + l_j], [k] lies in the block of
    the [j]-th degree, and both are at the same place of their ranges, and
    [0] otherwise. *)
Theorem expand_matrix_entries (ls : list nat) :
  match spherical_harmonics_expand_matrix ls with
  | Raise e => ls = [] /\ e = ValueError
  | Ok E =>
      exists lmax : nat,
        py_max ls = Ok lmax
        /\ length E = length ls
        /\ forall j : nat,
            j < length ls ->
            length (nth j E []) = 2 * lmax + 1
            /\ forall a : nat,
                a < 2 * lmax + 1 ->
                length (nth a (nth j E []) []) = flat_width ls
                /\ forall k : nat,
                    k < flat_width ls ->
                    nth k (nth a (nth j E []) []) 0%R
                    = if in_range (lmax - nth j ls 0) (2 * nth j ls 0 + 1) a
                         && in_range (flat_width (firstn j ls))
                                     (2 * nth j ls 0 + 1) k
                         && Nat.eqb (a - (lmax - nth j ls 0))
                                    (k - flat_width (firstn j ls))
                      then 1%R else 0%R
  end.
Proof.
  destruct ls as [| l0 ls0] eqn:Els; [split; reflexivity |]. rewrite <- Els.
  assert (Hne : ls <> []) by (subst; discriminate). clear Els.
  destruct (py_max_Ok ls Hne) as [lmax Hmax].
  rewrite (spherical_harmonics_expand_matrix_value ls lmax Hmax).
  exists lmax. split; [exact Hmax |].
  split; [apply length_planes_from |].
  intros j Hj. rewrite nth_planes_from by exact Hj. cbn [Nat.add].
  split.
  - unfold plane_of. rewrite length_map, length_seq. reflexivity.
  - intros a Ha. split; [apply length_plane_row; exact Ha |].
    intros k Hk. apply nth_plane_entry; assumption.
Qed.

(* ------------------------------------------------------------------ *)
(** ** The range of the format in the normalisation *)

(** Within the range the norm is the exact one. *)
Lemma normalize_ranged_exact (fmt : Format) (x y z : R) :
  (tiny fmt <= x ^ 2 + y ^ 2 + z ^ 2 <= huge fmt)%R ->
  normalize_ranged fmt (Fin x, Fin y, Fin z)
  = Some (normalize (Fin x, Fin y, Fin z)).
Proof.
  intros [Hlo Hhi]. unfold normalize_ranged, norm2_ranged.
  destruct (Rlt_dec (huge fmt) (x ^ 2 + y ^ 2 + z ^ 2)) as [H | _];
    [lra |].
  destruct (Rlt_dec 0 (x ^ 2 + y ^ 2 + z ^ 2)) as [_ | _];
    [| reflexivity].
  destruct (Rlt_dec (x ^ 2 + y ^ 2 + z ^ 2) (tiny fmt)) as [H | _];
    [lra | reflexivity].
Qed.

Lemma spherical_harmonics_xyz_cpu_ranged_exact (fmt : Format)
      (ls : list nat) (x y z : R) :
  (tiny fmt <= x ^ 2 + y ^ 2 + z ^ 2 <= huge fmt)%R ->
  spherical_harmonics_xyz_cpu_ranged fmt ls (Fin x, Fin y, Fin z)
  = Some (spherical_harmonics_xyz_cpu ls (Fin x, Fin y, Fin z)).
Proof.
  intros Hs.
  unfold spherical_harmonics_xyz_cpu_ranged, spherical_harmonics_xyz_cpu.
  rewrite normalize_ranged_exact by exact Hs.
  destruct (normalize (Fin x, Fin y, Fin z)) as [[a b] c]. reflexivity.
Qed.


(** Numbers of moderate size are within the range of both formats. *)
Lemma binary32_moderate (s : R) :
  (1 <= s <= 1000)%R -> (tiny binary32 <= s <= huge binary32)%R.
Proof.
  intros [Hlo Hhi]. cbn [tiny huge binary32]. split.
  - apply Rle_trans with 1%R; [| exact Hlo].
    rewrite <- Rinv_1. apply Rinv_le_contravar; [lra |].
    apply IZR_le. apply Zle_bool_imp_le. vm_compute. reflexivity.
  - apply Rle_trans with 1000%R; [exact Hhi |].
    apply IZR_le. apply Zle_bool_imp_le. vm_compute. reflexivity.
Qed.






(* ------------------------------------------------------------------ *)
(** ** The two poles, within the range *)

(** X15: for every degree [l <= 10] and every [c > 0] whose square is
    within the range of the format, the harmonics of the direction
    [(0, 0, c)] vanish at every order but [m = 0], where the value is
    [(-1)^l sqrt ((2 l + 1) / (4 pi))]; those of [(0, 0, -c)] vanish
    likewise, and the value at [m = 0] is [sqrt ((2 l + 1) / (4 pi))].  Up
    to that degree the terms summed at [m = 0] are together at most 1100
    times the value. *)
Theorem spherical_harmonics_xyz_cpu_poles (fmt : Format) (l : nat) (c : R) :
  l <= 10 -> (0 < c)%R -> (tiny fmt <= c ^ 2 <= huge fmt)%R ->
  spherical_harmonics_xyz_cpu_ranged fmt [l] (Fin 0, Fin 0, Fin c)
  = Some (Ok (repeat (Fin 0) l
              ++ [Fin ((-1) ^ l * sqrt ((2 * INR l + 1) / (4 * PI)))]
              ++ repeat (Fin 0) l))
  /\ spherical_harmonics_xyz_cpu_ranged fmt [l] (Fin 0, Fin 0, Fin (- c))
     = Some (Ok (repeat (Fin 0) l
                 ++ [Fin (sqrt ((2 * INR l + 1) / (4 * PI)))]
                 ++ repeat (Fin 0) l))
  /\ exists polys : list (list Term),
      poly_legendre (Z.of_nat l) = Ok polys
      /\ (abs_sum (nth 0 polys [])
          <= 1100 * sqrt ((2 * INR l + 1) / (4 * PI)))%R.
Proof.
  intros Hl Hc Hs. split; [| split].
  - rewrite spherical_harmonics_xyz_cpu_ranged_exact
      by (replace (0 ^ 2 + 0 ^ 2 + c ^ 2)%R with (c ^ 2)%R by ring;
          exact Hs).
    replace c with (c * 1)%R at 1 by ring.
    rewrite spherical_harmonics_xyz_cpu_axis by (auto; lra).
    rewrite order_real_north. reflexivity.
  - rewrite spherical_harmonics_xyz_cpu_ranged_exact
      by (replace (0 ^ 2 + 0 ^ 2 + (- c) ^ 2)%R with (c ^ 2)%R by ring;
          exact Hs).
    replace (- c)%R with (c * -1)%R by ring.
    rewrite spherical_harmonics_xyz_cpu_axis by (auto; lra).
    rewrite order_real_south. reflexivity.
  - exists (legendre_table l).
    split; [apply poly_legendre_table | apply abs_sum_bound; exact Hl].
Qed.

Lemma spherical_harmonics_xyz_cpu_poles_witness :
  2 <= 10 /\ (0 < 3)%R
  /\ (tiny binary32 <= 3 ^ 2 <= huge binary32)%R
  /\ spherical_harmonics_xyz_cpu_ranged binary32 [2] (Fin 0, Fin 0, Fin 3)
     = Some (Ok (repeat (Fin 0) 2
                 ++ [Fin ((-1) ^ 2 * sqrt ((2 * INR 2 + 1) / (4 * PI)))]
                 ++ repeat (Fin 0) 2))
  /\ spherical_harmonics_xyz_cpu_ranged binary32 [2]
       (Fin 0, Fin 0, Fin (- 3))
     = Some (Ok (repeat (Fin 0) 2
                 ++ [Fin (sqrt ((2 * INR 2 + 1) / (4 * PI)))]
                 ++ repeat (Fin 0) 2))
  /\ exists polys : list (list Term),
      poly_legendre (Z.of_nat 2) = Ok polys
      /\ (abs_sum (nth 0 polys [])
          <= 1100 * sqrt ((2 * INR 2 + 1) / (4 * PI)))%R.
Proof.
  assert (Hl : 2 <= 10) by lia.
  assert (H : (0 < 3)%R) by lra.
  assert (Hs : (tiny binary32 <= 3 ^ 2 <= huge binary32)%R)
    by (apply binary32_moderate; lra).
  split; [exact Hl |]. split; [exact H |]. split; [exact Hs |].
  apply (spherical_harmonics_xyz_cpu_poles binary32 2 3 Hl H Hs).
Defined.
